(** * Dynamica: circuit integrity and parameter validation

    A shallow embedding of the editor's analysis entry point
    ([web/src/controller/analysisController.ts]) and of the places where the
    unknown flags of sources are normalised (the analysis controller, the
    component inspector and the canvas controller).

    Numbers are IEEE 754 binary64 values (the kernel's primitive floats, the
    arithmetic of a JavaScript [number]); strings are sequences of UTF-16
    code units; an optional field is an [option]. *)

From Stdlib Require Import List Bool Arith NArith ZArith Lia.
From Stdlib Require Import Ascii String DecimalString.
From Stdlib Require Import Floats.
Import ListNotations.

Set Implicit Arguments.

(* ------------------------------------------------------------------ *)
(** ** JavaScript strings *)

Module JsString.

(** A string value: its UTF-16 code units. *)
Definition jsstring := list N.

(** A literal written with Basic Latin characters only. *)
Definition lit (s : string) : jsstring :=
  List.map N_of_ascii (list_ascii_of_string s).

Definition is_empty (s : jsstring) : bool :=
  match s with [] => true | _ :: _ => false end.

Fixpoint eqb (s t : jsstring) : bool :=
  match s, t with
  | [], [] => true
  | a :: s', b :: t' => N.eqb a b && eqb s' t'
  | _, _ => false
  end.

(** ECMAScript WhiteSpace and LineTerminator code points, the ones
    [String.prototype.trim] strips. All of them are single code units. *)
Definition is_white_space (c : N) : bool :=
  (  N.eqb c 9 || N.eqb c 10 || N.eqb c 11 || N.eqb c 12 || N.eqb c 13
  || N.eqb c 32 || N.eqb c 160 || N.eqb c 5760
  || (N.leb 8192 c && N.leb c 8202)
  || N.eqb c 8232 || N.eqb c 8233 || N.eqb c 8239 || N.eqb c 8287
  || N.eqb c 12288 || N.eqb c 65279)%bool.

Fixpoint trimStart (s : jsstring) : jsstring :=
  match s with
  | [] => []
  | c :: s' => if is_white_space c then trimStart s' else s
  end.

Definition trimEnd (s : jsstring) : jsstring := rev (trimStart (rev s)).

Definition trim (s : jsstring) : jsstring := trimEnd (trimStart s).

(** [Array.prototype.join] on an array of strings. *)
Fixpoint join (sep : jsstring) (parts : list jsstring) : jsstring :=
  match parts with
  | [] => []
  | [p] => p
  | p :: rest => p ++ sep ++ join sep rest
  end.

(** Number-to-string conversion of a non-negative integer. *)
Definition of_nat (n : nat) : jsstring :=
  lit (NilEmpty.string_of_uint (Nat.to_uint n)).

(** The case mapping of Basic Latin letters; other code units are kept. *)
Definition ascii_upper (s : jsstring) : jsstring :=
  List.map (fun c => if (N.leb 97 c && N.leb c 122)%bool then (c - 32)%N else c) s.

(** A string is blank when every code unit of it is white space. *)
Definition blank (s : jsstring) : bool := forallb is_white_space s.

End JsString.

Import JsString.

(* ------------------------------------------------------------------ *)
(** ** Components *)

Record Point := mkPoint { px : float; py : float }.

Inductive SourceDirection := a_to_b | b_to_a.
Inductive SourcePolarity := a_positive | b_positive.

(** [ComponentInstance] of the analysis controller. The optional fields are
    [None] when the property is absent ([undefined]). [Pin] is how a pin
    is held: its coordinates, or a reference to the pin object. *)
Record ComponentOf (Pin : Type) := mkComponent {
  id : jsstring;
  type : jsstring;
  pinA : Pin;
  pinB : Pin;
  label : option jsstring;
  value : option jsstring;
  current : option jsstring;
  voltage : option jsstring;
  currentUnknown : option bool;
  voltageUnknown : option bool;
  sourceDirection : option SourceDirection;
  sourcePolarity : option SourcePolarity
}.

Definition ComponentInstance := ComponentOf Point.

(** The discriminated result of both validators. *)
Inductive Verdict :=
| Ok
| Err (error : jsstring).

Definition CLUSTER_TOLERANCE : float := 8%float.

(** [xs.map((x, index) => f(x, index))], starting at index [i]. *)
Fixpoint mapi_from {A B : Type} (f : A -> nat -> B) (i : nat) (xs : list A) : list B :=
  match xs with
  | [] => []
  | x :: xs' => f x i :: mapi_from f (S i) xs'
  end.

Definition mapi {A B : Type} (f : A -> nat -> B) (xs : list A) : list B :=
  mapi_from f 0 xs.

(** [.filter((e): e is string => !!e)]: drops [null] and the empty string. *)
Fixpoint filter_truthy (xs : list (option jsstring)) : list jsstring :=
  match xs with
  | [] => []
  | Some s :: xs' => if is_empty s then filter_truthy xs' else s :: filter_truthy xs'
  | None :: xs' => filter_truthy xs'
  end.

(** [typeof field === "string" && field.trim() !== ""] *)
Definition has_text (field : option jsstring) : bool :=
  match field with
  | Some s => negb (is_empty (trim s))
  | None => false
  end.

(** [!!(field && field.trim() !== "")] *)
Definition has_text_truthy (field : option jsstring) : bool :=
  match field with
  | Some s => negb (is_empty s) && negb (is_empty (trim s))
  | None => false
  end.

(** [names.slice(0, 4).join(", ")] followed by ["..."] when more than four. *)
Definition capped_preview (names : list jsstring) : jsstring :=
  join (lit ", ") (firstn 4 names)
  ++ (if Nat.ltb 4 (List.length names) then lit "..." else []).

Section Validation.

Variable Pin : Type.

(** The host's [String.prototype.toUpperCase]. *)
Variable toUpperCase : jsstring -> jsstring.

Definition canonicalLabel (comp : ComponentOf Pin) (index : nat) : jsstring :=
  match option_map trim (label comp) with
  | Some l => if is_empty l
              then toUpperCase (type comp) ++ lit "_" ++ of_nat (index + 1)
              else l
  | None => toUpperCase (type comp) ++ lit "_" ++ of_nat (index + 1)
  end.

Definition getMissingParamReason (comp : ComponentOf Pin) : option jsstring :=
  if eqb (type comp) (lit "wire") then None
  else if eqb (type comp) (lit "resistor") || eqb (type comp) (lit "capacitor")
          || eqb (type comp) (lit "inductor")
  then (if has_text (value comp) then None else Some (lit "valore"))
  else if eqb (type comp) (lit "voltage_source")
  then (if match voltageUnknown comp with Some true => true | _ => false end
           || negb (has_text (voltage comp))
        then Some (lit "tensione") else None)
  else if eqb (type comp) (lit "current_source")
  then (if match currentUnknown comp with Some true => true | _ => false end
           || negb (has_text (current comp))
        then Some (lit "corrente") else None)
  else None.

(** The entry of one component in the list of missing parameters
    ([null] when the reason is [null] or empty). *)
Definition missing_entry (comp : ComponentOf Pin) (index : nat) : option jsstring :=
  match getMissingParamReason comp with
  | Some reason =>
      if is_empty reason then None
      else Some (canonicalLabel comp index ++ lit " (" ++ reason ++ lit ")")
  | None => None
  end.

Definition validateComponentParams (components : list (ComponentOf Pin)) : Verdict :=
  let missing := filter_truthy (mapi missing_entry components) in
  if Nat.eqb (List.length missing) 0 then Ok
  else Err (lit "Errore parametro mancante: " ++ capped_preview missing ++ lit ".").

End Validation.

(* ------------------------------------------------------------------ *)
(** ** Insertion-ordered containers

    A JavaScript [Set<number>] is the list of its elements in insertion
    order, without repetition; a [Map<number, V>] is the list of its
    entries in insertion order, one per key. Keys are cluster ids and
    component indices, which are array indices. *)

Module JsSet.

Definition t := list nat.

Definition has (s : t) (k : nat) : bool := existsb (Nat.eqb k) s.

Definition add (s : t) (k : nat) : t := if has s k then s else s ++ [k].

Definition size (s : t) : nat := List.length s.

End JsSet.

Module JsMap.

Definition t (V : Type) := list (nat * V).

Fixpoint get {V : Type} (m : t V) (k : nat) : option V :=
  match m with
  | [] => None
  | (k', v) :: m' => if Nat.eqb k k' then Some v else get m' k
  end.

(** [m.set(k, v)]: an existing key keeps its place in the order. *)
Fixpoint set {V : Type} (m : t V) (k : nat) (v : V) : t V :=
  match m with
  | [] => [(k, v)]
  | (k', v') :: m' => if Nat.eqb k k' then (k, v) :: m' else (k', v') :: set m' k v
  end.

End JsMap.

(** [xs[i] = v] on an index inside the array. *)
Fixpoint set_nth {A : Type} (i : nat) (v : A) (xs : list A) : list A :=
  match xs, i with
  | [], _ => []
  | _ :: xs', O => v :: xs'
  | x :: xs', S i' => x :: set_nth i' v xs'
  end.

(** Sequencing of steps that may fail to return. *)
Definition bind {A B : Type} (m : option A) (k : A -> option B) : option B :=
  match m with
  | Some a => k a
  | None => None
  end.

Notation "x <- m ;; k" := (bind m (fun x => k))
  (at level 61, m at next level, right associativity).

Notation "' p <- m ;; k" := (bind m (fun p => k))
  (at level 61, p pattern, m at next level, right associativity).

(* ------------------------------------------------------------------ *)
(** ** Point clustering *)

Record Cluster := mkCluster { cx : float; cy : float; count : float }.

Definition tolerance2 : float := (CLUSTER_TOLERANCE * CLUSTER_TOLERANCE)%float.

(** The squared distance of [(x, y)] from the centroid, as the loop computes it. *)
Definition dist2 (c : Cluster) (x y : float) : float :=
  (let dx := x - cx c in
   let dy := y - cy c in
   dx * dx + dy * dy)%float.

(** [dx * dx + dy * dy > tolerance2], the test that skips a cluster. *)
Definition beyond_tolerance (c : Cluster) (x y : float) : bool :=
  (tolerance2 <? dist2 c x y)%float.

Definition within_tolerance (c : Cluster) (x y : float) : bool :=
  negb (beyond_tolerance c x y).

(** The running mean after one more member. *)
Definition absorb (c : Cluster) (x y : float) : Cluster :=
  (let newCount := count c + 1 in
   mkCluster ((cx c * count c + x) / newCount)
             ((cy c * count c + y) / newCount)
             newCount)%float.

(** The scan of [assignCluster] from index [i] on, over the clusters from
    [i] on: the index returned and those clusters afterwards. *)
Fixpoint assignCluster_from (i : nat) (clusters : list Cluster) (x y : float)
  : nat * list Cluster :=
  match clusters with
  | [] => (i, [mkCluster x y 1%float])
  | c :: rest =>
      if beyond_tolerance c x y
      then let '(k, rest') := assignCluster_from (S i) rest x y in (k, c :: rest')
      else (i, absorb c x y :: rest)
  end.

Definition assignCluster (clusters : list Cluster) (x y : float) : nat * list Cluster :=
  assignCluster_from 0 clusters x y.

(** The local state of [validateCircuitIntegrity]; [C] is how the array
    [clusters] holds a cluster. The values of [terminalCounts] are integers
    below 2^33 (two per element of an array), which a [number] holds
    exactly. *)
Record TopologyOf (C : Type) := mkTopology {
  clusters : list C;
  terminalCounts : JsMap.t nat;
  clusterComponents : JsMap.t JsSet.t;
  componentNodes : list (nat * nat)
}.

Definition Topology := TopologyOf Cluster.

Definition count_of (counts : JsMap.t nat) (nodeId : nat) : nat :=
  match JsMap.get counts nodeId with Some n => n | None => 0 end.

Definition members_of (cc : JsMap.t JsSet.t) (nodeId : nat) : JsSet.t :=
  match JsMap.get cc nodeId with Some s => s | None => [] end.

Definition incTerminal {C : Type} (t : TopologyOf C) (nodeId compIndex : nat)
  : TopologyOf C :=
  mkTopology (clusters t)
    (JsMap.set (terminalCounts t) nodeId (count_of (terminalCounts t) nodeId + 1))
    (JsMap.set (clusterComponents t) nodeId
       (JsSet.add (members_of (clusterComponents t) nodeId) compIndex))
    (componentNodes t).

(** What the body of [forEach] does once both terminals have their ids. *)
Definition record_nodes {C : Type} (t : TopologyOf C) (cs : list C) (a b index : nat)
  : TopologyOf C :=
  let t1 := mkTopology cs (terminalCounts t) (clusterComponents t)
              (componentNodes t ++ [(a, b)]) in
  incTerminal (incTerminal t1 a index) b index.

(** The body of [components.forEach((comp, index) => ...)]. *)
Definition visit_component (t : Topology) (comp : ComponentInstance) (index : nat)
  : Topology :=
  let '(a, cs1) := assignCluster (clusters t) (px (pinA comp)) (py (pinA comp)) in
  let '(b, cs2) := assignCluster cs1 (px (pinB comp)) (py (pinB comp)) in
  record_nodes t cs2 a b index.

Fixpoint visit_from (t : Topology) (index : nat) (components : list ComponentInstance)
  : Topology :=
  match components with
  | [] => t
  | comp :: rest => visit_from (visit_component t comp index) (S index) rest
  end.

Definition build_topology (components : list ComponentInstance) : Topology :=
  visit_from (mkTopology [] [] [] []) 0 components.

(* ------------------------------------------------------------------ *)
(** ** Integrity validation *)

(** [adjacency[a].add(b)]; no value when [adjacency[a]] is undefined. *)
Definition adj_add (adjacency : list JsSet.t) (a b : nat) : option (list JsSet.t) :=
  match nth_error adjacency a with
  | Some s => Some (set_nth a (JsSet.add s b) adjacency)
  | None => None
  end.

(** The inner loop over [j], for [a = ids[i]] and the ids after it. *)
Fixpoint link_with (a : nat) (later : list nat) (adjacency : list JsSet.t)
  : option (list JsSet.t) :=
  match later with
  | [] => Some adjacency
  | b :: later' =>
      adj1 <- adj_add adjacency a b ;;
      adj2 <- adj_add adj1 b a ;;
      link_with a later' adj2
  end.

(** The outer loop over [i]. *)
Fixpoint link_all (ids : list nat) (adjacency : list JsSet.t) : option (list JsSet.t) :=
  match ids with
  | [] => Some adjacency
  | a :: later =>
      adj1 <- link_with a later adjacency ;;
      link_all later adj1
  end.

(** [clusterComponents.forEach((compIds) => ...)] *)
Fixpoint link_clusters (cc : JsMap.t JsSet.t) (adjacency : list JsSet.t)
  : option (list JsSet.t) :=
  match cc with
  | [] => Some adjacency
  | (_, compIds) :: cc' =>
      adj1 <- link_all compIds adjacency ;;
      link_clusters cc' adj1
  end.

Definition build_adjacency (n : nat) (cc : JsMap.t JsSet.t) : option (list JsSet.t) :=
  link_clusters cc (repeat [] n).

(** [adjacency[current].forEach((neighbor) => ...)] *)
Fixpoint visit_neighbors (neighbors : list nat) (visited : JsSet.t) (queue : list nat)
  : JsSet.t * list nat :=
  match neighbors with
  | [] => (visited, queue)
  | neighbor :: rest =>
      if JsSet.has visited neighbor then visit_neighbors rest visited queue
      else visit_neighbors rest (JsSet.add visited neighbor) (queue ++ [neighbor])
  end.

(** The [while (queue.length > 0)] loop, with a bound on its iterations. *)
Fixpoint bfs (fuel : nat) (adjacency : list JsSet.t) (visited : JsSet.t) (queue : list nat)
  : option JsSet.t :=
  match queue with
  | [] => Some visited
  | current :: rest =>
      match fuel with
      | O => None
      | S fuel' =>
          neighbors <- nth_error adjacency current ;;
          let '(visited', queue') := visit_neighbors neighbors visited rest in
          bfs fuel' adjacency visited' queue'
      end
  end.

Definition EMPTY_CIRCUIT : jsstring :=
  lit "Circuito vuoto: aggiungi almeno un componente.".

Definition DANGLING_PREFIX : jsstring :=
  lit "Errore di integrit" ++ [224%N] ++ lit ": componenti/rami scoperti (".

Definition DISCONNECTED : jsstring :=
  lit "Errore di integrit" ++ [224%N] ++ lit ": il circuito non "
  ++ [232%N] ++ lit " completamente interconnesso.".

Definition is_dangling (counts : JsMap.t nat) (nodes : nat * nat) : bool :=
  let aCount := count_of counts (fst nodes) in
  let bCount := count_of counts (snd nodes) in
  Nat.ltb aCount 2 || Nat.ltb bCount 2.

(** [xs.map((x, index) => f(x, index))] for an [f] that may not return. *)
Fixpoint mapi_opt_from {A B : Type} (f : A -> nat -> option B) (i : nat) (xs : list A)
  : option (list B) :=
  match xs with
  | [] => Some []
  | x :: xs' =>
      y <- f x i ;;
      ys <- mapi_opt_from f (S i) xs' ;;
      Some (y :: ys)
  end.

Section Integrity.

Variable toUpperCase : jsstring -> jsstring.

Section Verdict.

Variables Pin C : Type.

(** The name of a component in the dangling report, [null] when it is not
    dangling; no value when [components[index]] is undefined. *)
Definition dangling_entry (components : list (ComponentOf Pin)) (counts : JsMap.t nat)
    (nodes : nat * nat) (index : nat) : option (option jsstring) :=
  if is_dangling counts nodes
  then comp <- nth_error components index ;;
       Some (Some (canonicalLabel toUpperCase comp index))
  else Some None.

Definition danglingComponents (components : list (ComponentOf Pin)) (t : TopologyOf C)
  : option (list jsstring) :=
  entries <- mapi_opt_from (dangling_entry components (terminalCounts t)) 0
               (componentNodes t) ;;
  Some (filter_truthy entries).

(** [validateCircuitIntegrity] from the dangling check on; no value when
    the run does not return (an undefined array element, or the loop
    bound exceeded). *)
Definition integrity_verdict (components : list (ComponentOf Pin)) (t : TopologyOf C)
  : option Verdict :=
  dangling <- danglingComponents components t ;;
  if Nat.ltb 0 (List.length dangling)
  then Some (Err (DANGLING_PREFIX ++ capped_preview dangling ++ lit ")."))
  else
    adjacency <- build_adjacency (List.length components) (clusterComponents t) ;;
    visited <- bfs (S (List.length components)) adjacency [0] [0] ;;
    if negb (Nat.eqb (JsSet.size visited) (List.length components))
    then Some (Err DISCONNECTED)
    else Some Ok.

End Verdict.

Definition validateCircuitIntegrity (components : list ComponentInstance)
  : option Verdict :=
  if Nat.eqb (List.length components) 0 then Some (Err EMPTY_CIRCUIT)
  else integrity_verdict components (build_topology components).

(** One validation pass of the click handler: integrity, then parameters. *)
Definition validation_pass (components : list ComponentInstance) : option Verdict :=
  integrity <- validateCircuitIntegrity components ;;
  match integrity with
  | Err e => Some (Err e)
  | Ok => Some (validateComponentParams toUpperCase components)
  end.

End Integrity.

(* ------------------------------------------------------------------ *)
(** ** Normalisation of the unknown flags of sources *)

(** The body of the [map] in [normalizeComponentsForAnalysis]. *)
Definition normalizeComponent {Pin : Type} (comp : ComponentOf Pin) : ComponentOf Pin :=
  if eqb (type comp) (lit "voltage_source") then
    let hasVoltage := has_text_truthy (voltage comp) in
    mkComponent (id comp) (type comp) (pinA comp) (pinB comp) (label comp)
      None (current comp) (voltage comp)
      (Some hasVoltage) (Some (negb hasVoltage))
      (sourceDirection comp) (sourcePolarity comp)
  else if eqb (type comp) (lit "current_source") then
    let hasCurrent := has_text_truthy (current comp) in
    mkComponent (id comp) (type comp) (pinA comp) (pinB comp) (label comp)
      None (current comp) (voltage comp)
      (Some (negb hasCurrent)) (Some hasCurrent)
      (sourceDirection comp) (sourcePolarity comp)
  else comp.

Definition normalizeComponentsForAnalysis {Pin : Type} (components : list (ComponentOf Pin))
  : list (ComponentOf Pin) :=
  List.map normalizeComponent components.

(** [typeof flag === "boolean" ? flag : true] *)
Definition flag_or_true (flag : option bool) : bool :=
  match flag with Some b => b | None => true end.

(** The two check boxes [(currentUnknown, voltageUnknown)] that
    [renderComponent] of the inspector shows for a component. *)
Definition inspectorUnknowns {Pin : Type} (comp : ComponentOf Pin) : bool * bool :=
  let isVoltageSource := eqb (type comp) (lit "voltage_source") in
  let isCurrentSource := eqb (type comp) (lit "current_source") in
  let sourceType := isVoltageSource || isCurrentSource in
  let currentUnknown := flag_or_true (currentUnknown comp) in
  let voltageUnknown := flag_or_true (voltageUnknown comp) in
  if sourceType && Bool.eqb currentUnknown voltageUnknown then
    if isVoltageSource then (true, false)
    else if isCurrentSource then (false, true)
    else (currentUnknown, voltageUnknown)
  else (currentUnknown, voltageUnknown).

(** [sourceUnknowns] of [buildLabeledComponent] in the canvas controller:
    the flags [(currentUnknown, voltageUnknown)] it stores when it labels
    a component. *)
Definition sourceUnknowns {Pin : Type} (c : ComponentOf Pin) : bool * bool :=
  let isVoltageSource := eqb (type c) (lit "voltage_source") in
  let isCurrentSource := eqb (type c) (lit "current_source") in
  let currentUnknownRaw := flag_or_true (currentUnknown c) in
  let voltageUnknownRaw := flag_or_true (voltageUnknown c) in
  if isVoltageSource then
    (if Bool.eqb currentUnknownRaw voltageUnknownRaw then true else currentUnknownRaw,
     if Bool.eqb currentUnknownRaw voltageUnknownRaw then false else voltageUnknownRaw)
  else if isCurrentSource then
    (if Bool.eqb currentUnknownRaw voltageUnknownRaw then false else currentUnknownRaw,
     if Bool.eqb currentUnknownRaw voltageUnknownRaw then true else voltageUnknownRaw)
  else (currentUnknownRaw, voltageUnknownRaw).

(* ------------------------------------------------------------------ *)
(** ** The object store

    The validators receive references: the array [components] holds
    references to component objects, whose [pinA] and [pinB] are references
    to pin objects [{x, y}]; the array [clusters] holds references to the
    cluster objects [{x, y, count}] that [assignCluster] creates and
    updates in place. *)

Module Store.

Definition loc := nat.

Inductive Obj :=
| NumObj (x y : float) (count : option float)
| CompObj (comp : ComponentOf loc).

Definition heap := list Obj.

(** [p.x] and [p.y] of the object at [l]. *)
Definition read_point (h : heap) (l : loc) : option Point :=
  match nth_error h l with
  | Some (NumObj x y _) => Some (mkPoint x y)
  | _ => None
  end.

(** [c.x], [c.y] and [c.count] of the object at [l]; a missing [count]
    reads as [undefined], which arithmetic converts to [NaN]. *)
Definition read_cluster (h : heap) (l : loc) : option Cluster :=
  match nth_error h l with
  | Some (NumObj x y n) => Some (mkCluster x y (match n with Some k => k | None => nan end))
  | _ => None
  end.

Definition read_component (h : heap) (l : loc) : option (ComponentOf loc) :=
  match nth_error h l with
  | Some (CompObj comp) => Some comp
  | _ => None
  end.

Definition cluster_obj (c : Cluster) : Obj := NumObj (cx c) (cy c) (Some (count c)).

(** The three assignments [cluster.x = ...; cluster.y = ...; cluster.count = ...]
    on the object at [l]. *)
Definition write_cluster (h : heap) (l : loc) (c : Cluster) : heap :=
  set_nth l (cluster_obj c) h.

(** The [for] loop of [assignCluster] from index [i] on: [Some (i, h')]
    when a cluster absorbed the point, [None] when the loop ran out. *)
Fixpoint scan_clusters (i : nat) (h : heap) (later : list loc) (x y : float)
  : option (option (nat * heap)) :=
  match later with
  | [] => Some None
  | l :: later' =>
      cluster <- read_cluster h l ;;
      if beyond_tolerance cluster x y
      then scan_clusters (S i) h later' x y
      else Some (Some (i, write_cluster h l (absorb cluster x y)))
  end.

Definition assignCluster (h : heap) (clusters : list loc) (x y : float)
  : option (nat * heap * list loc) :=
  hit <- scan_clusters 0 h clusters x y ;;
  match hit with
  | Some (i, h') => Some (i, h', clusters)
  | None =>
      Some (List.length clusters,
            h ++ [cluster_obj (mkCluster x y 1%float)],
            clusters ++ [List.length h])
  end.

Definition visit_component (h : heap) (t : TopologyOf loc) (ref : loc) (index : nat)
  : option (TopologyOf loc * heap) :=
  comp <- read_component h ref ;;
  pa <- read_point h (pinA comp) ;;
  '(a, h1, cs1) <- assignCluster h (clusters t) (px pa) (py pa) ;;
  comp' <- read_component h1 ref ;;
  pb <- read_point h1 (pinB comp') ;;
  '(b, h2, cs2) <- assignCluster h1 cs1 (px pb) (py pb) ;;
  Some (record_nodes t cs2 a b index, h2).

Fixpoint visit_from (h : heap) (t : TopologyOf loc) (index : nat) (components : list loc)
  : option (TopologyOf loc * heap) :=
  match components with
  | [] => Some (t, h)
  | ref :: rest =>
      '(t', h') <- visit_component h t ref index ;;
      visit_from h' t' (S index) rest
  end.

Definition build_topology (h : heap) (components : list loc)
  : option (TopologyOf loc * heap) :=
  visit_from h (mkTopology [] [] [] []) 0 components.

(** The component objects an array of references leads to. *)
Fixpoint load_components (h : heap) (components : list loc)
  : option (list (ComponentOf loc)) :=
  match components with
  | [] => Some []
  | ref :: rest =>
      comp <- read_component h ref ;;
      comps <- load_components h rest ;;
      Some (comp :: comps)
  end.

(** The value of a component: its fields, with the coordinates of its pins. *)
Definition component_value (h : heap) (comp : ComponentOf loc) : option ComponentInstance :=
  pa <- read_point h (pinA comp) ;;
  pb <- read_point h (pinB comp) ;;
  Some (mkComponent (id comp) (type comp) pa pb (label comp) (value comp)
          (current comp) (voltage comp) (currentUnknown comp) (voltageUnknown comp)
          (sourceDirection comp) (sourcePolarity comp)).

(** The values of the components an array of references leads to; no
    value when a reference does not lead to a component with two pins. *)
Fixpoint snapshot (h : heap) (components : list loc) : option (list ComponentInstance) :=
  match components with
  | [] => Some []
  | ref :: rest =>
      comp <- read_component h ref ;;
      v <- component_value h comp ;;
      vs <- snapshot h rest ;;
      Some (v :: vs)
  end.

Section Pass.

Variable toUpperCase : jsstring -> jsstring.

(** The verdict, the pair of node ids of every component, and the store
    afterwards. *)
Definition validateCircuitIntegrity (h : heap) (components : list loc)
  : option (Verdict * list (nat * nat) * heap) :=
  if Nat.eqb (List.length components) 0 then Some (Err EMPTY_CIRCUIT, [], h)
  else
    '(t, h') <- build_topology h components ;;
    comps <- load_components h' components ;;
    verdict <- integrity_verdict toUpperCase comps t ;;
    Some (verdict, componentNodes t, h').

Definition validateComponentParams (h : heap) (components : list loc) : option Verdict :=
  comps <- load_components h components ;;
  Some (validateComponentParams toUpperCase comps).

Definition validation_pass (h : heap) (components : list loc)
  : option (Verdict * list (nat * nat) * heap) :=
  '(integrity, nodes, h') <- validateCircuitIntegrity h components ;;
  match integrity with
  | Err e => Some (Err e, nodes, h')
  | Ok =>
      params <- validateComponentParams h' components ;;
      Some (params, nodes, h')
  end.

End Pass.

End Store.

(* ------------------------------------------------------------------ *)
(** ** Notions the statements below are written with *)

Definition is_passive (ty : jsstring) : bool :=
  eqb ty (lit "resistor") || eqb ty (lit "capacitor") || eqb ty (lit "inductor").

Definition is_source (ty : jsstring) : bool :=
  eqb ty (lit "voltage_source") || eqb ty (lit "current_source").

(** The error string of a verdict that was returned. *)
Definition error_of (v : option Verdict) : jsstring :=
  match v with Some (Err e) => e | _ => [] end.

(** [flag === true] *)
Definition flagged (flag : option bool) : bool :=
  match flag with Some true => true | _ => false end.

Definition is_alphanumeric (c : N) : bool :=
  (N.leb 48 c && N.leb c 57) || (N.leb 65 c && N.leb c 90) || (N.leb 97 c && N.leb c 122).

(** Follows the spec's words, "value field is a non-empty parsable string",
    in their weakest reading: whatever the grammar of a scalar is, a string
    that can be parsed as one is not empty and holds a digit or a letter. *)
Definition spec_nonempty_parsable (field : option jsstring) : bool :=
  match field with
  | Some s => negb (is_empty s) && existsb is_alphanumeric s
  | None => false
  end.

(** A component with no optional field set. *)
Definition bare {Pin : Type} (ty : string) (a b : Pin) : ComponentOf Pin :=
  mkComponent (lit "c") (lit ty) a b None None None None None None None None.

Definition with_value {Pin : Type} (comp : ComponentOf Pin) (v : string) : ComponentOf Pin :=
  mkComponent (id comp) (type comp) (pinA comp) (pinB comp) (label comp)
    (Some (lit v)) (current comp) (voltage comp) (currentUnknown comp)
    (voltageUnknown comp) (sourceDirection comp) (sourcePolarity comp).

Definition with_voltage {Pin : Type} (comp : ComponentOf Pin) (v : string) : ComponentOf Pin :=
  mkComponent (id comp) (type comp) (pinA comp) (pinB comp) (label comp)
    (value comp) (current comp) (Some (lit v)) (currentUnknown comp)
    (voltageUnknown comp) (sourceDirection comp) (sourcePolarity comp).

Definition origin : Point := mkPoint 0%float 0%float.

(** One assignment of a point to a node: point [p] gets id [i], the
    clusters being [before] and then [after]. Either [i] is the
    first cluster that passes the tolerance test, and it absorbs the
    point; or no cluster passes, and [i] is a new cluster made of the
    point alone. *)
Definition assigned (before : list Cluster) (p : Point) (i : nat) (after : list Cluster)
  : Prop :=
  (exists c,
      nth_error before i = Some c
      /\ within_tolerance c (px p) (py p) = true
      /\ (forall j c', j < i -> nth_error before j = Some c' ->
                       within_tolerance c' (px p) (py p) = false)
      /\ after = set_nth i (absorb c (px p) (py p)) before)
  \/ (i = List.length before
      /\ (forall c', In c' before -> within_tolerance c' (px p) (py p) = false)
      /\ after = before ++ [mkCluster (px p) (py p) 1%float]).

(** The ids of all terminals, in the order they were assigned. *)
Definition node_ids (nodes : list (nat * nat)) : list nat :=
  flat_map (fun ab => [fst ab; snd ab]) nodes.

(** Component [k] has a terminal on node [n]. *)
Definition touches (nodes : list (nat * nat)) (k n : nat) : Prop :=
  exists a b, nth_error nodes k = Some (a, b) /\ (a = n \/ b = n).

(** Two components share at least one node id. *)
Definition shares_node (nodes : list (nat * nat)) (j k : nat) : Prop :=
  exists n, touches nodes j n /\ touches nodes k n.

(** Reachability from [a] along a relation between vertices. *)
Inductive reach (E : nat -> nat -> Prop) (a : nat) : nat -> Prop :=
| reach_refl : reach E a a
| reach_step : forall b c, reach E a b -> E b c -> reach E a c.

(** [b] is in the adjacency set of [a]. *)
Definition edge (adjacency : list JsSet.t) (a b : nat) : Prop :=
  exists s, nth_error adjacency a = Some s /\ In b s.

(** The component at index [k] is dangling: one of its two nodes counts
    fewer than two terminals. *)
Definition dangling_at {C : Type} (t : TopologyOf C) (k : nat) : bool :=
  match nth_error (componentNodes t) k with
  | Some nodes => is_dangling (terminalCounts t) nodes
  | None => false
  end.

Definition indexed {A : Type} (xs : list A) : list (nat * A) :=
  combine (seq 0 (List.length xs)) xs.

(** The names of the dangling components, in the order of the list. *)
Definition dangling_names {Pin C : Type} (toUpperCase : jsstring -> jsstring)
    (components : list (ComponentOf Pin)) (t : TopologyOf C) : list jsstring :=
  List.map (fun kc => canonicalLabel toUpperCase (snd kc) (fst kc))
    (List.filter (fun kc => dangling_at t (fst kc)) (indexed components)).

(** What holds of [visited] and [queue] at the head of the traversal loop. *)
Record bfs_inv (adjacency : list JsSet.t) (visited : JsSet.t) (queue : list nat)
  : Prop := {
  inv_start : In 0 visited;
  inv_nodup : NoDup visited;
  inv_bound : forall v, In v visited -> v < List.length adjacency;
  inv_reach : forall v, In v visited -> reach (edge adjacency) 0 v;
  inv_queue : forall q, In q queue -> In q visited;
  inv_done : forall v w, In v visited -> ~ In v queue -> edge adjacency v w -> In w visited
}.

(** What holds of the maps of the topology after any number of components. *)
Record topology_inv {C : Type} (t : TopologyOf C) : Prop := {
  ti_counts : forall n,
      count_of (terminalCounts t) n
      = count_occ Nat.eq_dec (node_ids (componentNodes t)) n;
  ti_keys : NoDup (List.map fst (clusterComponents t));
  ti_members : forall n k,
      In k (members_of (clusterComponents t) n) <-> touches (componentNodes t) k n;
  ti_nodup : forall n, NoDup (members_of (clusterComponents t) n)
}.

(** Two component objects that differ at most in how they hold their pins. *)
Definition same_fields {P Q : Type} (c : ComponentOf P) (d : ComponentOf Q) : Prop :=
  id c = id d /\ type c = type d /\ label c = label d /\ value c = value d
  /\ current c = current d /\ voltage c = voltage d
  /\ currentUnknown c = currentUnknown d /\ voltageUnknown c = voltageUnknown d
  /\ sourceDirection c = sourceDirection d /\ sourcePolarity c = sourcePolarity d.

(** The store holds the clusters of [t] after the objects of [h0], the
    array [clusters] of [th] refers to them in order, and the maps and
    node pairs of [th] are those of [t]. *)
Definition simulates (h0 h : Store.heap) (th : TopologyOf Store.loc) (t : Topology)
  : Prop :=
  h = h0 ++ List.map Store.cluster_obj (clusters t)
  /\ clusters th = seq (List.length h0) (List.length (clusters t))
  /\ terminalCounts th = terminalCounts t
  /\ clusterComponents th = clusterComponents t
  /\ componentNodes th = componentNodes t.

(** Five resistors far from one another. *)
Definition five_apart : list ComponentInstance :=
  [ bare "resistor" (mkPoint 0 0) (mkPoint 100 0);
    bare "resistor" (mkPoint 0 100) (mkPoint 100 100);
    bare "resistor" (mkPoint 0 200) (mkPoint 100 200);
    bare "resistor" (mkPoint 0 300) (mkPoint 100 300);
    bare "resistor" (mkPoint 0 400) (mkPoint 100 400) ].

(** A resistor and a wire between the same two points. *)
Definition closed_pair : list ComponentInstance :=
  [ bare "resistor" origin (mkPoint 30 4); bare "wire" origin (mkPoint 30 4) ].

(** Two such pairs, far from each other. *)
Definition two_islands : list ComponentInstance :=
  closed_pair
  ++ [ bare "resistor" (mkPoint 100 0) (mkPoint 130 4);
       bare "wire" (mkPoint 100 0) (mkPoint 130 4) ].

(** A store where a resistor and a wire hold the same two pin objects. *)
Definition shared_pins : Store.heap :=
  [ Store.NumObj 0 0 None; Store.NumObj 30 4 None;
    Store.CompObj (with_value (bare "resistor" 0 1) "100");
    Store.CompObj (bare "wire" 0 1) ].

(** Two such pairs whose points differ but lie within the tolerance of
    each other. *)
Definition near_pairs : list ComponentInstance :=
  closed_pair
  ++ [ bare "resistor" (mkPoint 5 0) (mkPoint 35 4);
       bare "wire" (mkPoint 5 0) (mkPoint 35 4) ].

(** Every node pair names clusters, and every cluster has a terminal. *)
Definition clusters_in_use (t : Topology) : Prop :=
  (forall k a b, nth_error (componentNodes t) k = Some (a, b) ->
                 a < List.length (clusters t) /\ b < List.length (clusters t))
  /\ (forall n, n < List.length (clusters t) ->
                exists k, touches (componentNodes t) k n).

(** A node pair with both ids raised by [m]. *)
Definition shift_nodes (m : nat) (ab : nat * nat) : nat * nat :=
  (m + fst ab, m + snd ab).

(* ------------------------------------------------------------------ *)
(** ** The click on "Analizza" *)

(** How the click listener of [loadAnalysisControls] ends: with the error
    pop-up, or with the draft written to the local storage and the
    analysis page opened. *)
Inductive ClickOutcome :=
| ShowError (message : jsstring)
| SaveDraft (components : list ComponentInstance).

Section AnalyzeClick.

Variable toUpperCase : jsstring -> jsstring.

(** The listener, run on the components the canvas returns. *)
Definition analyzeClick (canvas : list ComponentInstance) : option ClickOutcome :=
  let components := normalizeComponentsForAnalysis canvas in
  integrity <- validateCircuitIntegrity toUpperCase components ;;
  match integrity with
  | Err e => Some (ShowError e)
  | Ok =>
      match validateComponentParams toUpperCase components with
      | Err e => Some (ShowError e)
      | Ok => Some (SaveDraft components)
      end
  end.

End AnalyzeClick.

(* ------------------------------------------------------------------ *)
(** ** Characters and decimal numerals *)

From Stdlib Require DecimalN DecimalPos DecimalNat.

Definition is_digit (c : N) : bool := N.leb 48 c && N.leb c 57.

Definition is_upper (c : N) : bool := N.leb 65 c && N.leb c 90.

Definition is_lower (c : N) : bool := N.leb 97 c && N.leb c 122.

(** The digits of a numeral as a decimal number of the library. *)
Fixpoint uint_of_digits (ds : jsstring) : Decimal.uint :=
  match ds with
  | [] => Decimal.Nil
  | c :: ds' =>
      let d := uint_of_digits ds' in
      if N.eqb c 48 then Decimal.D0 d else if N.eqb c 49 then Decimal.D1 d
      else if N.eqb c 50 then Decimal.D2 d else if N.eqb c 51 then Decimal.D3 d
      else if N.eqb c 52 then Decimal.D4 d else if N.eqb c 53 then Decimal.D5 d
      else if N.eqb c 54 then Decimal.D6 d else if N.eqb c 55 then Decimal.D7 d
      else if N.eqb c 56 then Decimal.D8 d else if N.eqb c 57 then Decimal.D9 d
      else Decimal.Nil
  end.

(** [Number(ds)] for a string of decimal digits. The value is a [number]
    without rounding when it is below 2^53. *)
Definition Number_of_digits (ds : jsstring) : N := N.of_uint (uint_of_digits ds).

(** Number-to-string conversion of a non-negative integer below 10^21. *)
Definition of_N (n : N) : jsstring := lit (NilEmpty.string_of_uint (N.to_uint n)).

(** The integers a [number] holds without rounding, and so does their
    successor. *)
Definition MAX_SAFE : N := 9007199254740992.

(* ------------------------------------------------------------------ *)
(** ** The component inspector *)

Module Inspector.

(** [raw.replace(from, to)] for patterns of one character: a string
    pattern replaces its first occurrence only. *)
Fixpoint replace_first (from to : N) (s : jsstring) : jsstring :=
  match s with
  | [] => []
  | c :: s' => if N.eqb c from then to :: s' else c :: replace_first from to s'
  end.

(** One turn of the loop of [sanitizeNumericInput], on [(out, dotUsed)].
    The loop runs over the code points of the string; a code point above
    the Basic Multilingual Plane is two code units, neither of which is a
    digit or a dot, so that running over the code units is the same. *)
Definition sanitize_step (st : jsstring * bool) (ch : N) : jsstring * bool :=
  let '(out, dotUsed) := st in
  if is_digit ch then (out ++ [ch], dotUsed)
  else if N.eqb ch 46 && negb dotUsed then (out ++ [ch], true)
  else (out, dotUsed).

Definition sanitizeNumericInput (raw : jsstring) : jsstring :=
  let normalized := replace_first 44 46 raw in
  fst (fold_left sanitize_step normalized ([], false)).

(** The object literals the listeners pass to [applyPatch]: a key that is
    not written is [None]. *)
Record Patch := mkPatch {
  p_label : option jsstring;
  p_value : option jsstring;
  p_current : option jsstring;
  p_voltage : option jsstring;
  p_currentUnknown : option bool;
  p_voltageUnknown : option bool
}.

Definition patch_or {A : Type} (p : option A) (old : option A) : option A :=
  match p with Some v => Some v | None => old end.

(** [{ ...comp, ...patch }] *)
Definition apply_patch {Pin : Type} (comp : ComponentOf Pin) (patch : Patch)
  : ComponentOf Pin :=
  mkComponent (id comp) (type comp) (pinA comp) (pinB comp)
    (patch_or (p_label patch) (label comp))
    (patch_or (p_value patch) (value comp))
    (patch_or (p_current patch) (current comp))
    (patch_or (p_voltage patch) (voltage comp))
    (patch_or (p_currentUnknown patch) (currentUnknown comp))
    (patch_or (p_voltageUnknown patch) (voltageUnknown comp))
    (sourceDirection comp) (sourcePolarity comp).

(** What the listeners read and write: the selected component, the text
    of the four inputs and the state of the two check boxes. *)
Record Form := mkForm {
  currentComponentId : option jsstring;
  currentComponentType : option jsstring;
  labelInput : jsstring;
  valueInput : jsstring;
  currentInput : jsstring;
  voltageInput : jsstring;
  currentUnknownInput : bool;
  voltageUnknownInput : bool
}.

(** [currentComponentType === "voltage_source" || currentComponentType === "current_source"] *)
Definition isSource (f : Form) : bool :=
  match currentComponentType f with
  | Some ty => eqb ty (lit "voltage_source") || eqb ty (lit "current_source")
  | None => false
  end.

(** [comp.field], or the empty string when the field is absent. *)
Definition text_or_empty (field : option jsstring) : jsstring :=
  match field with Some s => s | None => [] end.

(** [renderComponent(comp)] for a component that can be inspected: the
    form it leaves. *)
Definition renderComponent {Pin : Type} (comp : ComponentOf Pin) : Form :=
  let sourceType := eqb (type comp) (lit "voltage_source")
                    || eqb (type comp) (lit "current_source") in
  mkForm (Some (id comp)) (Some (type comp))
    (text_or_empty (label comp))
    (if sourceType then [] else text_or_empty (value comp))
    (text_or_empty (current comp))
    (text_or_empty (voltage comp))
    (fst (inspectorUnknowns comp)) (snd (inspectorUnknowns comp)).

(** The listeners: the form afterwards and the patch passed to
    [applyPatch], if any. *)

Definition onLabelInput (f : Form) : Form * option Patch :=
  (f, Some (mkPatch (Some (trim (labelInput f))) None None None None None)).

Definition onValueInput (f : Form) : Form * option Patch :=
  if isSource f
  then (mkForm (currentComponentId f) (currentComponentType f) (labelInput f)
          [] (currentInput f) (voltageInput f)
          (currentUnknownInput f) (voltageUnknownInput f), None)
  else
    let sanitized := sanitizeNumericInput (valueInput f) in
    (mkForm (currentComponentId f) (currentComponentType f) (labelInput f)
       sanitized (currentInput f) (voltageInput f)
       (currentUnknownInput f) (voltageUnknownInput f),
     Some (mkPatch None (Some sanitized) None None None None)).

Definition onCurrentInput (f : Form) : Form * option Patch :=
  let sanitized := sanitizeNumericInput (currentInput f) in
  (mkForm (currentComponentId f) (currentComponentType f) (labelInput f)
     (valueInput f) sanitized (voltageInput f)
     (currentUnknownInput f) (voltageUnknownInput f),
   Some (mkPatch None None (Some sanitized) None None None)).

Definition onVoltageInput (f : Form) : Form * option Patch :=
  let sanitized := sanitizeNumericInput (voltageInput f) in
  (mkForm (currentComponentId f) (currentComponentType f) (labelInput f)
     (valueInput f) (currentInput f) sanitized
     (currentUnknownInput f) (voltageUnknownInput f),
   Some (mkPatch None None None (Some sanitized) None None)).

(** The [change] listener of the check box "current unknown"; the form
    holds the state of the box after the click. *)
Definition onCurrentUnknownChange (f : Form) : Form * option Patch :=
  let unknown := currentUnknownInput f in
  if isSource f then
    let nextCurrentUnknown := unknown in
    let nextVoltageUnknown :=
      if nextCurrentUnknown then false
      else if negb (voltageUnknownInput f) then true
      else voltageUnknownInput f in
    let currentValue := if nextCurrentUnknown then [] else currentInput f in
    let voltageValue := if nextVoltageUnknown then [] else voltageInput f in
    (mkForm (currentComponentId f) (currentComponentType f) (labelInput f)
       (valueInput f) currentValue voltageValue
       nextCurrentUnknown nextVoltageUnknown,
     Some (mkPatch None None
             (Some (if nextCurrentUnknown then [] else sanitizeNumericInput currentValue))
             (Some (if nextVoltageUnknown then [] else sanitizeNumericInput voltageValue))
             (Some nextCurrentUnknown) (Some nextVoltageUnknown)))
  else if unknown && negb (is_empty (currentInput f)) then
    (mkForm (currentComponentId f) (currentComponentType f) (labelInput f)
       (valueInput f) [] (voltageInput f)
       (currentUnknownInput f) (voltageUnknownInput f),
     Some (mkPatch None None (Some []) None (Some true) None))
  else (f, Some (mkPatch None None None None (Some unknown) None)).

(** The [change] listener of the check box "voltage unknown". *)
Definition onVoltageUnknownChange (f : Form) : Form * option Patch :=
  let unknown := voltageUnknownInput f in
  if isSource f then
    let nextVoltageUnknown := unknown in
    let nextCurrentUnknown :=
      if nextVoltageUnknown then false
      else if negb (currentUnknownInput f) then true
      else currentUnknownInput f in
    let voltageValue := if nextVoltageUnknown then [] else voltageInput f in
    let currentValue := if nextCurrentUnknown then [] else currentInput f in
    (mkForm (currentComponentId f) (currentComponentType f) (labelInput f)
       (valueInput f) currentValue voltageValue
       nextCurrentUnknown nextVoltageUnknown,
     Some (mkPatch None None
             (Some (if nextCurrentUnknown then [] else sanitizeNumericInput currentValue))
             (Some (if nextVoltageUnknown then [] else sanitizeNumericInput voltageValue))
             (Some nextCurrentUnknown) (Some nextVoltageUnknown)))
  else if unknown && negb (is_empty (voltageInput f)) then
    (mkForm (currentComponentId f) (currentComponentType f) (labelInput f)
       (valueInput f) (currentInput f) []
       (currentUnknownInput f) (voltageUnknownInput f),
     Some (mkPatch None None None (Some []) None (Some true)))
  else (f, Some (mkPatch None None None None None (Some unknown))).

End Inspector.

(* ------------------------------------------------------------------ *)
(** ** The canvas controller *)

Module Canvas.

(** [ComponentInstance] of the circuit library: the fields the analysis
    controller declares, which are [core], and two more. *)
Record Component := mkCanvasComponent {
  core : ComponentInstance;
  rotation : option float;
  valueUnknown : option bool
}.

Definition getLabelPrefix (type : jsstring) : option jsstring :=
  if eqb type (lit "resistor") then Some (lit "R")
  else if eqb type (lit "capacitor") then Some (lit "C")
  else if eqb type (lit "inductor") then Some (lit "L")
  else if eqb type (lit "voltage_source") then Some (lit "V")
  else if eqb type (lit "current_source") then Some (lit "I")
  else None.

(** [label.match(/^([A-Z])(\d+)$/)]: the two groups of a match. *)
Definition match_label (label : jsstring) : option (jsstring * jsstring) :=
  match label with
  | c :: ds =>
      if is_upper c && negb (is_empty ds) && forallb is_digit ds
      then Some ([c], ds) else None
  | [] => None
  end.

(** [labelToTex] of the canvas: the text drawn next to a component. *)
Definition labelToTex (label : option jsstring) : jsstring :=
  match label with
  | None => []
  | Some l =>
      if is_empty l then []
      else
        match match_label l with
        | None => l
        | Some (letter, digits) => letter ++ lit "_{" ++ digits ++ lit "}"
        end
  end.

(** [comp.label] when it is truthy. *)
Definition truthy_label (comp : Component) : option jsstring :=
  match label (core comp) with
  | Some l => if is_empty l then None else Some l
  | None => None
  end.

(** [new Set(existing.map((comp) => comp.label).filter(Boolean))], as the
    list of its elements; only membership is asked of it. *)
Definition usedLabels (existing : list Component) : list jsstring :=
  filter_truthy (List.map (fun comp => label (core comp)) existing).

Definition has_label (used : list jsstring) (l : jsstring) : bool :=
  existsb (eqb l) used.

(** The callback of [existing.reduce(..., 0)]. *)
Definition maxIndex_step (prefix : jsstring) (max : N) (comp : Component) : N :=
  match truthy_label comp with
  | None => max
  | Some l =>
      match match_label l with
      | None => max
      | Some (letter, digits) =>
          if negb (eqb letter prefix) then max
          else N.max max (Number_of_digits digits)
      end
  end.

Definition maxIndex (prefix : jsstring) (existing : list Component) : N :=
  fold_left (maxIndex_step prefix) existing 0%N.

Definition or_default {A : Type} (field : option A) (d : A) : A :=
  match field with Some v => v | None => d end.

(** The object [buildLabeledComponent] returns when it gives a label. *)
Definition relabel (c : Component) (newLabel : jsstring) : Component :=
  let ty := type (core c) in
  let isVoltageSource := eqb ty (lit "voltage_source") in
  let isPassive := eqb ty (lit "resistor") || eqb ty (lit "capacitor")
                   || eqb ty (lit "inductor") in
  mkCanvasComponent
    (mkComponent (id (core c)) ty (pinA (core c)) (pinB (core c))
       (Some newLabel)
       (if isPassive then Some (or_default (value (core c)) []) else None)
       (Some (or_default (current (core c)) []))
       (Some (or_default (voltage (core c)) []))
       (Some (fst (sourceUnknowns (core c))))
       (Some (snd (sourceUnknowns (core c))))
       (Some (or_default (sourceDirection (core c)) a_to_b))
       (if isVoltageSource
        then Some (or_default (sourcePolarity (core c)) a_positive)
        else sourcePolarity (core c)))
    (rotation c)
    (if isPassive then Some (or_default (valueUnknown c) false) else None).

Definition buildLabeledComponent (c : Component) (existing : list Component)
  : Component :=
  match getLabelPrefix (type (core c)) with
  | None => c
  | Some prefix =>
      let keeps :=
        match truthy_label c with
        | Some l =>
            match match_label l with
            | Some (letter, _) =>
                eqb letter prefix && negb (has_label (usedLabels existing) l)
            | None => false
            end
        | None => false
        end in
      if keeps then c
      else relabel c (prefix ++ of_N (maxIndex prefix existing + 1))
  end.

(** The state of the component the controller works on. Each call of the
    controller is one event, whose updates are applied in the order they
    were queued. The methods read the state at the time of the call,
    through updater functions and [componentsRef]; [undo] alone reads
    [undoStack] and [components] as they were in the render that built the
    controller object it is called on. A new controller object is built
    after every render that changed the components or a stack. *)
Record State := mkState {
  components : list Component;
  undoStack : list (list Component);
  redoStack : list (list Component);
  selectedIds : list jsstring;
  wireMode : bool;
  cloneMode : bool;
  eraseMode : bool;
  draftWire : option (Point * Point)
}.

(** The state the component starts with, before a stored circuit is loaded. *)
Definition initial : State := mkState [] [] [] [] false false false None.

Definition pushUndo (s : State) : State :=
  mkState (components s) (undoStack s ++ [components s]) (redoStack s)
    (selectedIds s) (wireMode s) (cloneMode s) (eraseMode s) (draftWire s).

Definition setComponents (cs : list Component) (s : State) : State :=
  mkState cs (undoStack s) (redoStack s)
    (selectedIds s) (wireMode s) (cloneMode s) (eraseMode s) (draftWire s).

Definition setSelectedIds (ids : list jsstring) (s : State) : State :=
  mkState (components s) (undoStack s) (redoStack s)
    ids (wireMode s) (cloneMode s) (eraseMode s) (draftWire s).

Definition addComponent (c : Component) (s : State) : State :=
  let s1 := pushUndo s in
  setComponents (components s1 ++ [buildLabeledComponent c (components s1)]) s1.

Definition updateComponent (target : jsstring) (patch : Inspector.Patch) (s : State)
  : State :=
  setComponents
    (List.map (fun comp =>
                 if eqb (id (core comp)) target
                 then mkCanvasComponent (Inspector.apply_patch (core comp) patch)
                        (rotation comp) (valueUnknown comp)
                 else comp)
       (components s)) s.

Definition getComponentById (target : jsstring) (s : State) : option Component :=
  List.find (fun c => eqb (id (core c)) target) (components s).

Definition getAllComponents (s : State) : list Component := components s.

Definition selectAll (s : State) : State :=
  setSelectedIds (List.map (fun c => id (core c)) (components s)) s.

(** [currentSel.includes(id)] *)
Definition includes (sel : list jsstring) (x : jsstring) : bool := existsb (eqb x) sel.

Definition removeSelected (s : State) : State :=
  let currentSel := selectedIds s in
  if Nat.eqb (List.length currentSel) 0 then s
  else
    let s1 := pushUndo s in
    let s2 := setComponents
                (List.filter (fun c => negb (includes currentSel (id (core c))))
                   (components s1)) s1 in
    setSelectedIds [] s2.

Definition clearCircuit (s : State) : State :=
  if Nat.eqb (List.length (components s)) 0 then s
  else setSelectedIds [] (setComponents [] (pushUndo s)).

(** [undo] of the controller object built by the render whose state was
    [rendered], called when the state is [s]: the guard, the snapshot
    restored and the components put on the redo stack are those of
    [rendered]; the two stacks are updated from what they hold in [s]. *)
Definition undo (rendered s : State) : State :=
  if Nat.eqb (List.length (undoStack rendered)) 0 then s
  else
    match nth_error (undoStack rendered) (List.length (undoStack rendered) - 1) with
    | Some last =>
        mkState last
          (firstn (List.length (undoStack s) - 1) (undoStack s))
          (components rendered :: redoStack s)
          (selectedIds s) (wireMode s) (cloneMode s) (eraseMode s) (draftWire s)
    | None => s
    end.

Definition redo (s : State) : State :=
  match redoStack s with
  | [] => s
  | head :: rest =>
      mkState head (undoStack s ++ [components s]) rest
        (selectedIds s) (wireMode s) (cloneMode s) (eraseMode s) (draftWire s)
  end.

Definition setWireMode (active : bool) (s : State) : State :=
  if active
  then mkState (components s) (undoStack s) (redoStack s) [] true false false (draftWire s)
  else mkState (components s) (undoStack s) (redoStack s) (selectedIds s)
         false (cloneMode s) (eraseMode s) (draftWire s).

Definition setCloneMode (active : bool) (s : State) : State :=
  if active
  then mkState (components s) (undoStack s) (redoStack s) (selectedIds s)
         false true false None
  else mkState (components s) (undoStack s) (redoStack s) (selectedIds s)
         (wireMode s) false (eraseMode s) (draftWire s).

Definition setEraseMode (active : bool) (s : State) : State :=
  if active
  then mkState (components s) (undoStack s) (redoStack s) [] false false true None
  else mkState (components s) (undoStack s) (redoStack s) (selectedIds s)
         (wireMode s) (cloneMode s) false (draftWire s).

(** [applyPatch(patch)] of the inspector. *)
Definition applyPatch (f : Inspector.Form) (patch : Inspector.Patch) (s : State) : State :=
  match Inspector.currentComponentId f with
  | Some target => updateComponent target patch s
  | None => s
  end.

(** What [getCanvasComponents] of the analysis controller reads. *)
Definition getCanvasComponents (s : State) : list ComponentInstance :=
  List.map core (getAllComponents s).

End Canvas.

(* ------------------------------------------------------------------ *)
(** ** The toolbar *)

Module Toolbar.

(** A click on one of the toggle buttons, [toolType] being the class of
    the tool: the listener of all toggle buttons, then the listener of the
    button itself. *)
Definition toggleClick (toolType : jsstring) (s : Canvas.State) : Canvas.State :=
  let s1 := Canvas.setWireMode (eqb toolType (lit "wire")) s in
  let s2 := Canvas.setCloneMode (eqb toolType (lit "clone")) s1 in
  let s3 := Canvas.setEraseMode (eqb toolType (lit "erase")) s2 in
  if eqb toolType (lit "wire") then Canvas.setWireMode true s3
  else if eqb toolType (lit "clone") then Canvas.setCloneMode true s3
  else if eqb toolType (lit "erase") then Canvas.setEraseMode true s3
  else s3.

End Toolbar.

(* ------------------------------------------------------------------ *)
(** ** The keyboard shortcuts *)

Module Keyboard.

(** What the listener reads of a [keydown] event. *)
Record KeyEvent := mkKeyEvent {
  key : jsstring;
  code : jsstring;
  ctrlKey : bool;
  metaKey : bool;
  shiftKey : bool
}.

(** What the listener does with the event. *)
Inductive Shortcut :=
| Ignored
| ClearDraftWire
| PreventDefaultOnly
| CancelPreview
| RotateSelected
| RemoveSelected
| Undo
| Redo
| SelectAll.

Section Listener.

(** The host's [String.prototype.toLowerCase]. *)
Variable toLowerCase : jsstring -> jsstring.

(** The [keydown] listener of [setupKeyboardShortcuts]: [locked] is the
    keyboard lock of the inspector, [currentTool] the tool of the toolbar
    and [preview] whether a component is being previewed. *)
Definition onKeydown (locked : bool) (currentTool : option jsstring) (preview : bool)
    (e : KeyEvent) : Shortcut :=
  if locked then Ignored
  else if match currentTool with Some t => eqb t (lit "wire") | None => false end
          && eqb (key e) (lit "Escape")
  then ClearDraftWire
  else if preview then
    if eqb (code e) (lit "Space") then PreventDefaultOnly
    else if eqb (key e) (lit "Escape") then CancelPreview
    else Ignored
  else if eqb (code e) (lit "Space") then RotateSelected
  else if eqb (key e) (lit "Backspace") || eqb (key e) (lit "Delete") then RemoveSelected
  else if ctrlKey e || metaKey e then
    let k := toLowerCase (key e) in
    if eqb k (lit "z") then Undo
    else if eqb k (lit "y") || (shiftKey e && eqb k (lit "z")) then Redo
    else if eqb k (lit "a") then SelectAll
    else Ignored
  else Ignored.

End Listener.

End Keyboard.

(* ------------------------------------------------------------------ *)
(** ** The exports *)

Module SvgExport.

(** [text.replace(/c/g, by)] for a pattern of one character. *)
Definition replace_all (c : N) (by_ : jsstring) (text : jsstring) : jsstring :=
  flat_map (fun x => if N.eqb x c then by_ else [x]) text.

Definition esc (text : jsstring) : jsstring :=
  replace_all 34 (lit "&quot;")
    (replace_all 62 (lit "&gt;")
       (replace_all 60 (lit "&lt;")
          (replace_all 38 (lit "&amp;") text))).

End SvgExport.

Module LatexExport.

(** [label.match(/^([A-Za-z])([0-9]+)$/)]: the two groups of a match. *)
Definition match_label (label : jsstring) : option (jsstring * jsstring) :=
  match label with
  | c :: ds =>
      if (is_upper c || is_lower c) && negb (is_empty ds) && forallb is_digit ds
      then Some ([c], ds) else None
  | [] => None
  end.

(** [[^a-zA-Z0-9_]] does not match the code unit. *)
Definition is_word (c : N) : bool := is_alphanumeric c || N.eqb c 95.

Definition labelToTex (label : option jsstring) : jsstring :=
  match label with
  | None => []
  | Some l =>
      if is_empty l then []
      else
        match match_label l with
        | Some (letter, digits) => letter ++ lit "_{" ++ digits ++ lit "}"
        | None => lit "\mathrm{" ++ List.filter is_word l ++ lit "}"
        end
  end.

End LatexExport.

(* ------------------------------------------------------------------ *)
(** ** The analysis page *)

Module AnalysisPage.

(** A [Map<string, number>]: its entries in insertion order, one per key.
    The numbers are counts of array elements, which a [number] holds
    exactly. *)
Definition StrMap := list (jsstring * nat).

Fixpoint get (m : StrMap) (k : jsstring) : option nat :=
  match m with
  | [] => None
  | (k', v) :: m' => if eqb k k' then Some v else get m' k
  end.

Fixpoint set (m : StrMap) (k : jsstring) (v : nat) : StrMap :=
  match m with
  | [] => [(k, v)]
  | (k', v') :: m' => if eqb k k' then (k, v) :: m' else (k', v') :: set m' k v
  end.

(** The map [byType] of [renderCircuitSummary] after its loop. *)
Definition byType {Pin : Type} (components : list (ComponentOf Pin)) : StrMap :=
  fold_left
    (fun m c => set m (type c) (match get m (type c) with Some n => n | None => 0 end + 1))
    components [].

(** [runFromDraft] up to the request: the components it would send, or
    no request when the draft is empty. *)
Definition draftPayload {Pin : Type} (draft : list (ComponentOf Pin))
  : option (list (ComponentOf Pin)) :=
  let components := normalizeComponentsForAnalysis draft in
  if Nat.eqb (List.length components) 0 then None else Some components.

End AnalysisPage.

(* ------------------------------------------------------------------ *)
(** ** Further notions for the statements *)

(** Digits, with at most one dot among them. *)
Definition numeric_shape (s : jsstring) : Prop :=
  Forall (fun c => is_digit c = true \/ c = 46%N) s
  /\ count_occ N.eq_dec s 46%N <= 1.

(** The sum of the terminal counts of the nodes [0 .. n-1]. *)
Definition terminals_total (counts : JsMap.t nat) (n : nat) : nat :=
  list_sum (List.map (count_of counts) (seq 0 n)).

(** A call of the controller that changes the circuit and can be undone. *)
Inductive Edit :=
| Add (c : Canvas.Component)
| RemoveSelected
| Clear.

Definition run_edit (e : Edit) (s : Canvas.State) : Canvas.State :=
  match e with
  | Add c => Canvas.addComponent c s
  | RemoveSelected => Canvas.removeSelected s
  | Clear => Canvas.clearCircuit s
  end.

(** The edit takes a snapshot for [undo], which it does unless it has
    nothing to do. *)
Definition takes_snapshot (e : Edit) (s : Canvas.State) : bool :=
  match e with
  | Add _ => true
  | RemoveSelected => negb (Nat.eqb (List.length (Canvas.selectedIds s)) 0)
  | Clear => negb (Nat.eqb (List.length (Canvas.components s)) 0)
  end.

(** A call of one of the three mode setters. *)
Inductive ModeCall :=
| SetWire (active : bool)
| SetClone (active : bool)
| SetErase (active : bool).

Definition run_mode (c : ModeCall) (s : Canvas.State) : Canvas.State :=
  match c with
  | SetWire a => Canvas.setWireMode a s
  | SetClone a => Canvas.setCloneMode a s
  | SetErase a => Canvas.setEraseMode a s
  end.

(** At most one of the three modes is on. *)
Definition one_mode (s : Canvas.State) : Prop :=
  (Canvas.wireMode s && Canvas.cloneMode s = false)
  /\ (Canvas.wireMode s && Canvas.eraseMode s = false)
  /\ (Canvas.cloneMode s && Canvas.eraseMode s = false).

(** The numbers of the labels a list of components holds are in the range
    where [Number] and the increment are exact. *)
Definition safe_labels (existing : list Canvas.Component) : Prop :=
  forall comp l letter digits,
    In comp existing -> Canvas.truthy_label comp = Some l ->
    Canvas.match_label l = Some (letter, digits) ->
    (Number_of_digits digits < MAX_SAFE)%N.

(** The entries of the components that miss a parameter, in the order of
    the list: the name of the component and the reason in brackets. *)
Definition missing_names {Pin : Type} (toUpperCase : jsstring -> jsstring)
    (components : list (ComponentOf Pin)) : list jsstring :=
  flat_map
    (fun kc =>
       match getMissingParamReason (snd kc) with
       | Some reason =>
           [canonicalLabel toUpperCase (snd kc) (fst kc) ++ lit " (" ++ reason ++ lit ")"]
       | None => []
       end)
    (indexed components).

(** Two components with the same pins, type and label. *)
Definition same_outline (c d : ComponentInstance) : Prop :=
  pinA c = pinA d /\ pinB c = pinB d /\ type c = type d /\ label c = label d.

(** What the analysis page needs of a component: a passive component has
    a value, a source has the quantity it is named after and is marked
    with the other quantity as its unknown. *)
Definition ready_for_analysis {Pin : Type} (comp : ComponentOf Pin) : Prop :=
  (is_passive (type comp) = true -> has_text (value comp) = true)
  /\ (type comp = lit "voltage_source" ->
      has_text (voltage comp) = true /\ value comp = None
      /\ voltageUnknown comp = Some false /\ currentUnknown comp = Some true)
  /\ (type comp = lit "current_source" ->
      has_text (current comp) = true /\ value comp = None
      /\ currentUnknown comp = Some false /\ voltageUnknown comp = Some true).

(** The four kinds of message the click can show. *)
Definition known_message (e : jsstring) : Prop :=
  e = EMPTY_CIRCUIT
  \/ (exists names, names <> []
                    /\ e = DANGLING_PREFIX ++ capped_preview names ++ lit ").")
  \/ e = DISCONNECTED
  \/ (exists names, names <> []
                    /\ e = lit "Errore parametro mancante: " ++ capped_preview names ++ lit ".").

(** What the loop of [sanitizeNumericInput] keeps of a string, [dotUsed]
    telling whether a dot was kept before. *)
Fixpoint kept (dotUsed : bool) (s : jsstring) : jsstring :=
  match s with
  | [] => []
  | ch :: s' =>
      if is_digit ch then ch :: kept dotUsed s'
      else if N.eqb ch 46 && negb dotUsed then ch :: kept true s'
      else kept dotUsed s'
  end.

(** A digit, a dot or a comma. *)
Definition is_numeric_char (c : N) : bool := is_digit c || N.eqb c 46 || N.eqb c 44.

(** The two check boxes of the inspector and their [change] listeners. *)
Inductive Box := CurrentBox | VoltageBox.

Definition onChange (box : Box) : Inspector.Form -> Inspector.Form * option Inspector.Patch :=
  match box with
  | CurrentBox => Inspector.onCurrentUnknownChange
  | VoltageBox => Inspector.onVoltageUnknownChange
  end.

(** The state of a check box in a form. *)
Definition checked (box : Box) (f : Inspector.Form) : bool :=
  match box with
  | CurrentBox => Inspector.currentUnknownInput f
  | VoltageBox => Inspector.voltageUnknownInput f
  end.

(** Every component of a kind that gets a label has a truthy label that
    no component before it in the list has. *)
Definition fresh_labels (cs : list Canvas.Component) : Prop :=
  forall before c after,
    cs = before ++ c :: after ->
    Canvas.getLabelPrefix (type (Canvas.core c)) <> None ->
    exists l, Canvas.truthy_label c = Some l
              /\ Canvas.has_label (Canvas.usedLabels before) l = false.

(** The same of the circuit and of every circuit kept for undo or redo. *)
Definition labels_kept_fresh (s : Canvas.State) : Prop :=
  fresh_labels (Canvas.components s)
  /\ Forall fresh_labels (Canvas.undoStack s)
  /\ Forall fresh_labels (Canvas.redoStack s).

(** Edits, one after the other. *)
Fixpoint run_edits (es : list Edit) (s : Canvas.State) : Canvas.State :=
  match es with
  | [] => s
  | e :: es' => run_edits es' (run_edit e s)
  end.

(** Every edit of the list takes a snapshot when its turn comes. *)
Fixpoint all_snapshots (es : list Edit) (s : Canvas.State) : bool :=
  match es with
  | [] => true
  | e :: es' => takes_snapshot e s && all_snapshots es' (run_edit e s)
  end.

(** The calls of the controller that leave the fields of the components
    alone; [undo] comes with the state of the render that built the
    controller object it is called on. *)
Inductive Call :=
| CallEdit (e : Edit)
| CallUndo (rendered : Canvas.State)
| CallRedo
| CallSelectAll
| CallMode (m : ModeCall).

Definition run_call (c : Call) (s : Canvas.State) : Canvas.State :=
  match c with
  | CallEdit e => run_edit e s
  | CallUndo rendered => Canvas.undo rendered s
  | CallRedo => Canvas.redo s
  | CallSelectAll => Canvas.selectAll s
  | CallMode m => run_mode m s
  end.

(** Two components with the same pins. *)
Definition same_pins (c d : ComponentInstance) : Prop :=
  pinA c = pinA d /\ pinB c = pinB d.

(** What [esc] makes of one code unit. *)
Definition esc_char (c : N) : jsstring :=
  if N.eqb c 38 then lit "&amp;"
  else if N.eqb c 60 then lit "&lt;"
  else if N.eqb c 62 then lit "&gt;"
  else if N.eqb c 34 then lit "&quot;"
  else [c].

(** The code unit is none of the four that [esc] replaces. *)
Definition is_plain (c : N) : bool :=
  negb (N.eqb c 38 || N.eqb c 60 || N.eqb c 62 || N.eqb c 34).

(** The number of components of a type. *)
Definition count_type {Pin : Type} (ty : jsstring) (components : list (ComponentOf Pin))
  : nat :=
  List.length (List.filter (fun c => eqb (type c) ty) components).

(** [undo] called on the controller object of the latest render, as a
    caller does that fetches [window.canvasController] for the call. *)
Definition undo_latest (s : Canvas.State) : Canvas.State := Canvas.undo s s.

(** [undo] called on the controller object the start-up code hands to the
    keyboard shortcuts, built by a render with nothing to undo. *)
Definition undo_startup (s : Canvas.State) : Canvas.State := Canvas.undo Canvas.initial s.

(** A dyadic number, [mant * 2 ^ expo]: the numbers that binary64 values
    stand for, with their exact sums, differences and products. *)
Record Dyadic := mkDyadic { mant : Z; expo : Z }.

(** The mantissa of [d] at the exponent [e], which is at most [expo d]. *)
Definition dy_align (d : Dyadic) (e : Z) : Z := (mant d * 2 ^ (expo d - e))%Z.

Definition dy_add (a b : Dyadic) : Dyadic :=
  let e := Z.min (expo a) (expo b) in mkDyadic (dy_align a e + dy_align b e) e.

Definition dy_sub (a b : Dyadic) : Dyadic :=
  let e := Z.min (expo a) (expo b) in mkDyadic (dy_align a e - dy_align b e) e.

Definition dy_mul (a b : Dyadic) : Dyadic :=
  mkDyadic (mant a * mant b) (expo a + expo b).

Definition dy_leb (a b : Dyadic) : bool :=
  let e := Z.min (expo a) (expo b) in Z.leb (dy_align a e) (dy_align b e).

(** The number a binary64 value stands for; none for NaN and the
    infinities. *)
Definition exact (f : float) : option Dyadic :=
  match Prim2SF f with
  | S754_zero _ => Some (mkDyadic 0 0)
  | S754_finite s m e => Some (mkDyadic (if s then Z.neg m else Z.pos m) e)
  | _ => None
  end.

(** Follows the spec's words, "each point is within T of its cluster's
    centroid": the coordinates are numbers, and the squared distance of
    the numbers, without rounding, is at most T * T = 64. *)
Definition spec_within_T (c : Cluster) (p : Point) : bool :=
  match exact (px p), exact (py p), exact (cx c), exact (cy c) with
  | Some x, Some y, Some a, Some b =>
      let dx := dy_sub x a in
      let dy := dy_sub y b in
      dy_leb (dy_add (dy_mul dx dx) (dy_mul dy dy)) (mkDyadic 64 0)
  | _, _, _, _ => false
  end.

(** [p.x === q.x && p.y === q.y] *)
Definition same_point (p q : Point) : bool :=
  ((px p =? px q) && (py p =? py q))%float.

(** The terminal points of a list of components. *)
Definition points_of (components : list ComponentInstance) : list Point :=
  flat_map (fun c => [pinA c; pinB c]) components.

(** Follows the spec's words, "no shared coordinates between the two
    groups": no terminal point of the first group is a terminal point of
    the second. *)
Definition spec_no_shared_coordinates (first second : list ComponentInstance) : bool :=
  forallb (fun p => forallb (fun q => negb (same_point p q)) (points_of second))
    (points_of first).

(* ------------------------------------------------------------------ *)
(** * Properties *)

Unset Implicit Arguments.

(** ** Strings *)

Lemma eqb_eq (s t : jsstring) : eqb s t = true <-> s = t.
Proof.
  revert t; induction s as [|a s IH]; intros [|b t]; simpl; split;
    try congruence; try reflexivity.
  - rewrite andb_true_iff, N.eqb_eq, IH. intros [-> ->]; reflexivity.
  - intros [= -> ->]. rewrite N.eqb_refl. apply IH; reflexivity.
Qed.

Lemma eqb_refl (s : jsstring) : eqb s s = true.
Proof. apply eqb_eq; reflexivity. Qed.

Lemma is_empty_nil (s : jsstring) : is_empty s = true <-> s = [].
Proof. destruct s; simpl; split; congruence. Qed.

Lemma is_empty_app (s t : jsstring) : is_empty (s ++ t) = is_empty s && is_empty t.
Proof. destruct s; reflexivity. Qed.

Lemma is_empty_rev (s : jsstring) : is_empty (rev s) = is_empty s.
Proof.
  destruct s as [|c s]; [reflexivity|]. simpl.
  rewrite is_empty_app. simpl. apply andb_false_r.
Qed.

Lemma blank_app (s t : jsstring) : blank (s ++ t) = blank s && blank t.
Proof. apply forallb_app. Qed.

Lemma blank_rev (s : jsstring) : blank (rev s) = blank s.
Proof.
  induction s as [|c s IH]; [reflexivity|]. simpl.
  rewrite blank_app, IH. simpl. rewrite andb_true_r. apply andb_comm.
Qed.

Lemma trimStart_empty (s : jsstring) : is_empty (trimStart s) = blank s.
Proof.
  induction s as [|c s IH]; [reflexivity|]. simpl.
  destruct (is_white_space c); [exact IH | reflexivity].
Qed.

Lemma blank_trimStart (s : jsstring) : blank (trimStart s) = blank s.
Proof.
  induction s as [|c s IH]; [reflexivity|]. simpl.
  destruct (is_white_space c) eqn:E; [exact IH|]. simpl. rewrite E. reflexivity.
Qed.

(** [s.trim() === ""] exactly when [s] is blank. *)
Lemma trim_empty (s : jsstring) : is_empty (trim s) = blank s.
Proof.
  unfold trim, trimEnd.
  rewrite is_empty_rev, trimStart_empty, blank_rev. apply blank_trimStart.
Qed.

Lemma has_text_spec (field : option jsstring) :
  has_text field = true <-> exists s, field = Some s /\ blank s = false.
Proof.
  destruct field as [s|]; simpl.
  - rewrite trim_empty, negb_true_iff. split.
    + intros H; exists s; auto.
    + intros (s' & [= <-] & H); exact H.
  - split; [discriminate | intros (s & H & _); discriminate].
Qed.

(** Both ways the source tests a field for text agree. *)
Lemma has_text_truthy_eq (field : option jsstring) :
  has_text_truthy field = has_text field.
Proof.
  destruct field as [[|c s]|]; reflexivity.
Qed.

(** ** The missing-parameter reason, kind by kind *)

Section ReasonFacts.

Variable Pin : Type.
Implicit Type comp : ComponentOf Pin.

Lemma reason_wire comp :
  type comp = lit "wire" -> getMissingParamReason comp = None.
Proof. intros H. unfold getMissingParamReason. rewrite H. reflexivity. Qed.

Lemma passive_not_wire ty : is_passive ty = true -> eqb ty (lit "wire") = false.
Proof.
  unfold is_passive. rewrite !orb_true_iff, !eqb_eq.
  intros [[-> | ->] | ->]; reflexivity.
Qed.

Lemma reason_passive comp :
  is_passive (type comp) = true ->
  getMissingParamReason comp
  = if has_text (value comp) then None else Some (lit "valore").
Proof.
  intros H. unfold getMissingParamReason.
  rewrite (passive_not_wire _ H). unfold is_passive in H. rewrite H. reflexivity.
Qed.

Lemma reason_voltage_source comp :
  type comp = lit "voltage_source" ->
  getMissingParamReason comp
  = if flagged (voltageUnknown comp) || negb (has_text (voltage comp))
    then Some (lit "tensione") else None.
Proof. intros H. unfold getMissingParamReason. rewrite H. reflexivity. Qed.

Lemma reason_current_source comp :
  type comp = lit "current_source" ->
  getMissingParamReason comp
  = if flagged (currentUnknown comp) || negb (has_text (current comp))
    then Some (lit "corrente") else None.
Proof. intros H. unfold getMissingParamReason. rewrite H. reflexivity. Qed.

Lemma normalize_voltage_source comp :
  type comp = lit "voltage_source" ->
  type (normalizeComponent comp) = lit "voltage_source"
  /\ voltage (normalizeComponent comp) = voltage comp
  /\ voltageUnknown (normalizeComponent comp) = Some (negb (has_text (voltage comp)))
  /\ currentUnknown (normalizeComponent comp) = Some (has_text (voltage comp)).
Proof.
  intros H. unfold normalizeComponent. rewrite H. simpl.
  rewrite has_text_truthy_eq. auto.
Qed.

Lemma normalize_current_source comp :
  type comp = lit "current_source" ->
  type (normalizeComponent comp) = lit "current_source"
  /\ current (normalizeComponent comp) = current comp
  /\ currentUnknown (normalizeComponent comp) = Some (negb (has_text (current comp)))
  /\ voltageUnknown (normalizeComponent comp) = Some (has_text (current comp)).
Proof.
  intros H. unfold normalizeComponent. rewrite H. simpl.
  rewrite has_text_truthy_eq. auto.
Qed.

End ReasonFacts.

(** ** The parameter validator over a list *)

Section ParamFacts.

Variable Pin : Type.
Variable toUpperCase : jsstring -> jsstring.
Implicit Type comp : ComponentOf Pin.

Lemma reason_nonempty comp r :
  getMissingParamReason comp = Some r -> is_empty r = false.
Proof.
  unfold getMissingParamReason.
  repeat match goal with
         | |- context [if ?b then _ else _] => destruct b
         end; intros [= <-]; reflexivity.
Qed.

Lemma missing_entry_none comp index :
  missing_entry toUpperCase comp index = None <-> getMissingParamReason comp = None.
Proof.
  unfold missing_entry.
  destruct (getMissingParamReason comp) as [r|] eqn:E; [|tauto].
  rewrite (reason_nonempty _ _ E). split; discriminate.
Qed.

Lemma missing_entry_some comp index r :
  getMissingParamReason comp = Some r ->
  missing_entry toUpperCase comp index
  = Some (canonicalLabel toUpperCase comp index ++ lit " (" ++ r ++ lit ")").
Proof.
  intros E. unfold missing_entry. rewrite E, (reason_nonempty _ _ E). reflexivity.
Qed.

Lemma entry_nonempty (name r : jsstring) :
  is_empty (name ++ lit " (" ++ r ++ lit ")") = false.
Proof. rewrite is_empty_app. simpl. apply andb_false_r. Qed.

Lemma missing_from_nil (components : list (ComponentOf Pin)) i :
  filter_truthy (mapi_from (missing_entry toUpperCase) i components) = []
  <-> Forall (fun comp => getMissingParamReason comp = None) components.
Proof.
  revert i; induction components as [|comp rest IH]; intros i; simpl.
  - split; auto.
  - destruct (getMissingParamReason comp) as [r|] eqn:E.
    + rewrite (missing_entry_some _ i _ E), entry_nonempty. split; [discriminate|].
      intros H; inversion H; congruence.
    + rewrite (proj2 (missing_entry_none comp i) E), IH. split.
      * intros H; constructor; assumption.
      * intros H; inversion H; assumption.
Qed.

(** The validator accepts exactly the lists with no missing reason. *)
Lemma params_ok_iff (components : list (ComponentOf Pin)) :
  validateComponentParams toUpperCase components = Ok
  <-> Forall (fun comp => getMissingParamReason comp = None) components.
Proof.
  unfold validateComponentParams, mapi. rewrite <- (missing_from_nil components 0).
  destruct (filter_truthy _) as [|e es]; simpl; split; congruence.
Qed.

Lemma params_single comp :
  validateComponentParams toUpperCase [comp]
  = match getMissingParamReason comp with
    | None => Ok
    | Some r =>
        Err (lit "Errore parametro mancante: "
             ++ (canonicalLabel toUpperCase comp 0 ++ lit " (" ++ r ++ lit ")")
             ++ lit ".")
    end.
Proof.
  unfold validateComponentParams, mapi. simpl.
  destruct (getMissingParamReason comp) as [r|] eqn:E.
  - rewrite (missing_entry_some _ 0 _ E), entry_nonempty. simpl.
    unfold capped_preview. simpl. rewrite app_nil_r. reflexivity.
  - rewrite (proj2 (missing_entry_none comp 0) E). reflexivity.
Qed.

End ParamFacts.

(** ** C7: passive components and wires *)

(** C7, as the code has it. For a resistor, capacitor or inductor the
    parameter check finds nothing missing exactly when the value field is
    a string that is not blank (not made of white space only); no parse is
    attempted. When the value is missing the reason is "valore", and a
    list holding that one component is rejected with the missing-parameter
    error that names the component and cites "(valore)". A wire never
    misses a parameter. *)
Theorem passive_value_required :
  forall (Pin : Type) (toUpperCase : jsstring -> jsstring) (comp : ComponentOf Pin),
    (is_passive (type comp) = true ->
       (getMissingParamReason comp = None
        <-> exists v, value comp = Some v /\ blank v = false)
       /\ (getMissingParamReason comp = None ->
           validateComponentParams toUpperCase [comp] = Ok)
       /\ (getMissingParamReason comp <> None ->
           getMissingParamReason comp = Some (lit "valore")
           /\ validateComponentParams toUpperCase [comp]
              = Err (lit "Errore parametro mancante: "
                     ++ canonicalLabel toUpperCase comp 0 ++ lit " (valore)."))) 
    /\ (type comp = lit "wire" -> getMissingParamReason comp = None).
Proof.
  intros Pin up comp. split; [intros Hp | apply reason_wire].
  pose proof (reason_passive _ comp Hp) as Hr.
  rewrite params_single, Hr.
  destruct (has_text (value comp)) eqn:Hv.
  - split; [|split].
    + split; [intros _; apply has_text_spec; exact Hv | reflexivity].
    + reflexivity.
    + intros H; congruence.
  - split; [|split].
    + split; [discriminate|]. intros Hex. apply has_text_spec in Hex. congruence.
    + discriminate.
    + intros _. split; [reflexivity|]. rewrite <- !app_assoc. reflexivity.
Qed.

(** A resistor without a value is rejected, one with the value "100" or
    with the value "?" passes, and a wire passes. *)
Lemma passive_value_required_witness :
  validateComponentParams ascii_upper [bare "resistor" origin origin]
    = Err (lit "Errore parametro mancante: RESISTOR_1 (valore).")
  /\ validateComponentParams ascii_upper [with_value (bare "resistor" origin origin) "100"]
    = Ok
  /\ getMissingParamReason (bare "wire" origin origin) = None.
Proof.
  pose proof (passive_value_required _ ascii_upper (bare "resistor" origin origin)) as [H1 _].
  pose proof (passive_value_required _ ascii_upper
                (with_value (bare "resistor" origin origin) "100")) as [H2 _].
  pose proof (passive_value_required _ ascii_upper (bare "wire" origin origin)) as [_ H3].
  specialize (H1 eq_refl). specialize (H2 eq_refl). specialize (H3 eq_refl).
  destruct H1 as (_ & _ & H1). destruct H2 as (_ & H2 & _).
  split; [|split].
  - apply H1. discriminate.
  - apply H2. reflexivity.
  - exact H3.
Defined.

(** C7 as stated fails: a resistor whose value is "?" passes the check,
    and "?" is not a parsable scalar under any reading. *)
Lemma value_is_not_parsed :
  let r := with_value (bare "resistor" origin origin) "?" in
  is_passive (type r) = true
  /\ getMissingParamReason r = None
  /\ validateComponentParams ascii_upper [r] = Ok
  /\ spec_nonempty_parsable (value r) = false
  /\ ~ (getMissingParamReason r = None <-> spec_nonempty_parsable (value r) = true).
Proof.
  repeat split; try reflexivity.
  intros [H _]. specialize (H eq_refl). discriminate H.
Qed.

(** ** C1: sources in the parameter check *)

(** C1, as the code has it. For a voltage source the parameter check finds
    nothing missing exactly when the voltage field is a string that is not
    blank and the component is not flagged voltage-unknown. On the
    submission path, where the flags are first normalised from the fields,
    that is exactly when the voltage field is not blank: a voltage source
    with a blank or absent voltage is normalised to voltage-unknown and
    current-known and is then reported with the reason "tensione". The same
    holds for a current source with the current field, the current-unknown
    flag and the reason "corrente". *)
Theorem source_value_required :
  forall (Pin : Type) (comp : ComponentOf Pin),
    (type comp = lit "voltage_source" ->
       (getMissingParamReason comp = None
        <-> (exists v, voltage comp = Some v /\ blank v = false)
            /\ voltageUnknown comp <> Some true)
       /\ (getMissingParamReason (normalizeComponent comp) = None
           <-> exists v, voltage comp = Some v /\ blank v = false)
       /\ (has_text (voltage comp) = false ->
           voltageUnknown (normalizeComponent comp) = Some true
           /\ currentUnknown (normalizeComponent comp) = Some false
           /\ getMissingParamReason (normalizeComponent comp) = Some (lit "tensione")))
    /\ (type comp = lit "current_source" ->
       (getMissingParamReason comp = None
        <-> (exists v, current comp = Some v /\ blank v = false)
            /\ currentUnknown comp <> Some true)
       /\ (getMissingParamReason (normalizeComponent comp) = None
           <-> exists v, current comp = Some v /\ blank v = false)
       /\ (has_text (current comp) = false ->
           currentUnknown (normalizeComponent comp) = Some true
           /\ voltageUnknown (normalizeComponent comp) = Some false
           /\ getMissingParamReason (normalizeComponent comp) = Some (lit "corrente"))).
Proof.
  intros Pin comp. split; intros Hty.
  - destruct (normalize_voltage_source _ comp Hty) as (Nty & Nv & Nvu & Ncu).
    rewrite (reason_voltage_source _ _ Nty), Nv, Nvu, Ncu.
    rewrite (reason_voltage_source _ _ Hty), <- has_text_spec.
    destruct (has_text (voltage comp)) eqn:Hv; simpl.
    + split; [|split].
      * destruct (voltageUnknown comp) as [[|]|]; simpl; split;
          try discriminate; try (intros [_ H]; congruence);
          intros _; split; congruence.
      * tauto.
      * discriminate.
    + rewrite orb_true_r. split; [|split].
      * split; [discriminate | intros [H _]; discriminate].
      * split; discriminate.
      * auto.
  - destruct (normalize_current_source _ comp Hty) as (Nty & Nc & Ncu & Nvu).
    rewrite (reason_current_source _ _ Nty), Nc, Ncu, Nvu.
    rewrite (reason_current_source _ _ Hty), <- has_text_spec.
    destruct (has_text (current comp)) eqn:Hc; simpl.
    + split; [|split].
      * destruct (currentUnknown comp) as [[|]|]; simpl; split;
          try discriminate; try (intros [_ H]; congruence);
          intros _; split; congruence.
      * tauto.
      * discriminate.
    + rewrite orb_true_r. split; [|split].
      * split; [discriminate | intros [H _]; discriminate].
      * split; discriminate.
      * auto.
Qed.

(** A voltage source created without voltage and without flags: after the
    normalisation it is voltage-unknown, current-known, and reported. *)
Lemma source_value_required_witness :
  let vs := normalizeComponent (bare "voltage_source" origin origin) in
  voltageUnknown vs = Some true
  /\ currentUnknown vs = Some false
  /\ getMissingParamReason vs = Some (lit "tensione").
Proof.
  destruct (source_value_required _ (bare "voltage_source" origin origin)) as [H _].
  destruct (H eq_refl) as (_ & _ & H3).
  apply H3. reflexivity.
Defined.

(** C1 as stated fails: the voltage source above is treated as
    voltage-unknown, and does not pass the check; neither does one that
    carries a voltage and is flagged voltage-unknown. *)
Lemma unknown_voltage_is_reported :
  let vs := normalizeComponent (bare "voltage_source" origin origin) in
  let flagged_vs :=
    mkComponent (lit "c") (lit "voltage_source") origin origin None None None
      (Some (lit "5")) None (Some true) None None in
  (voltageUnknown vs = Some true
   /\ validateComponentParams ascii_upper [vs]
      = Err (lit "Errore parametro mancante: VOLTAGE_SOURCE_1 (tensione)."))
  /\ ~ (getMissingParamReason vs = None
        <-> (has_text (voltage vs) = true \/ voltageUnknown vs = Some true))
  /\ ~ (getMissingParamReason flagged_vs = None
        <-> (has_text (voltage flagged_vs) = true \/ voltageUnknown flagged_vs = Some true)).
Proof.
  split; [split; reflexivity|].
  split; intros [_ H]; discriminate H; right; reflexivity.
Qed.

(** ** C5: the three places that normalise the unknown flags *)

(** C5, as the code has it. After each of the three normalisations exactly
    one of the two unknown flags of a source is true. The submission path
    derives both flags from the field alone, whatever the flags were: a
    voltage source is voltage-unknown exactly when its voltage is blank,
    a current source is current-unknown exactly when its current is blank.
    The inspector and the canvas controller never look at the fields:
    they read an absent flag as true, keep two flags that differ, and turn
    two flags that agree into current-unknown and voltage-known for a
    voltage source, voltage-unknown and current-known for a current
    source. *)
Theorem unknown_flags_exclusive :
  forall (Pin : Type) (comp : ComponentOf Pin),
    is_source (type comp) = true ->
    let cu := flag_or_true (currentUnknown comp) in
    let vu := flag_or_true (voltageUnknown comp) in
    (exists b, currentUnknown (normalizeComponent comp) = Some b
               /\ voltageUnknown (normalizeComponent comp) = Some (negb b))
    /\ (type comp = lit "voltage_source" ->
        voltageUnknown (normalizeComponent comp) = Some (negb (has_text (voltage comp))))
    /\ (type comp = lit "current_source" ->
        currentUnknown (normalizeComponent comp) = Some (negb (has_text (current comp))))
    /\ sourceUnknowns comp = inspectorUnknowns comp
    /\ snd (inspectorUnknowns comp) = negb (fst (inspectorUnknowns comp))
    /\ (cu = vu ->
        inspectorUnknowns comp
        = if eqb (type comp) (lit "voltage_source") then (true, false) else (false, true))
    /\ (cu <> vu -> inspectorUnknowns comp = (cu, vu)).
Proof.
  intros Pin comp Hs cu vu. unfold is_source in Hs.
  apply orb_true_iff in Hs. rewrite !eqb_eq in Hs.
  destruct Hs as [Hty | Hty].
  - destruct (normalize_voltage_source _ comp Hty) as (_ & _ & Nvu & Ncu).
    split; [exists (has_text (voltage comp)); auto|].
    split; [auto|].
    split; [rewrite Hty; discriminate|].
    unfold sourceUnknowns, inspectorUnknowns. fold cu vu. rewrite Hty. simpl.
    destruct cu, vu; simpl; repeat split; congruence.
  - destruct (normalize_current_source _ comp Hty) as (_ & _ & Ncu & Nvu).
    split; [exists (negb (has_text (current comp))); rewrite negb_involutive; auto|].
    split; [rewrite Hty; discriminate|].
    split; [auto|].
    unfold sourceUnknowns, inspectorUnknowns. fold cu vu. rewrite Hty. simpl.
    destruct cu, vu; simpl; repeat split; congruence.
Qed.

(** A current source whose flags were never set: the three normalisations
    applied to it. *)
Lemma unknown_flags_exclusive_witness :
  let cs := bare "current_source" origin origin in
  currentUnknown (normalizeComponent cs) = Some true
  /\ sourceUnknowns cs = inspectorUnknowns cs
  /\ inspectorUnknowns cs = (false, true).
Proof.
  destruct (unknown_flags_exclusive _ (bare "current_source" origin origin) eq_refl)
    as (_ & _ & H3 & H4 & _ & H6 & _).
  split; [apply H3; reflexivity|].
  split; [exact H4|].
  apply H6. reflexivity.
Defined.

(** C5 as stated fails: for a voltage source whose flags were never set
    and whose fields are empty, the inspector and the canvas controller
    give current-unknown and voltage-known (the submission path gives the
    opposite), and they give the same flags whether or not the voltage
    field is filled in. *)
Lemma inspector_orientation_differs :
  let vs := bare "voltage_source" origin origin in
  inspectorUnknowns vs = (true, false)
  /\ sourceUnknowns vs = (true, false)
  /\ (currentUnknown (normalizeComponent vs), voltageUnknown (normalizeComponent vs))
     = (Some false, Some true)
  /\ inspectorUnknowns (with_voltage vs "5") = inspectorUnknowns vs
  /\ inspectorUnknowns (bare "current_source" origin origin) = (false, true).
Proof. repeat split. Qed.

(** ** C6: the empty list *)

Lemma empty_circuit_message_differs (names : jsstring) :
  DANGLING_PREFIX ++ names <> EMPTY_CIRCUIT /\ DISCONNECTED <> EMPTY_CIRCUIT.
Proof. split; discriminate. Qed.

Lemma integrity_verdict_not_empty (Pin C : Type) (up : jsstring -> jsstring)
    (components : list (ComponentOf Pin)) (t : TopologyOf C) :
  integrity_verdict up components t <> Some (Err EMPTY_CIRCUIT).
Proof.
  unfold integrity_verdict.
  destruct (danglingComponents up components t) as [dangling|]; cbn [bind];
    [|discriminate].
  destruct (Nat.ltb 0 (List.length dangling)).
  - intros H. apply (f_equal error_of) in H. revert H.
    apply empty_circuit_message_differs.
  - destruct (build_adjacency _ _) as [adjacency|]; cbn [bind]; [|discriminate].
    destruct (bfs _ _ _ _) as [visited|]; cbn [bind]; [|discriminate].
    destruct (negb _); [|discriminate].
    intros H. apply (f_equal error_of) in H. revert H.
    apply (empty_circuit_message_differs []).
Qed.

(** C6. On the empty list the integrity validator returns the
    empty-circuit error, and it is the guard on the length that returns
    it: the store is handed back as it was, no cluster object created and
    no node pair recorded. No other list gets this error. *)
Theorem empty_circuit_rejected_first :
  forall (toUpperCase : jsstring -> jsstring),
    validateCircuitIntegrity toUpperCase [] = Some (Err EMPTY_CIRCUIT)
    /\ (forall h, Store.validateCircuitIntegrity toUpperCase h []
                  = Some (Err EMPTY_CIRCUIT, [], h))
    /\ (forall components,
           validateCircuitIntegrity toUpperCase components = Some (Err EMPTY_CIRCUIT)
           <-> components = []).
Proof.
  intros up. split; [reflexivity|]. split; [reflexivity|].
  intros components. split; [|intros ->; reflexivity].
  destruct components as [|comp rest]; [reflexivity|].
  unfold validateCircuitIntegrity.
  change (Nat.eqb (List.length (comp :: rest)) 0) with false. cbv iota.
  intros H. exfalso. revert H. apply integrity_verdict_not_empty.
Qed.

(** ** C8: one component whose terminals fall into one cluster *)

Section SelfLoop.

Variable toUpperCase : jsstring -> jsstring.

(** Whatever the component, when its terminal B passes the tolerance test
    against the cluster that terminal A has just created, both terminals
    get node 0, the node counts two terminals, and the list is accepted. *)
Lemma self_loop_accepted (comp : ComponentInstance) :
  within_tolerance (mkCluster (px (pinA comp)) (py (pinA comp)) 1)
                   (px (pinB comp)) (py (pinB comp)) = true ->
  componentNodes (build_topology [comp]) = [(0, 0)]
  /\ terminalCounts (build_topology [comp]) = [(0, 2)]
  /\ clusterComponents (build_topology [comp]) = [(0, [0])]
  /\ danglingComponents toUpperCase [comp] (build_topology [comp]) = Some []
  /\ build_adjacency 1 (clusterComponents (build_topology [comp])) = Some [[]]
  /\ validateCircuitIntegrity toUpperCase [comp] = Some Ok.
Proof.
  intros W. unfold within_tolerance in W. apply negb_true_iff in W.
  assert (T : build_topology [comp]
              = mkTopology
                  [absorb (mkCluster (px (pinA comp)) (py (pinA comp)) 1)
                     (px (pinB comp)) (py (pinB comp))]
                  [(0, 2)] [(0, [0])] [(0, 0)]).
  { unfold build_topology, visit_from, visit_component, assignCluster. simpl.
    rewrite W. reflexivity. }
  unfold validateCircuitIntegrity. rewrite T. repeat split.
Qed.

End SelfLoop.

(** C8. A resistor from (0, 0) to (3, 4), alone on the canvas: its second
    terminal is at squared distance 25 from the first, both terminals are
    assigned node 0, whose count of terminals is 2, the component is not
    dangling, its adjacency set is empty, and integrity validation
    accepts the list. The same holds for every component whose terminal B
    passes the tolerance test against terminal A. *)
Theorem lone_component_accepted :
  forall (toUpperCase : jsstring -> jsstring),
    (let comp := bare "resistor" origin (mkPoint 3 4) in
     dist2 (mkCluster 0 0 1) 3 4 = 25%float
     /\ within_tolerance (mkCluster 0 0 1) 3 4 = true
     /\ componentNodes (build_topology [comp]) = [(0, 0)]
     /\ count_of (terminalCounts (build_topology [comp])) 0 = 2
     /\ members_of (clusterComponents (build_topology [comp])) 0 = [0]
     /\ danglingComponents toUpperCase [comp] (build_topology [comp]) = Some []
     /\ build_adjacency 1 (clusterComponents (build_topology [comp])) = Some [[]]
     /\ validateCircuitIntegrity toUpperCase [comp] = Some Ok)
    /\ (forall comp : ComponentInstance,
           within_tolerance (mkCluster (px (pinA comp)) (py (pinA comp)) 1)
                            (px (pinB comp)) (py (pinB comp)) = true ->
           componentNodes (build_topology [comp]) = [(0, 0)]
           /\ count_of (terminalCounts (build_topology [comp])) 0 = 2
           /\ validateCircuitIntegrity toUpperCase [comp] = Some Ok).
Proof.
  intros up. split.
  - repeat split.
  - intros comp W.
    destruct (self_loop_accepted up comp W) as (H1 & H2 & _ & _ & _ & H6).
    rewrite H2. auto.
Qed.

(** ** The comparison of binary64 numbers *)

Lemma SFcompare_antisym (a b : spec_float) :
  SFcompare b a = option_map CompOpp (SFcompare a b).
Proof.
  destruct a as [sa|sa| |sa ma ea], b as [sb|sb| |sb mb eb]; simpl;
    try reflexivity;
    try (destruct sa; reflexivity); try (destruct sb; reflexivity);
    try (destruct sa, sb; reflexivity).
  destruct sa, sb; try reflexivity;
    rewrite (Z.compare_antisym ea eb);
    destruct (Z.compare ea eb) eqn:E; simpl; try reflexivity;
    rewrite (Pos.compare_cont_antisym ma mb Eq); simpl; reflexivity.
Qed.

(** For two numbers neither of which is NaN, "not greater" is "less or
    equal". *)
Lemma not_ltb_is_leb (t d : float) :
  is_nan t = false -> is_nan d = false ->
  negb (t <? d)%float = (d <=? t)%float.
Proof.
  unfold is_nan. rewrite !negb_false_iff, ltb_spec, leb_spec, !eqb_spec.
  unfold SFeqb, SFltb, SFleb. rewrite (SFcompare_antisym (Prim2SF t) (Prim2SF d)).
  destruct (Prim2SF t) as [st|st| |st mt et], (Prim2SF d) as [sd|sd| |sd md ed];
    simpl; try discriminate; intros _ _;
    try reflexivity; try (destruct st; reflexivity); try (destruct sd; reflexivity);
    try (destruct st, sd; reflexivity).
  destruct st, sd; try reflexivity;
    destruct (Z.compare et ed); simpl; try reflexivity;
    destruct (Pos.compare_cont Eq mt md); reflexivity.
Qed.

(** Where the squared distance is a number, the tolerance test is the
    comparison "squared distance at most 64". *)
Lemma within_tolerance_leb (c : Cluster) (x y : float) :
  is_nan (dist2 c x y) = false ->
  within_tolerance c x y = (dist2 c x y <=? 64)%float.
Proof.
  intros H. unfold within_tolerance, beyond_tolerance.
  change tolerance2 with 64%float. apply not_ltb_is_leb; [reflexivity | exact H].
Qed.

(** The difference of a number and itself is a zero, or NaN when the
    number is infinite or NaN; so is its square, and so is a sum of two
    of these. *)
Lemma SF64sub_diag (a : spec_float) :
  match SF64sub a a with S754_zero _ | S754_nan => True | _ => False end.
Proof.
  destruct a as [s|s| |s m e]; simpl; try exact I.
  - destruct s; exact I.
  - destruct s; exact I.
  - rewrite Z.sub_diag. exact I.
Qed.

(** A point passes the tolerance test against a centroid that is the
    point itself. *)
Lemma within_tolerance_self (x y n : float) :
  within_tolerance (mkCluster x y n) x y = true.
Proof.
  unfold within_tolerance, beyond_tolerance, dist2. simpl.
  rewrite ltb_spec, add_spec, !mul_spec, !sub_spec.
  pose proof (SF64sub_diag (Prim2SF x)) as Hx.
  pose proof (SF64sub_diag (Prim2SF y)) as Hy.
  destruct (SF64sub (Prim2SF x) (Prim2SF x)) as [sx|sx| |sx mx ex]; try contradiction;
    destruct (SF64sub (Prim2SF y) (Prim2SF y)) as [sy|sy| |sy my ey]; try contradiction;
    try reflexivity;
    destruct sx; try reflexivity; destruct sy; reflexivity.
Qed.

(** ** C2: the clustering of terminal points *)

Lemma set_nth_length {A : Type} (i : nat) (v : A) (xs : list A) :
  List.length (set_nth i v xs) = List.length xs.
Proof.
  revert i; induction xs as [|x xs IH]; intros [|i]; simpl; auto.
Qed.

Lemma nth_error_set_nth_same {A : Type} (i : nat) (v : A) (xs : list A) :
  i < List.length xs -> nth_error (set_nth i v xs) i = Some v.
Proof.
  revert i; induction xs as [|x xs IH]; intros [|i]; simpl; intros H;
    try lia; auto. apply IH. lia.
Qed.

Lemma nth_error_set_nth_other {A : Type} (i j : nat) (v : A) (xs : list A) :
  i <> j -> nth_error (set_nth i v xs) j = nth_error xs j.
Proof.
  revert i j; induction xs as [|x xs IH]; intros [|i] [|j]; simpl; intros H;
    try congruence; auto.
Qed.

(** The scan from index [i]: what it returns, in terms of the clusters it
    was given. *)
Lemma assignCluster_from_spec (cs : list Cluster) :
  forall i x y k cs',
    assignCluster_from i cs x y = (k, cs') ->
    (exists j c,
        k = i + j
        /\ nth_error cs j = Some c
        /\ within_tolerance c x y = true
        /\ (forall j' c', j' < j -> nth_error cs j' = Some c' ->
                          within_tolerance c' x y = false)
        /\ cs' = set_nth j (absorb c x y) cs)
    \/ (k = i + List.length cs
        /\ (forall c', In c' cs -> within_tolerance c' x y = false)
        /\ cs' = cs ++ [mkCluster x y 1%float]).
Proof.
  induction cs as [|c rest IH]; intros i x y k cs'; simpl.
  - intros [= <- <-]. right. split; [lia|]. split; [intros c' []| reflexivity].
  - destruct (beyond_tolerance c x y) eqn:B.
    + destruct (assignCluster_from (S i) rest x y) as [k0 rest'] eqn:E.
      intros [= <- <-].
      destruct (IH _ _ _ _ _ E) as [(j & c0 & Hk & Hn & Hw & Hfirst & Hr) | (Hk & Hall & Hr)].
      * left. exists (S j), c0. split; [lia|]. split; [exact Hn|]. split; [exact Hw|].
        split; [|simpl; congruence].
        intros [|j'] c' Hlt; simpl.
        -- intros [= <-]. unfold within_tolerance. rewrite B. reflexivity.
        -- apply Hfirst. lia.
      * right. split; [simpl; lia|]. split; [|simpl; congruence].
        intros c' [<- | Hin]; [unfold within_tolerance; rewrite B; reflexivity|].
        apply Hall, Hin.
    + intros [= <- <-]. left. exists 0, c. split; [lia|]. split; [reflexivity|].
      split; [unfold within_tolerance; rewrite B; reflexivity|].
      split; [intros j' c' Hlt; lia | reflexivity].
Qed.

Lemma assignCluster_assigned (cs : list Cluster) (p : Point) :
  assigned cs p (fst (assignCluster cs (px p) (py p)))
              (snd (assignCluster cs (px p) (py p))).
Proof.
  unfold assignCluster.
  destruct (assignCluster_from 0 cs (px p) (py p)) as [k cs'] eqn:E. simpl.
  destruct (assignCluster_from_spec _ _ _ _ _ _ E)
    as [(j & c & Hk & Hn & Hw & Hfirst & Hr) | (Hk & Hall & Hr)].
  - left. exists c. simpl in Hk. subst k. auto.
  - right. simpl in Hk. auto.
Qed.

(** An assignment is determined by the clusters and the point. *)
Lemma assigned_functional (before : list Cluster) (p : Point) i i' after after' :
  assigned before p i after -> assigned before p i' after' ->
  i = i' /\ after = after'.
Proof.
  intros [(c & Hn & Hw & Hfirst & Ha) | (Hi & Hall & Ha)]
         [(c' & Hn' & Hw' & Hfirst' & Ha') | (Hi' & Hall' & Ha')].
  - assert (i = i').
    { destruct (Nat.lt_trichotomy i i') as [L | [E | L]]; [|exact E|].
      - rewrite (Hfirst' _ _ L Hn) in Hw. discriminate.
      - rewrite (Hfirst _ _ L Hn') in Hw'. discriminate. }
    subst i'. split; [reflexivity|]. congruence.
  - apply nth_error_In in Hn. rewrite (Hall' _ Hn) in Hw. discriminate.
  - apply nth_error_In in Hn'. rewrite (Hall _ Hn') in Hw'. discriminate.
  - split; congruence.
Qed.

Lemma assigned_grows (before : list Cluster) (p : Point) i after :
  assigned before p i after ->
  i < List.length after /\ List.length before <= List.length after.
Proof.
  intros [(c & Hn & _ & _ & ->) | (-> & _ & ->)].
  - rewrite set_nth_length. split; [|lia].
    apply nth_error_Some. congruence.
  - rewrite length_app. simpl. lia.
Qed.

Lemma visit_component_spec (t : Topology) (comp : ComponentInstance) (index : nat) :
  exists a b mid,
    assigned (clusters t) (pinA comp) a mid
    /\ assigned mid (pinB comp) b (clusters (visit_component t comp index))
    /\ visit_component t comp index
       = record_nodes t (clusters (visit_component t comp index)) a b index.
Proof.
  unfold visit_component.
  pose proof (assignCluster_assigned (clusters t) (pinA comp)) as HA.
  destruct (assignCluster (clusters t) (px (pinA comp)) (py (pinA comp))) as [a cs1].
  pose proof (assignCluster_assigned cs1 (pinB comp)) as HB.
  destruct (assignCluster cs1 (px (pinB comp)) (py (pinB comp))) as [b cs2].
  exists a, b, cs1. simpl in *. auto.
Qed.

Lemma visit_from_app (t : Topology) (i : nat) (l1 l2 : list ComponentInstance) :
  visit_from t i (l1 ++ l2) = visit_from (visit_from t i l1) (i + List.length l1) l2.
Proof.
  revert t i; induction l1 as [|c l1 IH]; intros t i; simpl.
  - rewrite Nat.add_0_r. reflexivity.
  - rewrite IH. f_equal. lia.
Qed.

Lemma componentNodes_record {C : Type} (t : TopologyOf C) cs a b index :
  componentNodes (record_nodes t cs a b index) = componentNodes t ++ [(a, b)].
Proof. reflexivity. Qed.

Lemma clusters_record {C : Type} (t : TopologyOf C) cs a b index :
  clusters (record_nodes t cs a b index) = cs.
Proof. reflexivity. Qed.

Lemma visit_from_nodes (components : list ComponentInstance) :
  forall t i,
    exists more,
      componentNodes (visit_from t i components) = componentNodes t ++ more
      /\ List.length more = List.length components
      /\ List.length (clusters t) <= List.length (clusters (visit_from t i components)).
Proof.
  induction components as [|comp rest IH]; intros t i; simpl.
  - exists []. rewrite app_nil_r. auto.
  - destruct (IH (visit_component t comp i) (S i)) as (more & Hn & Hl & Hc).
    destruct (visit_component_spec t comp i) as (a & b & mid & HA & HB & Hv).
    assert (Hcn : componentNodes (visit_component t comp i) = componentNodes t ++ [(a, b)])
      by (rewrite Hv; apply componentNodes_record).
    exists ((a, b) :: more). rewrite Hn, Hcn, <- app_assoc.
    simpl. split; [reflexivity|]. split; [lia|].
    apply assigned_grows in HA, HB. lia.
Qed.

Lemma build_topology_length (components : list ComponentInstance) :
  List.length (componentNodes (build_topology components)) = List.length components.
Proof.
  destruct (visit_from_nodes components (mkTopology [] [] [] []) 0) as (more & Hn & Hl & _).
  unfold build_topology. rewrite Hn. simpl. exact Hl.
Qed.

Lemma build_topology_snoc (components : list ComponentInstance) (comp : ComponentInstance) :
  build_topology (components ++ [comp])
  = visit_component (build_topology components) comp (List.length components).
Proof. unfold build_topology. rewrite visit_from_app. reflexivity. Qed.

Lemma firstn_snoc {A : Type} (xs : list A) (k : nat) (x : A) :
  nth_error xs k = Some x -> firstn (S k) xs = firstn k xs ++ [x].
Proof.
  revert k; induction xs as [|y xs IH]; intros [|k]; try discriminate.
  - intros [= ->]. reflexivity.
  - intros H. change (y :: firstn (S k) xs = (y :: firstn k xs) ++ [x]).
    rewrite (IH k H). reflexivity.
Qed.

(** C2, as the code has it. Clustering gives every component one pair of
    node ids, in the order of the list. For the component at index [k],
    the clusters being those left by the components before it: terminal A
    is assigned first, terminal B next, and each assignment is as
    [assigned] says: the id is that of the first cluster that passes the
    test of the code, or, when no cluster passes, that of a new cluster
    made of the point alone. The test is computed in binary64 arithmetic:
    with dx = x - centroid.x and dy = y - centroid.y, the cluster passes
    when dx * dx + dy * dy > 64 is false; whenever that sum is a number
    this is the comparison "at most 64", and a point always passes
    against itself. The cluster that passes then holds the running mean
    (centroid * count + point) / (count + 1) and a count raised by one.
    The id is a function of the clusters and the point, and it stays the
    index of a cluster until the end. *)
Theorem terminals_assigned_in_order :
  forall (components : list ComponentInstance) (k : nat) (comp : ComponentInstance),
    nth_error components k = Some comp ->
    tolerance2 = 64%float
    /\ (forall c x y,
           dist2 c x y
           = ((x - cx c) * (x - cx c) + (y - cy c) * (y - cy c))%float)
    /\ (forall c x y, within_tolerance c x y = negb (64 <? dist2 c x y)%float)
    /\ (forall c x y, is_nan (dist2 c x y) = false ->
                      within_tolerance c x y = (dist2 c x y <=? 64)%float)
    /\ (forall x y, within_tolerance (mkCluster x y 1) x y = true)
    /\ (forall c x y,
           absorb c x y
           = mkCluster ((cx c * count c + x) / (count c + 1))
                       ((cy c * count c + y) / (count c + 1))
                       (count c + 1))%float
    /\ List.length (componentNodes (build_topology components)) = List.length components
    /\ exists a b mid,
        nth_error (componentNodes (build_topology components)) k = Some (a, b)
        /\ assigned (clusters (build_topology (firstn k components))) (pinA comp) a mid
        /\ assigned mid (pinB comp) b (clusters (build_topology (firstn (S k) components)))
        /\ a < List.length (clusters (build_topology components))
        /\ b < List.length (clusters (build_topology components))
        /\ (forall a' mid', assigned (clusters (build_topology (firstn k components)))
                              (pinA comp) a' mid' -> a' = a /\ mid' = mid)
        /\ (forall b' after', assigned mid (pinB comp) b' after' -> b' = b).
Proof.
  intros components k comp Hk.
  split; [reflexivity|]. split; [reflexivity|]. split; [reflexivity|].
  split; [apply within_tolerance_leb|].
  split; [intros x y; apply within_tolerance_self|].
  split; [reflexivity|].
  split; [apply build_topology_length|].
  assert (Hlt : k < List.length components) by (apply nth_error_Some; congruence).
  pose proof (firstn_snoc _ _ _ Hk) as Hsn.
  assert (Hlen : List.length (firstn k components) = k) by (rewrite length_firstn; lia).
  pose proof (build_topology_snoc (firstn k components) comp) as Hstep.
  rewrite <- Hsn, Hlen in Hstep.
  destruct (visit_component_spec (build_topology (firstn k components)) comp k)
    as (a & b & mid & HA & HB & Hv).
  rewrite <- Hstep in HB, Hv.
  exists a, b, mid.
  assert (Hsplit : components = firstn (S k) components ++ skipn (S k) components)
    by (symmetry; apply firstn_skipn).
  destruct (visit_from_nodes (skipn (S k) components)
              (build_topology (firstn (S k) components))
              (0 + List.length (firstn (S k) components))) as (more & Hn & _ & Hc).
  assert (Hall : build_topology components
                 = visit_from (build_topology (firstn (S k) components))
                     (0 + List.length (firstn (S k) components))
                     (skipn (S k) components)).
  { unfold build_topology at 1. rewrite Hsplit at 1. apply visit_from_app. }
  rewrite <- Hall in Hn, Hc.
  assert (Hcn : componentNodes (build_topology (firstn (S k) components))
                = componentNodes (build_topology (firstn k components)) ++ [(a, b)])
    by (rewrite Hv; apply componentNodes_record).
  split.
  { rewrite Hn, Hcn, <- app_assoc.
    rewrite nth_error_app2; rewrite build_topology_length, Hlen; [|lia].
    rewrite Nat.sub_diag. reflexivity. }
  split; [exact HA|]. split; [exact HB|].
  pose proof (assigned_grows _ _ _ _ HA) as [GA1 GA2].
  pose proof (assigned_grows _ _ _ _ HB) as [GB1 GB2].
  split; [lia|]. split; [lia|].
  split.
  - intros a' mid' H'. destruct (assigned_functional _ _ _ _ _ _ H' HA). auto.
  - intros b' after' H'. destruct (assigned_functional _ _ _ _ _ _ H' HB). auto.
Qed.

(** ** Sets, maps and the traversal *)

Lemma has_In (s : JsSet.t) (k : nat) : JsSet.has s k = true <-> In k s.
Proof.
  unfold JsSet.has. rewrite existsb_exists. split.
  - intros (x & Hx & E). apply Nat.eqb_eq in E. subst; assumption.
  - intros H. exists k. split; [assumption | apply Nat.eqb_refl].
Qed.

Lemma has_not_In (s : JsSet.t) (k : nat) : JsSet.has s k = false <-> ~ In k s.
Proof. rewrite <- has_In. destruct (JsSet.has s k); split; congruence. Qed.

Lemma add_In (s : JsSet.t) (k x : nat) : In x (JsSet.add s k) <-> In x s \/ x = k.
Proof.
  unfold JsSet.add. destruct (JsSet.has s k) eqn:H.
  - apply has_In in H. split; [auto | intros [? | ->]; assumption].
  - rewrite in_app_iff. simpl. intuition.
Qed.

Lemma add_NoDup (s : JsSet.t) (k : nat) : NoDup s -> NoDup (JsSet.add s k).
Proof.
  intros N. unfold JsSet.add. destruct (JsSet.has s k) eqn:H; [assumption|].
  apply has_not_In in H. apply NoDup_app; [assumption | repeat constructor; auto |].
  intros x Hx [<- | []]. contradiction.
Qed.

Lemma get_set_same {V : Type} (m : JsMap.t V) (k : nat) (v : V) :
  JsMap.get (JsMap.set m k v) k = Some v.
Proof.
  induction m as [|[k' v'] m IH]; simpl.
  - rewrite Nat.eqb_refl. reflexivity.
  - destruct (Nat.eqb k k') eqn:E; simpl; rewrite ?Nat.eqb_refl, ?E; auto.
Qed.

Lemma get_set_other {V : Type} (m : JsMap.t V) (k k0 : nat) (v : V) :
  k0 <> k -> JsMap.get (JsMap.set m k v) k0 = JsMap.get m k0.
Proof.
  intros D. induction m as [|[k' v'] m IH]; simpl.
  - apply Nat.eqb_neq in D. rewrite D. reflexivity.
  - destruct (Nat.eqb k k') eqn:E; simpl.
    + apply Nat.eqb_eq in E. subst k'.
      apply Nat.eqb_neq in D. rewrite D. reflexivity.
    + rewrite IH. reflexivity.
Qed.

Lemma set_keys {V : Type} (m : JsMap.t V) (k : nat) (v : V) :
  NoDup (List.map fst m) ->
  NoDup (List.map fst (JsMap.set m k v))
  /\ (forall k0, In k0 (List.map fst (JsMap.set m k v)) <-> In k0 (List.map fst m) \/ k0 = k).
Proof.
  induction m as [|[k' v'] m IH]; simpl; intros N.
  - split; [repeat constructor; auto | intuition].
  - inversion N as [|? ? Hnin N']; subst.
    destruct (Nat.eqb k k') eqn:E; simpl.
    + apply Nat.eqb_eq in E. subst k'. split; [assumption | intuition].
    + destruct (IH N') as [IN IK]. split.
      * constructor; [|assumption]. rewrite IK. intros [? | ->]; [contradiction|].
        rewrite Nat.eqb_refl in E. discriminate.
      * intros k0. rewrite IK. intuition.
Qed.

Lemma get_In {V : Type} (m : JsMap.t V) (k : nat) (v : V) :
  NoDup (List.map fst m) -> (In (k, v) m <-> JsMap.get m k = Some v).
Proof.
  induction m as [|[k' v'] m IH]; simpl; intros N.
  - split; [intros [] | discriminate].
  - inversion N as [|? ? Hnin N']; subst.
    destruct (Nat.eqb k k') eqn:E.
    + apply Nat.eqb_eq in E. subst k'. split.
      * intros [[= ->] | Hin]; [reflexivity|].
        exfalso. apply Hnin. apply (in_map fst) in Hin. exact Hin.
      * intros [= ->]. auto.
    + rewrite <- (IH N'). split; [|auto].
      intros [[= -> ->] | Hin]; [|assumption].
      rewrite Nat.eqb_refl in E. discriminate.
Qed.

Section Traversal.

Variable adjacency : list JsSet.t.

Local Abbreviation edge := (edge adjacency).
Local Abbreviation reach := (reach edge).
Local Abbreviation bfs_inv := (bfs_inv adjacency).

Hypothesis closed : forall a b, edge a b -> b < List.length adjacency.

Lemma visit_neighbors_spec (neighbors : list nat) :
  forall visited queue visited' queue',
    visit_neighbors neighbors visited queue = (visited', queue') ->
    exists fresh,
      visited' = visited ++ fresh /\ queue' = queue ++ fresh
      /\ (forall w, In w fresh -> In w neighbors /\ ~ In w visited)
      /\ (forall w, In w neighbors -> In w visited')
      /\ (NoDup visited -> NoDup visited').
Proof.
  induction neighbors as [|nb rest IH]; intros visited queue visited' queue'; simpl.
  - intros [= <- <-]. exists []. rewrite !app_nil_r. intuition.
  - destruct (JsSet.has visited nb) eqn:H.
    + intros E. destruct (IH _ _ _ _ E) as (fresh & -> & -> & Hf & Hn & Hd).
      exists fresh. split; [reflexivity|]. split; [reflexivity|].
      split; [intros w Hw; destruct (Hf w Hw); auto|].
      split; [|assumption].
      intros w [<- | Hw]; [|auto]. apply in_or_app. left. apply has_In, H.
    + intros E. destruct (IH _ _ _ _ E) as (fresh & -> & -> & Hf & Hn & Hd).
      unfold JsSet.add in *. rewrite H in *.
      exists (nb :: fresh). repeat rewrite <- app_assoc. simpl.
      split; [reflexivity|]. split; [reflexivity|].
      apply has_not_In in H.
      split.
      { intros w [<- | Hw]; [auto|]. destruct (Hf w Hw) as [? Hni]. split; [auto|].
        intros Hv. apply Hni. apply in_or_app. auto. }
      split.
      { intros w [<- | Hw].
        - apply in_or_app. right. left. reflexivity.
        - specialize (Hn w Hw). rewrite <- app_assoc in Hn. exact Hn. }
      intros N. change (nb :: fresh) with ([nb] ++ fresh). rewrite app_assoc. apply Hd.
      apply NoDup_app; [assumption | repeat constructor; auto |].
      intros x Hx [<- | []]. contradiction.
Qed.

Lemma bounded_nodup_length (l : list nat) (n : nat) :
  NoDup l -> (forall v, In v l -> v < n) -> List.length l <= n.
Proof.
  intros N B. rewrite <- (length_seq n 0). apply NoDup_incl_length; [assumption|].
  intros v Hv. apply in_seq. specialize (B v Hv). lia.
Qed.

Lemma bfs_step_inv (visited : JsSet.t) (current : nat) (rest : list nat)
    (neighbors : list nat) visited' queue' :
  bfs_inv visited (current :: rest) ->
  nth_error adjacency current = Some neighbors ->
  visit_neighbors neighbors visited rest = (visited', queue') ->
  bfs_inv visited' queue'
  /\ List.length visited' + List.length rest = List.length visited + List.length queue'.
Proof.
  intros [I0 I1 I2 I3 I4 I5] Hn E.
  destruct (visit_neighbors_spec _ _ _ _ _ E) as (fresh & -> & -> & Hf & Hnb & Hd).
  split; [|rewrite !length_app; lia].
  constructor.
  - apply in_or_app; auto.
  - auto.
  - intros v Hv. apply in_app_or in Hv. destruct Hv as [Hv | Hv]; [auto|].
    apply (closed current). exists neighbors. split; [assumption|]. apply Hf, Hv.
  - intros v Hv. apply in_app_or in Hv. destruct Hv as [Hv | Hv]; [auto|].
    apply reach_step with current; [apply I3, I4; left; reflexivity|].
    exists neighbors. split; [assumption|]. apply Hf, Hv.
  - intros q Hq. apply in_or_app. apply in_app_or in Hq. destruct Hq; [left|right]; auto.
    apply I4. right. assumption.
  - intros v w Hv Hnq Hedge.
    apply in_app_or in Hv. destruct Hv as [Hv | Hv].
    + destruct (Nat.eq_dec v current) as [-> | D].
      * destruct Hedge as (s & Hs & Hw). rewrite Hn in Hs. injection Hs as <-.
        apply Hnb, Hw.
      * apply in_or_app. left. apply (I5 v w Hv); [|assumption].
        intros [<- | Hr]; [congruence|]. apply Hnq. apply in_or_app. auto.
    + exfalso. apply Hnq. apply in_or_app. auto.
Qed.

(** The loop returns within the bound, and what it returns is closed
    under the edges. *)
Lemma bfs_returns (fuel : nat) :
  forall visited queue,
    bfs_inv visited queue ->
    List.length adjacency + List.length queue <= fuel + List.length visited ->
    exists final, bfs fuel adjacency visited queue = Some final /\ bfs_inv final [].
Proof.
  induction fuel as [|fuel IH]; intros visited queue Inv Hm.
  - destruct queue as [|current rest].
    + exists visited. auto.
    + exfalso. pose proof (bounded_nodup_length _ _ (inv_nodup Inv) (inv_bound Inv)).
      simpl in Hm. lia.
  - destruct queue as [|current rest]; [exists visited; auto|].
    simpl.
    assert (Hc : current < List.length adjacency).
    { apply (inv_bound Inv), (inv_queue Inv). left; reflexivity. }
    destruct (nth_error adjacency current) as [neighbors|] eqn:Hn;
      [|apply nth_error_None in Hn; lia].
    cbn [bind].
    destruct (visit_neighbors neighbors visited rest) as [visited' queue'] eqn:E.
    destruct (bfs_step_inv _ _ _ _ _ _ Inv Hn E) as [Inv' Hl].
    apply IH; [assumption|]. simpl in Hm. lia.
Qed.

Lemma bfs_inv_final (final : JsSet.t) :
  bfs_inv final [] -> forall v, In v final <-> reach 0 v.
Proof.
  intros [I0 I1 I2 I3 I4 I5] v. split; [apply I3|].
  induction 1 as [|b c Hr IHr He]; [assumption|].
  apply (I5 b c); auto.
Qed.

Lemma full_size_iff (final : JsSet.t) :
  NoDup final -> (forall v, In v final -> v < List.length adjacency) ->
  (JsSet.size final = List.length adjacency
   <-> forall k, k < List.length adjacency -> In k final).
Proof.
  intros N B. unfold JsSet.size. split.
  - intros Hl k Hk.
    apply (NoDup_length_incl N (l' := seq 0 (List.length adjacency))).
    + rewrite length_seq. lia.
    + intros v Hv. apply in_seq. specialize (B v Hv). lia.
    + apply in_seq. lia.
  - intros Hall. apply Nat.le_antisymm.
    + apply bounded_nodup_length; assumption.
    + rewrite <- (length_seq (List.length adjacency) 0) at 1.
      apply NoDup_incl_length; [apply seq_NoDup|].
      intros v Hv. apply in_seq in Hv. apply Hall. lia.
Qed.

(** The traversal from vertex 0, run with one unit of fuel per vertex
    and one to spare: it returns, and it returns the vertices that can be
    reached from 0. *)
Lemma bfs_reach :
  0 < List.length adjacency ->
  exists final,
    bfs (S (List.length adjacency)) adjacency [0] [0] = Some final
    /\ (forall v, In v final <-> reach 0 v)
    /\ (JsSet.size final = List.length adjacency
        <-> forall k, k < List.length adjacency -> reach 0 k).
Proof.
  intros Hpos.
  assert (Inv : bfs_inv [0] [0]).
  { constructor; simpl; try tauto.
    - repeat constructor; auto.
    - intros v [<- | []]; assumption.
    - intros v [<- | []]; constructor. }
  destruct (bfs_returns (S (List.length adjacency)) _ _ Inv) as (final & Hb & If);
    [simpl; lia|].
  exists final. split; [assumption|].
  pose proof (bfs_inv_final _ If) as Hr. split; [assumption|].
  rewrite (full_size_iff _ (inv_nodup If) (inv_bound If)).
  split; intros H k Hk; apply Hr; auto.
Qed.

End Traversal.

(** ** The maps of the topology *)

Lemma node_ids_snoc (nodes : list (nat * nat)) (a b : nat) :
  node_ids (nodes ++ [(a, b)]) = node_ids nodes ++ [a; b].
Proof. unfold node_ids. rewrite flat_map_app. reflexivity. Qed.

Lemma touches_bound (nodes : list (nat * nat)) (k n : nat) :
  touches nodes k n -> k < List.length nodes.
Proof. intros (a & b & H & _). apply nth_error_Some. congruence. Qed.

Lemma touches_snoc (nodes : list (nat * nat)) (a b k n : nat) :
  touches (nodes ++ [(a, b)]) k n
  <-> touches nodes k n \/ (k = List.length nodes /\ (a = n \/ b = n)).
Proof.
  unfold touches. split.
  - intros (a' & b' & Hn & Hab).
    destruct (Nat.lt_ge_cases k (List.length nodes)) as [L | G].
    + rewrite nth_error_app1 in Hn by assumption. left; eauto.
    + rewrite nth_error_app2 in Hn by assumption.
      destruct (k - List.length nodes) as [|d] eqn:D; simpl in Hn.
      * injection Hn as <- <-. right. split; [lia | assumption].
      * destruct d; discriminate.
  - intros [(a' & b' & Hn & Hab) | (-> & Hab)].
    + exists a', b'. split; [|assumption].
      rewrite nth_error_app1; [assumption|]. apply nth_error_Some. congruence.
    + exists a, b. split; [|assumption].
      rewrite nth_error_app2, Nat.sub_diag; [reflexivity | lia].
Qed.

Lemma count_of_set (m : JsMap.t nat) (k k0 v : nat) :
  count_of (JsMap.set m k v) k0 = if Nat.eqb k0 k then v else count_of m k0.
Proof.
  unfold count_of. destruct (Nat.eqb k0 k) eqn:E.
  - apply Nat.eqb_eq in E. subst. rewrite get_set_same. reflexivity.
  - apply Nat.eqb_neq in E. rewrite get_set_other by assumption. reflexivity.
Qed.

Lemma members_of_set (m : JsMap.t JsSet.t) (k k0 : nat) (v : JsSet.t) :
  members_of (JsMap.set m k v) k0 = if Nat.eqb k0 k then v else members_of m k0.
Proof.
  unfold members_of. destruct (Nat.eqb k0 k) eqn:E.
  - apply Nat.eqb_eq in E. subst. rewrite get_set_same. reflexivity.
  - apply Nat.eqb_neq in E. rewrite get_set_other by assumption. reflexivity.
Qed.

Lemma incTerminal_inv {C : Type} (t : TopologyOf C) (n0 index : nat) :
  NoDup (List.map fst (clusterComponents t)) ->
  (forall n, NoDup (members_of (clusterComponents t) n)) ->
  let t' := incTerminal t n0 index in
  NoDup (List.map fst (clusterComponents t'))
  /\ (forall n, NoDup (members_of (clusterComponents t') n))
  /\ (forall n, count_of (terminalCounts t') n
                = count_of (terminalCounts t) n + (if Nat.eqb n n0 then 1 else 0))
  /\ (forall n k, In k (members_of (clusterComponents t') n)
                  <-> In k (members_of (clusterComponents t) n)
                      \/ (n = n0 /\ k = index))
  /\ componentNodes t' = componentNodes t
  /\ clusters t' = clusters t.
Proof.
  intros K N. simpl. split; [apply set_keys, K|].
  split.
  { intros n. rewrite members_of_set. destruct (Nat.eqb n n0); [|apply N].
    apply add_NoDup, N. }
  split.
  { intros n. rewrite count_of_set. destruct (Nat.eqb n n0) eqn:E; [|lia].
    apply Nat.eqb_eq in E. subst. reflexivity. }
  split; [|split; reflexivity].
  intros n k. rewrite members_of_set. destruct (Nat.eqb n n0) eqn:E.
  - apply Nat.eqb_eq in E. subst. rewrite add_In. intuition.
  - apply Nat.eqb_neq in E. intuition.
Qed.

Lemma record_nodes_inv {C : Type} (t : TopologyOf C) (cs : list C) (a b : nat) :
  topology_inv t ->
  topology_inv (record_nodes t cs a b (List.length (componentNodes t))).
Proof.
  intros [Ic Ik Im In_]. unfold record_nodes.
  set (t1 := mkTopology cs (terminalCounts t) (clusterComponents t)
               (componentNodes t ++ [(a, b)])).
  destruct (incTerminal_inv t1 a (List.length (componentNodes t)) Ik In_)
    as (K1 & N1 & C1 & M1 & Nodes1 & _).
  destruct (incTerminal_inv _ b (List.length (componentNodes t)) K1 N1)
    as (K2 & N2 & C2 & M2 & Nodes2 & _).
  constructor.
  - intros n. rewrite C2, C1, Nodes2, Nodes1. simpl.
    rewrite node_ids_snoc, count_occ_app, Ic. simpl.
    destruct (Nat.eq_dec a n) as [-> | Da], (Nat.eq_dec b n) as [-> | Db];
      rewrite ?Nat.eqb_refl;
      repeat match goal with
             | D : ?x <> ?y |- context [Nat.eqb ?y ?x] =>
                 rewrite (proj2 (Nat.eqb_neq y x)) by congruence
             end; lia.
  - exact K2.
  - intros n k. rewrite M2, M1, Nodes2, Nodes1. simpl.
    rewrite touches_snoc, Im. intuition.
  - exact N2.
Qed.

Lemma record_nodes_length {C : Type} (t : TopologyOf C) (cs : list C) (a b i : nat) :
  List.length (componentNodes (record_nodes t cs a b i))
  = S (List.length (componentNodes t)).
Proof. simpl. rewrite length_app. simpl. lia. Qed.

Lemma empty_topology_inv {C : Type} : topology_inv (mkTopology (@nil C) [] [] []).
Proof.
  constructor; simpl.
  - reflexivity.
  - constructor.
  - intros n k. split; [intros [] | intros H; apply touches_bound in H; simpl in H; lia].
  - intros n. constructor.
Qed.

Lemma visit_from_inv (components : list ComponentInstance) :
  forall t i,
    topology_inv t -> i = List.length (componentNodes t) ->
    topology_inv (visit_from t i components).
Proof.
  induction components as [|comp rest IH]; intros t i Inv Hi; simpl; [assumption|].
  destruct (visit_component_spec t comp i) as (a & b & mid & _ & _ & Hv).
  apply IH; rewrite Hv.
  - subst i. apply record_nodes_inv, Inv.
  - rewrite record_nodes_length. lia.
Qed.

Lemma build_topology_inv (components : list ComponentInstance) :
  topology_inv (build_topology components).
Proof. apply visit_from_inv; [apply empty_topology_inv | reflexivity]. Qed.

(** ** C3: the dangling report *)

Section Dangling.

Variables Pin C : Type.
Variable toUpperCase : jsstring -> jsstring.
Implicit Type comp : ComponentOf Pin.

Lemma canonicalLabel_cases comp (index : nat) :
  (has_text (label comp) = true ->
   exists l, label comp = Some l /\ canonicalLabel toUpperCase comp index = trim l)
  /\ (has_text (label comp) = false ->
      canonicalLabel toUpperCase comp index
      = toUpperCase (type comp) ++ lit "_" ++ of_nat (index + 1)).
Proof.
  unfold canonicalLabel, has_text. destruct (label comp) as [l|]; simpl.
  - destruct (is_empty (trim l)); simpl; split; try discriminate; eauto.
  - split; [discriminate | reflexivity].
Qed.

Lemma canonicalLabel_nonempty comp (index : nat) :
  is_empty (canonicalLabel toUpperCase comp index) = false.
Proof.
  unfold canonicalLabel.
  assert (F : is_empty (toUpperCase (type comp) ++ lit "_" ++ of_nat (index + 1)) = false)
    by (rewrite is_empty_app; apply andb_false_r).
  destruct (option_map trim (label comp)) as [l|]; [|exact F].
  destruct (is_empty l) eqn:E; [exact F | exact E].
Qed.

Lemma dangling_entries (components : list (ComponentOf Pin)) (t : TopologyOf C) :
  forall sufN sufC preN preC,
    componentNodes t = preN ++ sufN ->
    components = preC ++ sufC ->
    List.length preN = List.length preC ->
    List.length sufN = List.length sufC ->
    exists entries,
      mapi_opt_from (dangling_entry toUpperCase components (terminalCounts t))
        (List.length preC) sufN = Some entries
      /\ filter_truthy entries
         = List.map (fun kc => canonicalLabel toUpperCase (snd kc) (fst kc))
             (List.filter (fun kc => dangling_at t (fst kc))
                (combine (seq (List.length preC) (List.length sufC)) sufC)).
Proof.
  induction sufN as [|nd sufN IH]; intros [|comp sufC] preN preC HN HC Hpre Hsuf;
    try discriminate.
  - exists []. split; reflexivity.
  - destruct (IH sufC (preN ++ [nd]) (preC ++ [comp])) as (entries & He & Hf).
    + rewrite <- app_assoc. exact HN.
    + rewrite <- app_assoc. exact HC.
    + rewrite !length_app. simpl. lia.
    + simpl in Hsuf. lia.
    + rewrite length_app in He, Hf. simpl in He, Hf.
      replace (List.length preC + 1) with (S (List.length preC)) in He, Hf by lia.
      assert (Hnd : dangling_at t (List.length preC)
                    = is_dangling (terminalCounts t) nd).
      { unfold dangling_at. rewrite HN, nth_error_app2 by lia.
        rewrite Hpre, Nat.sub_diag. reflexivity. }
      assert (Hc : nth_error components (List.length preC) = Some comp).
      { rewrite HC, nth_error_app2, Nat.sub_diag by lia. reflexivity. }
      cbn [mapi_opt_from List.length seq combine List.filter fst].
      unfold dangling_entry at 1. rewrite Hnd.
      destruct (is_dangling (terminalCounts t) nd).
      * rewrite Hc. cbn [bind]. rewrite He. cbn [bind].
        eexists. split; [reflexivity|].
        cbn [filter_truthy List.map fst snd].
        rewrite canonicalLabel_nonempty, Hf. reflexivity.
      * cbn [bind]. rewrite He. cbn [bind].
        eexists. split; [reflexivity|]. cbn [filter_truthy]. exact Hf.
Qed.

Lemma danglingComponents_names (components : list (ComponentOf Pin)) (t : TopologyOf C) :
  List.length (componentNodes t) = List.length components ->
  danglingComponents toUpperCase components t
  = Some (dangling_names toUpperCase components t).
Proof.
  intros Hl. unfold danglingComponents, dangling_names, indexed.
  destruct (dangling_entries components t (componentNodes t) components [] [])
    as (entries & He & Hf); auto.
  simpl in He. rewrite He. cbn [bind]. rewrite Hf. reflexivity.
Qed.

Lemma In_indexed {A : Type} (xs : list A) (k : nat) (x : A) :
  In (k, x) (indexed xs) <-> nth_error xs k = Some x.
Proof.
  unfold indexed.
  assert (G : forall i, In (k, x) (combine (seq i (List.length xs)) xs)
                        <-> i <= k /\ nth_error xs (k - i) = Some x).
  { induction xs as [|y xs IH]; intros i; simpl.
    - split; [intros [] | intros [_ H]; destruct (k - i); discriminate].
    - rewrite IH. split.
      + intros [[= -> ->] | [L H]].
        * rewrite Nat.sub_diag. auto.
        * split; [lia|]. replace (k - i) with (S (k - S i)) by lia. exact H.
      + intros [L H]. destruct (k - i) as [|d] eqn:D.
        * left. injection H as ->. f_equal. lia.
        * right. split; [lia|]. replace (k - S i) with d by lia. exact H. }
  rewrite G, Nat.sub_0_r. intuition lia.
Qed.

Lemma dangling_names_nil (components : list (ComponentOf Pin)) (t : TopologyOf C) :
  dangling_names toUpperCase components t = []
  <-> forall k, k < List.length components -> dangling_at t k = false.
Proof.
  unfold dangling_names. split.
  - intros H k Hk. apply map_eq_nil in H.
    destruct (nth_error components k) as [comp|] eqn:E;
      [|apply nth_error_None in E; lia].
    destruct (dangling_at t k) eqn:D; [|reflexivity].
    assert (Hin : In (k, comp) (List.filter (fun kc => dangling_at t (fst kc))
                                  (indexed components))).
    { apply filter_In. split; [apply In_indexed, E | exact D]. }
    rewrite H in Hin. destruct Hin.
  - intros H.
    destruct (List.filter _ _) as [|[k comp] rest] eqn:F; [reflexivity|].
    assert (Hin : In (k, comp) (List.filter (fun kc => dangling_at t (fst kc))
                                  (indexed components)))
      by (rewrite F; left; reflexivity).
    apply filter_In in Hin. destruct Hin as [Hin D]. simpl in D.
    apply In_indexed in Hin.
    rewrite H in D; [discriminate|]. apply nth_error_Some. congruence.
Qed.

End Dangling.

(** C3. For a list that is not empty: the component at index [k] is
    dangling exactly when one of its two nodes counts fewer than two
    terminals, where the count of a node is the number of terminals, of
    any component, that were assigned to it. The report holds the names of
    all dangling components in the order of the list, a name being the
    trimmed label when that is not empty and KIND_index, the upper-cased
    kind and the index counted from one, otherwise. When there is at least
    one, validation fails with the dangling error, which shows the first
    four names separated by ", " and then "..." when there are more than
    four. When there is none, validation does not fail with this error. *)
Theorem dangling_components_reported :
  forall (toUpperCase : jsstring -> jsstring) (components : list ComponentInstance),
    components <> [] ->
    let t := build_topology components in
    let names := dangling_names toUpperCase components t in
    (forall k a b,
        nth_error (componentNodes t) k = Some (a, b) ->
        (dangling_at t k = true
         <-> count_of (terminalCounts t) a < 2 \/ count_of (terminalCounts t) b < 2))
    /\ (forall n, count_of (terminalCounts t) n
                  = count_occ Nat.eq_dec (node_ids (componentNodes t)) n)
    /\ danglingComponents toUpperCase components t = Some names
    /\ (forall k comp,
           nth_error components k = Some comp ->
           (has_text (label comp) = true ->
            exists l, label comp = Some l /\ canonicalLabel toUpperCase comp k = trim l)
           /\ (has_text (label comp) = false ->
               canonicalLabel toUpperCase comp k
               = toUpperCase (type comp) ++ lit "_" ++ of_nat (k + 1)))
    /\ (names <> [] ->
        validateCircuitIntegrity toUpperCase components
        = Some (Err (DANGLING_PREFIX
                     ++ join (lit ", ") (firstn 4 names)
                     ++ (if Nat.ltb 4 (List.length names) then lit "..." else [])
                     ++ lit ").")))
    /\ (names = [] ->
        forall shown, validateCircuitIntegrity toUpperCase components
                      <> Some (Err (DANGLING_PREFIX ++ shown))).
Proof.
  intros up components Hne t names.
  split.
  { intros k a b Hk. unfold dangling_at. rewrite Hk. unfold is_dangling. simpl.
    rewrite orb_true_iff, !Nat.ltb_lt. tauto. }
  split; [apply (ti_counts (build_topology_inv components))|].
  assert (Hd : danglingComponents up components t = Some names)
    by (apply danglingComponents_names, build_topology_length).
  split; [exact Hd|].
  split; [intros k comp _; apply canonicalLabel_cases|].
  assert (Hv : validateCircuitIntegrity up components
               = integrity_verdict up components t).
  { unfold validateCircuitIntegrity. destruct components; [congruence | reflexivity]. }
  rewrite Hv. unfold integrity_verdict. rewrite Hd. cbn [bind].
  split.
  - intros Hn. destruct names as [|n0 ns]; [congruence|].
    cbn [List.length Nat.ltb Nat.leb]. unfold capped_preview.
    rewrite <- !app_assoc. reflexivity.
  - intros -> shown. cbn [List.length Nat.ltb Nat.leb].
    destruct (build_adjacency _ _) as [adjacency|]; cbn [bind]; [|discriminate].
    destruct (bfs _ _ _ _) as [visited|]; cbn [bind]; [|discriminate].
    destruct (negb _); [|discriminate].
    intros H. apply (f_equal error_of) in H. revert H. discriminate.
Qed.

(** ** The adjacency sets *)

Lemma edge_set_nth (adjacency : list JsSet.t) (a : nat) (s s' : JsSet.t) :
  nth_error adjacency a = Some s ->
  forall x y,
    edge (set_nth a s' adjacency) x y
    <-> (x = a /\ In y s') \/ (x <> a /\ edge adjacency x y).
Proof.
  intros Ha x y. unfold edge.
  assert (La : a < List.length adjacency) by (apply nth_error_Some; congruence).
  destruct (Nat.eq_dec x a) as [-> | D].
  - rewrite nth_error_set_nth_same by assumption. split.
    + intros (s0 & [= <-] & Hy). auto.
    + intros [[_ Hy] | [D _]]; [eauto | congruence].
  - rewrite nth_error_set_nth_other by congruence. split.
    + intros H. right. auto.
    + intros [[E _] | [_ H]]; [congruence | exact H].
Qed.

Lemma adj_add_spec (adjacency : list JsSet.t) (a b : nat) :
  a < List.length adjacency ->
  exists adjacency',
    adj_add adjacency a b = Some adjacency'
    /\ List.length adjacency' = List.length adjacency
    /\ (forall x y, edge adjacency' x y <-> edge adjacency x y \/ (x = a /\ y = b)).
Proof.
  intros La. unfold adj_add.
  destruct (nth_error adjacency a) as [s|] eqn:Ha; [|apply nth_error_None in Ha; lia].
  eexists. split; [reflexivity|]. split; [apply set_nth_length|].
  intros x y. rewrite (edge_set_nth _ _ _ _ Ha), add_In.
  destruct (Nat.eq_dec x a) as [-> | D].
  - unfold edge. rewrite Ha. split.
    + intros [[_ [Hy | ->]] | [D _]]; [left; eauto | right; auto | congruence].
    + intros [(s0 & [= <-] & Hy) | [_ ->]]; left; auto.
  - intuition.
Qed.

Lemma link_with_spec (a : nat) (later : list nat) :
  forall adjacency,
    a < List.length adjacency ->
    (forall b, In b later -> b < List.length adjacency) ->
    exists adjacency',
      link_with a later adjacency = Some adjacency'
      /\ List.length adjacency' = List.length adjacency
      /\ (forall x y, edge adjacency' x y
                      <-> edge adjacency x y
                          \/ (x = a /\ In y later) \/ (y = a /\ In x later)).
Proof.
  induction later as [|b later IH]; intros adjacency La Hl; simpl.
  - exists adjacency. split; [reflexivity|]. split; [reflexivity|]. intuition.
  - destruct (adj_add_spec adjacency a b La) as (adj1 & -> & L1 & E1). cbn [bind].
    destruct (adj_add_spec adj1 b a) as (adj2 & -> & L2 & E2);
      [rewrite L1; apply Hl; left; reflexivity|]. cbn [bind].
    destruct (IH adj2) as (adj3 & -> & L3 & E3).
    + rewrite L2, L1. exact La.
    + intros b' Hb'. rewrite L2, L1. apply Hl. right. exact Hb'.
    + exists adj3. split; [reflexivity|]. split; [congruence|].
      intros x y. rewrite E3, E2, E1. intuition (subst; auto).
Qed.

Lemma link_all_spec (ids : list nat) :
  forall adjacency,
    NoDup ids ->
    (forall a, In a ids -> a < List.length adjacency) ->
    exists adjacency',
      link_all ids adjacency = Some adjacency'
      /\ List.length adjacency' = List.length adjacency
      /\ (forall x y, edge adjacency' x y
                      <-> edge adjacency x y \/ (In x ids /\ In y ids /\ x <> y)).
Proof.
  induction ids as [|a later IH]; intros adjacency N Hl; simpl.
  - exists adjacency. split; [reflexivity|]. split; [reflexivity|]. intuition.
  - inversion N as [|? ? Hnin N']; subst.
    destruct (link_with_spec a later adjacency) as (adj1 & -> & L1 & E1);
      [apply Hl; left; reflexivity | intros b Hb; apply Hl; right; exact Hb |].
    cbn [bind].
    destruct (IH adj1 N') as (adj2 & -> & L2 & E2);
      [intros b Hb; rewrite L1; apply Hl; right; exact Hb|].
    exists adj2. split; [reflexivity|]. split; [congruence|].
    intros x y. rewrite E2, E1. split.
    + intros [[H | [[-> Hy] | [-> Hx]]] | (Hx & Hy & D)].
      * auto.
      * right. split; [left; reflexivity|]. split; [right; exact Hy|].
        intros ->. contradiction.
      * right. split; [right; exact Hx|]. split; [left; reflexivity|].
        intros ->. contradiction.
      * right. simpl. auto.
    + intros [H | (Hx & Hy & D)]; [auto|].
      destruct Hx as [-> | Hx], Hy as [-> | Hy].
      * congruence.
      * left. right. left. auto.
      * left. right. right. auto.
      * right. auto.
Qed.

Lemma link_clusters_spec (cc : JsMap.t JsSet.t) :
  forall adjacency,
    (forall n ids, In (n, ids) cc ->
                   NoDup ids /\ forall a, In a ids -> a < List.length adjacency) ->
    exists adjacency',
      link_clusters cc adjacency = Some adjacency'
      /\ List.length adjacency' = List.length adjacency
      /\ (forall x y, edge adjacency' x y
                      <-> edge adjacency x y
                          \/ exists n ids, In (n, ids) cc
                                           /\ In x ids /\ In y ids /\ x <> y).
Proof.
  induction cc as [|[n ids] cc IH]; intros adjacency H; simpl.
  - exists adjacency. split; [reflexivity|]. split; [reflexivity|].
    intros x y. split; [auto | intros [? | (? & ? & [] & _)]; assumption].
  - destruct (H n ids (or_introl eq_refl)) as [N B].
    destruct (link_all_spec ids adjacency N B) as (adj1 & -> & L1 & E1). cbn [bind].
    destruct (IH adj1) as (adj2 & -> & L2 & E2).
    { intros n' ids' Hin. rewrite L1. apply (H n' ids'). right. exact Hin. }
    exists adj2. split; [reflexivity|]. split; [congruence|].
    intros x y. rewrite E2, E1. split.
    + intros [[He | Hp] | (n' & ids' & Hin & Hp)]; [auto | |].
      * right. exists n, ids. auto.
      * right. exists n', ids'. auto.
    + intros [He | (n' & ids' & [[= -> ->] | Hin] & Hp)]; [auto | auto |].
      right. exists n', ids'. auto.
Qed.

Lemma edge_repeat_nil (n x y : nat) : ~ edge (repeat [] n) x y.
Proof.
  intros (s & Hs & Hy). apply nth_error_In, repeat_spec in Hs. subst. destruct Hy.
Qed.

(** The adjacency sets join the components that share a node. *)
Lemma build_adjacency_spec {C : Type} (t : TopologyOf C) (n : nat) :
  topology_inv t -> List.length (componentNodes t) = n ->
  exists adjacency,
    build_adjacency n (clusterComponents t) = Some adjacency
    /\ List.length adjacency = n
    /\ (forall j k, edge adjacency j k
                    <-> j <> k /\ shares_node (componentNodes t) j k).
Proof.
  intros [Ic Ik Im In_] Hn. unfold build_adjacency.
  assert (Hget : forall m ids, In (m, ids) (clusterComponents t) ->
                               members_of (clusterComponents t) m = ids).
  { intros m ids Hin. apply get_In in Hin; [|exact Ik].
    unfold members_of. rewrite Hin. reflexivity. }
  destruct (link_clusters_spec (clusterComponents t) (repeat [] n))
    as (adjacency & Hb & Hl & He).
  { intros m ids Hin. rewrite <- (Hget m ids Hin). split; [apply In_|].
    intros a Ha. apply Im, touches_bound in Ha. rewrite repeat_length. lia. }
  exists adjacency. split; [exact Hb|]. split; [rewrite Hl; apply repeat_length|].
  intros j k. rewrite He. split.
  - intros [H | (m & ids & Hin & Hj & Hk & D)]; [destruct (edge_repeat_nil _ _ _ H)|].
    split; [exact D|]. exists m. rewrite <- (Hget m ids Hin) in Hj, Hk.
    split; apply Im; assumption.
  - intros [D (m & Hj & Hk)]. right. apply Im in Hj, Hk.
    unfold members_of in Hj, Hk.
    destruct (JsMap.get (clusterComponents t) m) as [ids|] eqn:G; [|destruct Hj].
    exists m, ids. split; [apply get_In; assumption | auto].
Qed.

Lemma reach_edge_shares (adjacency : list JsSet.t) (nodes : list (nat * nat)) :
  (forall j k, edge adjacency j k <-> j <> k /\ shares_node nodes j k) ->
  forall k, reach (edge adjacency) 0 k <-> reach (shares_node nodes) 0 k.
Proof.
  intros He k. split; induction 1 as [|b c Hr IH Hs]; try constructor.
  - apply reach_step with b; [assumption|]. apply He, Hs.
  - destruct (Nat.eq_dec b c) as [<- | D]; [assumption|].
    apply reach_step with b; [assumption|]. apply He. auto.
Qed.

(** The verdict on a list that is neither empty nor dangling. *)
Lemma connectivity_verdict {Pin C : Type} (up : jsstring -> jsstring)
    (components : list (ComponentOf Pin)) (t : TopologyOf C) :
  components <> [] ->
  topology_inv t ->
  List.length (componentNodes t) = List.length components ->
  (forall k, k < List.length components -> dangling_at t k = false) ->
  exists verdict,
    integrity_verdict up components t = Some verdict
    /\ (verdict = Ok \/ verdict = Err DISCONNECTED)
    /\ (verdict = Ok
        <-> forall k, k < List.length components ->
                      reach (shares_node (componentNodes t)) 0 k).
Proof.
  intros Hne Inv Hl Hd. unfold integrity_verdict.
  rewrite (danglingComponents_names _ _ up components t Hl).
  rewrite (proj2 (dangling_names_nil _ _ up components t) Hd). cbn [bind].
  cbn [List.length Nat.ltb Nat.leb].
  destruct (build_adjacency_spec t (List.length components) Inv Hl)
    as (adjacency & -> & La & He). cbn [bind].
  assert (Hpos : 0 < List.length adjacency)
    by (rewrite La; destruct components; [congruence | simpl; lia]).
  destruct (bfs_reach adjacency) as (final & Hb & _ & Hsize); [|exact Hpos|].
  { intros a b Hab. apply He in Hab. destruct Hab as [_ (m & _ & Hb)].
    apply touches_bound in Hb. lia. }
  rewrite La in Hb, Hsize. rewrite Hb. cbn [bind].
  assert (Hall : JsSet.size final = List.length components
                 <-> forall k, k < List.length components ->
                               reach (shares_node (componentNodes t)) 0 k).
  { rewrite Hsize. split; intros H k Hk; apply (reach_edge_shares _ _ He); auto. }
  destruct (Nat.eqb (JsSet.size final) (List.length components)) eqn:E; simpl.
  - exists Ok. split; [reflexivity|]. split; [auto|].
    split; [intros _; apply Hall, Nat.eqb_eq, E | reflexivity].
  - exists (Err DISCONNECTED). split; [reflexivity|]. split; [auto|].
    split; [discriminate|]. intros H. apply Hall in H. apply Nat.eqb_neq in E.
    contradiction.
Qed.

(** ** Two groups of components that share no node *)

Lemma assigned_length (before : list Cluster) (p : Point) i after :
  assigned before p i after ->
  (i < List.length before /\ List.length after = List.length before)
  \/ (i = List.length before /\ List.length after = S (List.length before)).
Proof.
  intros [(c & Hn & _ & _ & ->) | (-> & _ & ->)].
  - left. rewrite set_nth_length. split; [|reflexivity].
    apply nth_error_Some. congruence.
  - right. rewrite length_app. simpl. split; lia.
Qed.

Lemma visit_component_in_use (t : Topology) (comp : ComponentInstance) :
  clusters_in_use t ->
  clusters_in_use (visit_component t comp (List.length (componentNodes t))).
Proof.
  intros [Hlt Huse].
  destruct (visit_component_spec t comp (List.length (componentNodes t)))
    as (a & b & mid & HA & HB & Hv).
  set (t' := visit_component t comp (List.length (componentNodes t))) in *.
  assert (Hn : componentNodes t' = componentNodes t ++ [(a, b)])
    by (rewrite Hv; apply componentNodes_record).
  apply assigned_length in HA, HB.
  split.
  - intros k a0 b0 Hk. rewrite Hn in Hk.
    destruct (Nat.lt_ge_cases k (List.length (componentNodes t))) as [L | G].
    + rewrite nth_error_app1 in Hk by assumption.
      destruct (Hlt _ _ _ Hk). lia.
    + rewrite nth_error_app2 in Hk by assumption.
      destruct (k - List.length (componentNodes t)) as [|[|d]]; try discriminate.
      injection Hk as <- <-. lia.
  - intros n Hlt'. rewrite Hn.
    destruct (Nat.lt_ge_cases n (List.length (clusters t))) as [L | G].
    + destruct (Huse n L) as (k & Hk). exists k. apply touches_snoc. auto.
    + exists (List.length (componentNodes t)). apply touches_snoc. right.
      split; [reflexivity|]. lia.
Qed.

Lemma visit_from_in_use (components : list ComponentInstance) :
  forall t i,
    clusters_in_use t -> i = List.length (componentNodes t) ->
    clusters_in_use (visit_from t i components).
Proof.
  induction components as [|comp rest IH]; intros t i Huse Hi; simpl; [assumption|].
  subst i. apply IH; [apply visit_component_in_use, Huse|].
  destruct (visit_component_spec t comp (List.length (componentNodes t)))
    as (a & b & mid & _ & _ & Hv).
  rewrite Hv, record_nodes_length. reflexivity.
Qed.

Lemma build_topology_in_use (components : list ComponentInstance) :
  clusters_in_use (build_topology components).
Proof.
  apply visit_from_in_use; [|reflexivity]. split; simpl.
  - intros [|k] a b H; discriminate.
  - intros n H. lia.
Qed.

Lemma assignCluster_from_shift (cs : list Cluster) (x y : float) (d : nat) :
  forall i,
    assignCluster_from (i + d) cs x y
    = (fst (assignCluster_from i cs x y) + d, snd (assignCluster_from i cs x y)).
Proof.
  induction cs as [|c rest IH]; intros i; simpl; [reflexivity|].
  destruct (beyond_tolerance c x y); [|reflexivity].
  change (S (i + d)) with (S i + d). rewrite IH.
  destruct (assignCluster_from (S i) rest x y). reflexivity.
Qed.

(** A scan that ends past a prefix of the clusters left that prefix as it
    was, and went on as the scan of the rest. *)
Lemma assignCluster_from_skip (pre cs : list Cluster) (x y : float) :
  forall i,
    i + List.length pre <= fst (assignCluster_from i (pre ++ cs) x y) ->
    assignCluster_from i (pre ++ cs) x y
    = (fst (assignCluster_from (i + List.length pre) cs x y),
       pre ++ snd (assignCluster_from (i + List.length pre) cs x y)).
Proof.
  induction pre as [|c pre IH]; intros i; simpl.
  - intros _. rewrite Nat.add_0_r. destruct (assignCluster_from i cs x y). reflexivity.
  - destruct (beyond_tolerance c x y).
    + specialize (IH (S i)).
      destruct (assignCluster_from (S i) (pre ++ cs) x y) as [k rest'] eqn:E.
      simpl fst. intros Hk.
      replace (i + S (List.length pre)) with (S i + List.length pre) in * by lia.
      specialize (IH Hk). congruence.
    + simpl. intros Hk. lia.
Qed.

Lemma assignCluster_skip (pre cs : list Cluster) (x y : float) :
  List.length pre <= fst (assignCluster (pre ++ cs) x y) ->
  assignCluster (pre ++ cs) x y
  = (List.length pre + fst (assignCluster cs x y), pre ++ snd (assignCluster cs x y)).
Proof.
  unfold assignCluster. intros H.
  rewrite (assignCluster_from_skip pre cs x y 0) by exact H.
  pose proof (assignCluster_from_shift cs x y (List.length pre) 0) as Hs.
  simpl in *. rewrite Hs. simpl. rewrite Nat.add_comm. reflexivity.
Qed.

Lemma visit_component_nodes (t : Topology) (comp : ComponentInstance) (index : nat) :
  componentNodes (visit_component t comp index)
  = componentNodes t
    ++ [(fst (assignCluster (clusters t) (px (pinA comp)) (py (pinA comp))),
         fst (assignCluster
                (snd (assignCluster (clusters t) (px (pinA comp)) (py (pinA comp))))
                (px (pinB comp)) (py (pinB comp))))].
Proof.
  unfold visit_component.
  destruct (assignCluster (clusters t) _ _) as [a cs1]. simpl.
  destruct (assignCluster cs1 _ _) as [b cs2]. reflexivity.
Qed.

Lemma visit_component_clusters (t : Topology) (comp : ComponentInstance) (index : nat) :
  clusters (visit_component t comp index)
  = snd (assignCluster
           (snd (assignCluster (clusters t) (px (pinA comp)) (py (pinA comp))))
           (px (pinB comp)) (py (pinB comp))).
Proof.
  unfold visit_component.
  destruct (assignCluster (clusters t) _ _) as [a cs1]. simpl.
  destruct (assignCluster cs1 _ _) as [b cs2]. reflexivity.
Qed.

(** The second group, run after the first and run alone: when none of its
    terminals joins a cluster of the first, both runs make the same
    clusters and the same node pairs, up to the number of clusters of the
    first. *)
Lemma visit_from_apart (pre : list Cluster) (second : list ComponentInstance) :
  forall tc ta i j,
    clusters tc = pre ++ clusters ta ->
    (forall k a b,
        nth_error (componentNodes (visit_from tc i second))
                  (List.length (componentNodes tc) + k) = Some (a, b) ->
        List.length pre <= a /\ List.length pre <= b) ->
    exists more,
      clusters (visit_from tc i second) = pre ++ clusters (visit_from ta j second)
      /\ componentNodes (visit_from tc i second)
         = componentNodes tc ++ List.map (shift_nodes (List.length pre)) more
      /\ componentNodes (visit_from ta j second) = componentNodes ta ++ more.
Proof.
  induction second as [|comp rest IH]; intros tc ta i j Hc Hfar; simpl.
  - exists []. simpl. rewrite !app_nil_r. auto.
  - destruct (visit_from_nodes rest (visit_component tc comp i) (S i))
      as (more1 & Hn1 & _ & _).
    pose proof (visit_component_nodes tc comp i) as Hnc.
    pose proof (visit_component_nodes ta comp j) as Hna.
    pose proof (visit_component_clusters tc comp i) as Hcc.
    pose proof (visit_component_clusters ta comp j) as Hca.
    rewrite Hc in Hnc, Hcc.
    set (pa := pinA comp) in *. set (pb := pinB comp) in *.
    assert (Hab : nth_error (componentNodes (visit_from (visit_component tc comp i)
                                               (S i) rest))
                    (List.length (componentNodes tc) + 0)
                  = Some (fst (assignCluster (pre ++ clusters ta) (px pa) (py pa)),
                          fst (assignCluster
                                 (snd (assignCluster (pre ++ clusters ta) (px pa) (py pa)))
                                 (px pb) (py pb)))).
    { rewrite Hn1, Hnc, <- app_assoc, nth_error_app2 by lia.
      replace (List.length (componentNodes tc) + 0 - List.length (componentNodes tc))
        with 0 by lia. reflexivity. }
    destruct (Hfar 0 _ _ Hab) as [Ha Hb].
    rewrite (assignCluster_skip pre (clusters ta) (px pa) (py pa) Ha) in Hnc, Hcc, Hb.
    simpl in Hnc, Hcc, Hb.
    rewrite (assignCluster_skip pre _ (px pb) (py pb) Hb) in Hnc, Hcc.
    simpl in Hnc, Hcc.
    destruct (IH (visit_component tc comp i) (visit_component ta comp j) (S i) (S j))
      as (more & Hcl & Hnodes & Hnodes').
    + rewrite Hcc, Hca. reflexivity.
    + intros k a b Hk. apply (Hfar (S k) a b).
      rewrite Hnc, length_app in Hk. simpl in Hk.
      replace (List.length (componentNodes tc) + S k)
        with (List.length (componentNodes tc) + 1 + k) by lia. exact Hk.
    + exists ((fst (assignCluster (clusters ta) (px pa) (py pa)),
               fst (assignCluster (snd (assignCluster (clusters ta) (px pa) (py pa)))
                      (px pb) (py pb))) :: more).
      split; [exact Hcl|].
      rewrite Hnodes, Hnodes', Hnc, Hna, <- !app_assoc. split; reflexivity.
Qed.

Lemma node_ids_app (l1 l2 : list (nat * nat)) :
  node_ids (l1 ++ l2) = node_ids l1 ++ node_ids l2.
Proof. apply flat_map_app. Qed.

Lemma node_ids_shift (m : nat) (l : list (nat * nat)) :
  node_ids (List.map (shift_nodes m) l) = List.map (Nat.add m) (node_ids l).
Proof.
  induction l as [|[a b] l IH]; simpl; [reflexivity|]. rewrite <- IH. reflexivity.
Qed.

Lemma count_occ_shift (m n : nat) (l : list nat) :
  count_occ Nat.eq_dec (List.map (Nat.add m) l) (m + n) = count_occ Nat.eq_dec l n.
Proof.
  induction l as [|x l IH]; simpl; [reflexivity|].
  destruct (Nat.eq_dec (m + x) (m + n)), (Nat.eq_dec x n); try lia; rewrite IH; reflexivity.
Qed.

Lemma count_occ_shift_below (m n : nat) (l : list nat) :
  n < m -> count_occ Nat.eq_dec (List.map (Nat.add m) l) n = 0.
Proof.
  intros H. apply count_occ_not_In. intros Hin. apply in_map_iff in Hin.
  destruct Hin as (x & Hx & _). lia.
Qed.

Lemma count_occ_above (m n : nat) (l : list nat) :
  (forall x, In x l -> x < m) -> count_occ Nat.eq_dec l (m + n) = 0.
Proof.
  intros H. apply count_occ_not_In. intros Hin. specialize (H _ Hin). lia.
Qed.

Lemma node_ids_bound (t : Topology) :
  clusters_in_use t ->
  forall x, In x (node_ids (componentNodes t)) -> x < List.length (clusters t).
Proof.
  intros [Hlt _] x Hin. unfold node_ids in Hin. apply in_flat_map in Hin.
  destruct Hin as ([a b] & Hab & Hx). apply In_nth_error in Hab.
  destruct Hab as (k & Hk). destruct (Hlt k a b Hk).
  simpl in Hx. destruct Hx as [<- | [<- | []]]; assumption.
Qed.

(** Of a list made of two groups that share no node: the node pairs are
    those of the first group followed by those of the second, raised by
    the number of clusters of the first; and a component is dangling in
    the list exactly when it is dangling in its own group. *)
Lemma groups_apart (first second : list ComponentInstance) :
  let t := build_topology (first ++ second) in
  let m := List.length (clusters (build_topology first)) in
  (forall j k, j < List.length first -> List.length first <= k ->
               ~ shares_node (componentNodes t) j k) ->
  componentNodes t
  = componentNodes (build_topology first)
    ++ List.map (shift_nodes m) (componentNodes (build_topology second))
  /\ (forall k, k < List.length first ->
                dangling_at t k = dangling_at (build_topology first) k)
  /\ (forall k, dangling_at t (List.length first + k)
                = dangling_at (build_topology second) k).
Proof.
  intros t m Hsep.
  set (t1 := build_topology first). set (t2 := build_topology second).
  assert (Ht : t = visit_from t1 (0 + List.length first) second)
    by (apply visit_from_app).
  pose proof (build_topology_length first) as Hl1. fold t1 in Hl1.
  pose proof (build_topology_in_use first) as Huse1. fold t1 in Huse1.
  destruct (visit_from_nodes second t1 (0 + List.length first))
    as (more0 & Hn0 & _ & _).
  rewrite <- Ht in Hn0.
  assert (Hfar : forall k a b,
             nth_error (componentNodes (visit_from t1 (0 + List.length first) second))
                       (List.length (componentNodes t1) + k) = Some (a, b) ->
             List.length (clusters t1) <= a /\ List.length (clusters t1) <= b).
  { rewrite <- Ht. intros k a b Hk.
    assert (Hno : forall n, n = a \/ n = b -> ~ n < List.length (clusters t1)).
    { intros n Hn Hlt. destruct (proj2 Huse1 n Hlt) as (j & Hj).
      apply (Hsep j (List.length first + k)).
      - apply touches_bound in Hj. lia.
      - lia.
      - exists n. split.
        + destruct Hj as (a0 & b0 & Hj & Hab). exists a0, b0. split; [|exact Hab].
          rewrite Hn0, nth_error_app1; [exact Hj|]. apply nth_error_Some. congruence.
        + exists a, b. rewrite <- Hl1. split; [exact Hk|].
          destruct Hn; subst; auto. }
    split; apply Nat.le_ngt, Hno; auto. }
  destruct (visit_from_apart (clusters t1) second t1 (mkTopology [] [] [] [])
              (0 + List.length first) 0) as (more & _ & Hn & Hn2).
  { simpl. rewrite app_nil_r. reflexivity. }
  { exact Hfar. }
  rewrite <- Ht in Hn. simpl in Hn2. fold (build_topology second) in Hn2.
  fold t2 in Hn2. subst more. fold m in Hn.
  split; [exact Hn|].
  pose proof (ti_counts (build_topology_inv (first ++ second))) as Hc. fold t in Hc.
  pose proof (ti_counts (build_topology_inv first)) as Hc1. fold t1 in Hc1.
  pose proof (ti_counts (build_topology_inv second)) as Hc2. fold t2 in Hc2.
  assert (Hlow : forall n, n < m ->
                           count_of (terminalCounts t) n = count_of (terminalCounts t1) n).
  { intros n Hlt. rewrite Hc, Hc1, Hn, node_ids_app, count_occ_app, node_ids_shift.
    rewrite (count_occ_shift_below m n _ Hlt). lia. }
  assert (Hhigh : forall n, count_of (terminalCounts t) (m + n)
                            = count_of (terminalCounts t2) n).
  { intros n. rewrite Hc, Hc2, Hn, node_ids_app, count_occ_app, node_ids_shift.
    rewrite count_occ_shift, (count_occ_above m n); [reflexivity|].
    apply node_ids_bound, Huse1. }
  split.
  - intros k Hk. unfold dangling_at. rewrite Hn, nth_error_app1 by lia.
    destruct (nth_error (componentNodes t1) k) as [[a b]|] eqn:E; [|reflexivity].
    destruct (proj1 Huse1 k a b E) as [La Lb]. fold m in La, Lb.
    unfold is_dangling. simpl. rewrite (Hlow a La), (Hlow b Lb). reflexivity.
  - intros k. unfold dangling_at. rewrite Hn, nth_error_app2 by lia.
    replace (List.length first + k - List.length (componentNodes t1)) with k by lia.
    rewrite nth_error_map.
    destruct (nth_error (componentNodes t2) k) as [[a b]|]; [|reflexivity].
    unfold is_dangling. simpl. rewrite !Hhigh. reflexivity.
Qed.

(** A list that integrity validation accepts is neither empty nor
    dangling. *)
Lemma accepted_not_dangling (up : jsstring -> jsstring)
    (components : list ComponentInstance) :
  validateCircuitIntegrity up components = Some Ok ->
  components <> []
  /\ forall k, k < List.length components ->
               dangling_at (build_topology components) k = false.
Proof.
  unfold validateCircuitIntegrity.
  destruct components as [|comp rest] eqn:E; [discriminate|]. rewrite <- E.
  replace (Nat.eqb (List.length components) 0) with false by (rewrite E; reflexivity).
  intros H. split; [rewrite E; discriminate|].
  apply (dangling_names_nil _ _ up). revert H. unfold integrity_verdict.
  rewrite (danglingComponents_names _ _ up components _
             (build_topology_length components)). cbn [bind].
  destruct (dangling_names up components (build_topology components));
    [reflexivity | discriminate].
Qed.

(** ** C4: connectivity *)

(** C4. For a list that is neither empty nor dangling: the adjacency sets
    are built, one per component, and the set of a component holds exactly
    the other components that share a node id with it; the traversal from
    component 0 returns; validation accepts exactly when every component
    can be reached from component 0 through components that share a node,
    and fails with the disconnected-circuit error otherwise. So a list
    made of two groups, each of them accepted when validated alone, such
    that no component of the first shares a node with a component of the
    second, is not dangling, and fails with the disconnected-circuit
    error. *)
Theorem connected_iff_accepted :
  forall (toUpperCase : jsstring -> jsstring) (components : list ComponentInstance),
    components <> [] ->
    let t := build_topology components in
    ((forall k, k < List.length components -> dangling_at t k = false) ->
     (exists adjacency,
         build_adjacency (List.length components) (clusterComponents t) = Some adjacency
         /\ List.length adjacency = List.length components
         /\ (forall j k, edge adjacency j k
                         <-> j <> k /\ shares_node (componentNodes t) j k))
     /\ (validateCircuitIntegrity toUpperCase components = Some Ok
         <-> forall k, k < List.length components ->
                       reach (shares_node (componentNodes t)) 0 k)
     /\ (validateCircuitIntegrity toUpperCase components = Some Ok
         \/ validateCircuitIntegrity toUpperCase components = Some (Err DISCONNECTED)))
    /\ (forall first second,
           components = first ++ second ->
           validateCircuitIntegrity toUpperCase first = Some Ok ->
           validateCircuitIntegrity toUpperCase second = Some Ok ->
           (forall j k, j < List.length first -> List.length first <= k ->
                        ~ shares_node (componentNodes t) j k) ->
           (forall k, k < List.length components -> dangling_at t k = false)
           /\ validateCircuitIntegrity toUpperCase components
              = Some (Err DISCONNECTED)).
Proof.
  intros up components Hne t.
  pose proof (build_topology_inv components) as Inv.
  pose proof (build_topology_length components) as Hl.
  assert (Hv : validateCircuitIntegrity up components
               = integrity_verdict up components t).
  { unfold validateCircuitIntegrity. destruct components; [congruence | reflexivity]. }
  assert (Main : (forall k, k < List.length components -> dangling_at t k = false) ->
                 (validateCircuitIntegrity up components = Some Ok
                  <-> forall k, k < List.length components ->
                                reach (shares_node (componentNodes t)) 0 k)
                 /\ (validateCircuitIntegrity up components = Some Ok
                     \/ validateCircuitIntegrity up components
                        = Some (Err DISCONNECTED))).
  { intros Hd.
    destruct (connectivity_verdict up components t Hne Inv Hl Hd)
      as (verdict & Hi & Hcases & Hok).
    rewrite Hv, Hi. split.
    - rewrite <- Hok. split; congruence.
    - destruct Hcases; subst; auto. }
  split.
  - intros Hd. split; [apply (build_adjacency_spec t _ Inv Hl)|]. apply Main, Hd.
  - intros first second Hsplit Hfirst Hsecond Hsep.
    destruct (accepted_not_dangling up first Hfirst) as [Hf Hdf].
    destruct (accepted_not_dangling up second Hsecond) as [Hs Hds].
    assert (Hsep' : forall j k, j < List.length first -> List.length first <= k ->
                      ~ shares_node (componentNodes (build_topology (first ++ second))) j k)
      by (rewrite <- Hsplit; exact Hsep).
    destruct (groups_apart first second Hsep') as (_ & Hlow & Hhigh).
    rewrite <- Hsplit in Hlow, Hhigh. fold t in Hlow, Hhigh.
    assert (Hd : forall k, k < List.length components -> dangling_at t k = false).
    { intros k Hk. destruct (Nat.lt_ge_cases k (List.length first)) as [L | G].
      - rewrite Hlow by exact L. apply Hdf, L.
      - replace k with (List.length first + (k - List.length first)) by lia.
        rewrite Hhigh. apply Hds. rewrite Hsplit, length_app in Hk. lia. }
    split; [exact Hd|].
    destruct (Main Hd) as [Hiff [Hok | Hdis]]; [|exact Hdis].
    exfalso.
    assert (Hstay : forall v, reach (shares_node (componentNodes t)) 0 v ->
                              v < List.length first).
    { induction 1 as [|b c Hr IH Hbc].
      - destruct first; [congruence | simpl; lia].
      - destruct (Nat.lt_ge_cases c (List.length first)) as [L | G]; [exact L|].
        destruct (Hsep b c IH G Hbc). }
    assert (Hin : List.length first < List.length components).
    { rewrite Hsplit, length_app. destruct second; [congruence | simpl; lia]. }
    pose proof (Hstay _ (proj1 Hiff Hok _ Hin)). lia.
Qed.

(** ** The store: clustering creates and updates only its own objects *)

Section StoreSimulation.

Variable h0 : Store.heap.

Lemma set_nth_app_right {A : Type} (xs ys : list A) (i : nat) (v : A) :
  set_nth (List.length xs + i) v (xs ++ ys) = xs ++ set_nth i v ys.
Proof. induction xs as [|x xs IH]; simpl; [reflexivity | rewrite IH; reflexivity]. Qed.

Lemma set_nth_middle {A : Type} (xs ys : list A) (y v : A) :
  set_nth (List.length xs) v (xs ++ y :: ys) = xs ++ v :: ys.
Proof.
  rewrite <- (Nat.add_0_r (List.length xs)), set_nth_app_right. reflexivity.
Qed.

Lemma read_cluster_obj (h : Store.heap) (l : Store.loc) (c : Cluster) :
  nth_error h l = Some (Store.cluster_obj c) -> Store.read_cluster h l = Some c.
Proof.
  intros H. unfold Store.read_cluster. rewrite H. destruct c; reflexivity.
Qed.

(** The loop of the store against the scan over cluster values. *)
Lemma scan_clusters_sim (x y : float) (rest : list Cluster) :
  forall pre,
    let h := h0 ++ List.map Store.cluster_obj (pre ++ rest) in
    let later := seq (List.length h0 + List.length pre) (List.length rest) in
    let k := fst (assignCluster_from (List.length pre) rest x y) in
    let rest' := snd (assignCluster_from (List.length pre) rest x y) in
    (k < List.length pre + List.length rest
     /\ List.length rest' = List.length rest
     /\ Store.scan_clusters (List.length pre) h later x y
        = Some (Some (k, h0 ++ List.map Store.cluster_obj (pre ++ rest'))))
    \/ (k = List.length pre + List.length rest
        /\ rest' = rest ++ [mkCluster x y 1%float]
        /\ Store.scan_clusters (List.length pre) h later x y = Some None).
Proof.
  induction rest as [|c rest IH]; intros pre; cbn zeta.
  - right. simpl. rewrite Nat.add_0_r. auto.
  - cbn [List.length seq Store.scan_clusters assignCluster_from].
    assert (Hread : Store.read_cluster
                      (h0 ++ List.map Store.cluster_obj (pre ++ c :: rest))
                      (List.length h0 + List.length pre) = Some c).
    { apply read_cluster_obj.
      rewrite nth_error_app2 by lia.
      replace (List.length h0 + List.length pre - List.length h0)
        with (List.length pre) by lia.
      rewrite map_app, nth_error_app2; rewrite length_map; [|lia].
      rewrite Nat.sub_diag. reflexivity. }
    rewrite Hread. cbn [bind].
    destruct (beyond_tolerance c x y) eqn:B.
    + specialize (IH (pre ++ [c])). cbn zeta in IH.
      rewrite length_app in IH. simpl in IH.
      replace (List.length pre + 1) with (S (List.length pre)) in IH by lia.
      rewrite <- !app_assoc in IH. simpl in IH.
      replace (List.length h0 + S (List.length pre))
        with (S (List.length h0 + List.length pre)) in IH by lia.
      destruct (assignCluster_from (S (List.length pre)) rest x y) as [k rest'].
      simpl in *.
      destruct IH as [(Hk & Hl & Hs) | (Hk & Hr & Hs)].
      * left. split; [lia|]. split; [lia|].
        exact Hs.
      * right. split; [lia|]. split; [congruence | exact Hs].
    + left. simpl. split; [lia|]. split; [reflexivity|].
      unfold Store.write_cluster. do 3 f_equal.
      rewrite !map_app. simpl.
      rewrite Nat.add_comm.
      replace (List.length pre + List.length h0)
        with (List.length h0 + List.length pre) by lia.
      rewrite set_nth_app_right. f_equal.
      rewrite <- (length_map Store.cluster_obj pre). apply set_nth_middle.
Qed.

Lemma assignCluster_sim (cs : list Cluster) (x y : float) :
  Store.assignCluster (h0 ++ List.map Store.cluster_obj cs)
    (seq (List.length h0) (List.length cs)) x y
  = Some (fst (assignCluster cs x y),
          h0 ++ List.map Store.cluster_obj (snd (assignCluster cs x y)),
          seq (List.length h0) (List.length (snd (assignCluster cs x y)))).
Proof.
  unfold Store.assignCluster, assignCluster.
  pose proof (scan_clusters_sim x y cs []) as H. cbn zeta in H. simpl in H.
  rewrite Nat.add_0_r in H.
  destruct (assignCluster_from 0 cs x y) as [k cs']. simpl in *.
  destruct H as [(Hk & Hl & ->) | (Hk & -> & ->)]; cbn [bind].
  - rewrite Hl. reflexivity.
  - rewrite length_seq, !length_app, length_map, map_app, <- app_assoc.
    simpl. rewrite Nat.add_1_r, seq_S, Hk. reflexivity.
Qed.

Lemma read_component_ext (l : Store.loc) (comp : ComponentOf Store.loc) (more : Store.heap) :
  Store.read_component h0 l = Some comp ->
  Store.read_component (h0 ++ more) l = Some comp.
Proof.
  unfold Store.read_component. destruct (nth_error h0 l) as [o|] eqn:E; [|discriminate].
  rewrite nth_error_app1 by (apply nth_error_Some; congruence). rewrite E. auto.
Qed.

Lemma read_point_ext (l : Store.loc) (p : Point) (more : Store.heap) :
  Store.read_point h0 l = Some p -> Store.read_point (h0 ++ more) l = Some p.
Proof.
  unfold Store.read_point. destruct (nth_error h0 l) as [o|] eqn:E; [|discriminate].
  rewrite nth_error_app1 by (apply nth_error_Some; congruence). rewrite E. auto.
Qed.

Lemma component_value_inv (comp : ComponentOf Store.loc) (v : ComponentInstance) :
  Store.component_value h0 comp = Some v ->
  Store.read_point h0 (pinA comp) = Some (pinA v)
  /\ Store.read_point h0 (pinB comp) = Some (pinB v)
  /\ same_fields comp v.
Proof.
  unfold Store.component_value.
  destruct (Store.read_point h0 (pinA comp)) as [pa|]; [|discriminate].
  destruct (Store.read_point h0 (pinB comp)) as [pb|]; [|discriminate].
  cbn [bind]. intros [= <-]. simpl. unfold same_fields. simpl. repeat split.
Qed.

Lemma component_value_ext (comp : ComponentOf Store.loc) (v : ComponentInstance)
    (more : Store.heap) :
  Store.component_value h0 comp = Some v ->
  Store.component_value (h0 ++ more) comp = Some v.
Proof.
  intros H. unfold Store.component_value in *.
  destruct (Store.read_point h0 (pinA comp)) as [pa|] eqn:A; [|discriminate].
  destruct (Store.read_point h0 (pinB comp)) as [pb|] eqn:B; [|discriminate].
  rewrite (read_point_ext _ _ more A), (read_point_ext _ _ more B). exact H.
Qed.

Lemma snapshot_cons_inv (ref : Store.loc) (rest : list Store.loc)
    (vs : list ComponentInstance) :
  Store.snapshot h0 (ref :: rest) = Some vs ->
  exists comp v vs',
    vs = v :: vs'
    /\ Store.read_component h0 ref = Some comp
    /\ Store.component_value h0 comp = Some v
    /\ Store.snapshot h0 rest = Some vs'.
Proof.
  cbn [Store.snapshot].
  destruct (Store.read_component h0 ref) as [comp|] eqn:Hc; [|discriminate].
  cbn [bind].
  destruct (Store.component_value h0 comp) as [v|] eqn:Hv; [|discriminate].
  cbn [bind].
  destruct (Store.snapshot h0 rest) as [vs'|] eqn:Hs; [|discriminate]. cbn [bind].
  intros [= <-]. exists comp, v, vs'. auto.
Qed.

Lemma snapshot_ext (components : list Store.loc) (more : Store.heap) :
  forall vs, Store.snapshot h0 components = Some vs ->
             Store.snapshot (h0 ++ more) components = Some vs.
Proof.
  induction components as [|ref rest IH]; intros vs H; [exact H|].
  destruct (snapshot_cons_inv _ _ _ H) as (comp & v & vs' & -> & Hc & Hv & Hs).
  cbn [Store.snapshot]. rewrite (read_component_ext _ _ more Hc). cbn [bind].
  rewrite (component_value_ext _ _ more Hv). cbn [bind].
  rewrite (IH _ Hs). reflexivity.
Qed.

Lemma snapshot_load (components : list Store.loc) :
  forall vs, Store.snapshot h0 components = Some vs ->
  exists comps,
    Store.load_components h0 components = Some comps
    /\ Forall2 same_fields comps vs.
Proof.
  induction components as [|ref rest IH]; intros vs H.
  - injection H as <-. exists []. split; [reflexivity | constructor].
  - destruct (snapshot_cons_inv _ _ _ H) as (comp & v & vs' & -> & Hc & Hv & Hs).
    destruct (IH _ Hs) as (comps & Hl & Hf).
    exists (comp :: comps). simpl. rewrite Hc, Hl. cbn [bind].
    split; [reflexivity|]. constructor; [|exact Hf].
    apply (component_value_inv _ _ Hv).
Qed.

Lemma load_components_ext (components : list Store.loc) (more : Store.heap) :
  forall comps, Store.load_components h0 components = Some comps ->
                Store.load_components (h0 ++ more) components = Some comps.
Proof.
  induction components as [|ref rest IH]; intros comps H; [exact H|].
  simpl in *.
  destruct (Store.read_component h0 ref) as [comp|] eqn:Hc; [|discriminate].
  cbn [bind] in *.
  destruct (Store.load_components h0 rest) as [comps'|]; [|discriminate].
  rewrite (read_component_ext _ _ more Hc), (IH _ eq_refl). exact H.
Qed.

Lemma visit_component_sim (th : TopologyOf Store.loc) (t : Topology)
    (ref : Store.loc) (comp : ComponentOf Store.loc) (v : ComponentInstance) (index : nat) :
  Store.read_component h0 ref = Some comp ->
  Store.component_value h0 comp = Some v ->
  forall h, simulates h0 h th t ->
  exists th' h',
    Store.visit_component h th ref index = Some (th', h')
    /\ simulates h0 h' th' (visit_component t v index).
Proof.
  intros Hc Hv h (-> & Hcl & Hcounts & Hcc & Hnodes).
  destruct (component_value_inv _ _ Hv) as (Ha & Hb & _).
  unfold Store.visit_component, visit_component.
  rewrite (read_component_ext _ _ _ Hc). cbn [bind].
  rewrite (read_point_ext _ _ _ Ha). cbn [bind].
  rewrite Hcl, assignCluster_sim. cbn [bind].
  destruct (assignCluster (clusters t) (px (pinA v)) (py (pinA v))) as [a cs1].
  cbn [fst snd].
  rewrite (read_component_ext _ _ _ Hc). cbn [bind].
  rewrite (read_point_ext _ _ _ Hb). cbn [bind].
  rewrite assignCluster_sim. cbn [bind].
  destruct (assignCluster cs1 (px (pinB v)) (py (pinB v))) as [b cs2].
  cbn [fst snd].
  eexists _, _. split; [reflexivity|].
  unfold simulates, record_nodes, incTerminal. simpl.
  rewrite Hcounts, Hcc, Hnodes. auto.
Qed.

Lemma visit_from_sim (components : list Store.loc) :
  forall vs th t index h,
    Store.snapshot h0 components = Some vs ->
    simulates h0 h th t ->
    exists th' h',
      Store.visit_from h th index components = Some (th', h')
      /\ simulates h0 h' th' (visit_from t index vs).
Proof.
  induction components as [|ref rest IH]; intros vs th t index h Hs Sim.
  - injection Hs as <-. exists th, h. split; [reflexivity | exact Sim].
  - destruct (snapshot_cons_inv _ _ _ Hs) as (comp & v & vs' & -> & Hc & Hv & Hs').
    destruct (visit_component_sim th t ref comp v index Hc Hv h Sim)
      as (th1 & h1 & E1 & Sim1).
    destruct (IH vs' th1 _ (S index) h1 Hs' Sim1) as (th2 & h2 & E2 & Sim2).
    exists th2, h2. simpl. rewrite E1. cbn [bind]. auto.
Qed.

Lemma build_topology_sim (components : list Store.loc) (vs : list ComponentInstance) :
  Store.snapshot h0 components = Some vs ->
  exists th h',
    Store.build_topology h0 components = Some (th, h')
    /\ simulates h0 h' th (build_topology vs).
Proof.
  intros Hs. apply visit_from_sim; [exact Hs|].
  unfold simulates. simpl. rewrite app_nil_r. auto.
Qed.

End StoreSimulation.

(** ** The verdict depends on the fields of the components and on the maps *)

Section SameFields.

Variables P Q : Type.
Variable toUpperCase : jsstring -> jsstring.

Lemma canonicalLabel_same (c : ComponentOf P) (d : ComponentOf Q) (index : nat) :
  same_fields c d ->
  canonicalLabel toUpperCase c index = canonicalLabel toUpperCase d index.
Proof.
  intros (_ & Hty & Hl & _). unfold canonicalLabel. rewrite Hty, Hl. reflexivity.
Qed.

Lemma getMissingParamReason_same (c : ComponentOf P) (d : ComponentOf Q) :
  same_fields c d -> getMissingParamReason c = getMissingParamReason d.
Proof.
  intros (_ & Hty & _ & Hv & Hc & Hvo & Hcu & Hvu & _).
  unfold getMissingParamReason. rewrite Hty, Hv, Hc, Hvo, Hcu, Hvu. reflexivity.
Qed.

Lemma missing_entries_same (cs : list (ComponentOf P)) (ds : list (ComponentOf Q)) :
  Forall2 same_fields cs ds ->
  forall i, mapi_from (missing_entry toUpperCase) i cs
            = mapi_from (missing_entry toUpperCase) i ds.
Proof.
  induction 1 as [|c d cs ds Hcd Hrest IH]; intros i; simpl; [reflexivity|].
  rewrite IH. unfold missing_entry.
  rewrite (getMissingParamReason_same c d Hcd), (canonicalLabel_same c d i Hcd).
  reflexivity.
Qed.

Lemma validateComponentParams_same (cs : list (ComponentOf P)) (ds : list (ComponentOf Q)) :
  Forall2 same_fields cs ds ->
  validateComponentParams toUpperCase cs = validateComponentParams toUpperCase ds.
Proof.
  intros H. unfold validateComponentParams, mapi.
  rewrite (missing_entries_same cs ds H 0). reflexivity.
Qed.

Lemma nth_error_same (cs : list (ComponentOf P)) (ds : list (ComponentOf Q)) :
  Forall2 same_fields cs ds ->
  forall k, match nth_error cs k, nth_error ds k with
            | Some c, Some d => same_fields c d
            | None, None => True
            | _, _ => False
            end.
Proof.
  induction 1 as [|c d cs ds Hcd Hrest IH]; intros [|k]; simpl; auto.
  apply IH.
Qed.

Lemma dangling_entry_same (cs : list (ComponentOf P)) (ds : list (ComponentOf Q))
    (counts : JsMap.t nat) (nodes : nat * nat) (index : nat) :
  Forall2 same_fields cs ds ->
  dangling_entry toUpperCase cs counts nodes index
  = dangling_entry toUpperCase ds counts nodes index.
Proof.
  intros H. unfold dangling_entry. destruct (is_dangling counts nodes); [|reflexivity].
  pose proof (nth_error_same cs ds H index) as Hk.
  destruct (nth_error cs index) as [c|], (nth_error ds index) as [d|];
    try contradiction; [|reflexivity].
  cbn [bind]. rewrite (canonicalLabel_same c d index Hk). reflexivity.
Qed.

Lemma mapi_opt_from_ext {A B : Type} (f g : A -> nat -> option B) (xs : list A) :
  (forall x i, f x i = g x i) ->
  forall i, mapi_opt_from f i xs = mapi_opt_from g i xs.
Proof.
  intros H. induction xs as [|x xs IH]; intros i; simpl; [reflexivity|].
  rewrite H, IH. reflexivity.
Qed.

Lemma integrity_verdict_same {C D : Type}
    (cs : list (ComponentOf P)) (ds : list (ComponentOf Q))
    (t : TopologyOf C) (u : TopologyOf D) :
  Forall2 same_fields cs ds ->
  terminalCounts t = terminalCounts u ->
  clusterComponents t = clusterComponents u ->
  componentNodes t = componentNodes u ->
  integrity_verdict toUpperCase cs t = integrity_verdict toUpperCase ds u.
Proof.
  intros H Hc Hcc Hn. unfold integrity_verdict, danglingComponents.
  rewrite Hc, Hcc, Hn, (Forall2_length H).
  rewrite (mapi_opt_from_ext
             (dangling_entry toUpperCase cs (terminalCounts u))
             (dangling_entry toUpperCase ds (terminalCounts u))).
  - reflexivity.
  - intros nodes i. apply dangling_entry_same, H.
Qed.

End SameFields.

(** Integrity validation always returns. *)
Lemma validateCircuitIntegrity_returns (up : jsstring -> jsstring)
    (components : list ComponentInstance) :
  exists verdict, validateCircuitIntegrity up components = Some verdict.
Proof.
  unfold validateCircuitIntegrity.
  destruct components as [|comp rest] eqn:E; [eexists; reflexivity|]. rewrite <- E.
  assert (Hne : components <> []) by (rewrite E; discriminate).
  replace (Nat.eqb (List.length components) 0) with false
    by (rewrite E; reflexivity).
  pose proof (build_topology_inv components) as Inv.
  pose proof (build_topology_length components) as Hl.
  destruct (dangling_names up components (build_topology components)) as [|n ns] eqn:D.
  - pose proof (proj1 (dangling_names_nil _ _ up components (build_topology components)) D)
      as D'.
    destruct (connectivity_verdict up components _ Hne Inv Hl D') as (v & Hv & _).
    eauto.
  - unfold integrity_verdict.
    rewrite (danglingComponents_names _ _ up components _ Hl), D. cbn [bind].
    eexists. reflexivity.
Qed.

Section StorePass.

Variable toUpperCase : jsstring -> jsstring.

(** One pass over the store: it returns; its verdict and node pairs are
    those of the pass over the values of the components; and the store
    afterwards is the store before, followed by the cluster objects. *)
Lemma store_pass_spec (h0 : Store.heap) (components : list Store.loc)
    (vs : list ComponentInstance) :
  Store.snapshot h0 components = Some vs ->
  exists verdict,
    validation_pass toUpperCase vs = Some verdict
    /\ Store.validation_pass toUpperCase h0 components
       = Some (verdict,
               componentNodes (build_topology vs),
               h0 ++ List.map Store.cluster_obj (clusters (build_topology vs))).
Proof.
  intros Hs.
  destruct (snapshot_load h0 components vs Hs) as (comps & Hload & Hsame).
  assert (Hlen : List.length components = List.length vs).
  { clear Hload Hsame. revert vs Hs.
    induction components as [|ref rest IH]; intros vs Hs.
    - injection Hs as <-. reflexivity.
    - destruct (snapshot_cons_inv _ _ _ _ Hs) as (c & v & vs' & -> & _ & _ & Hs').
      simpl. rewrite (IH _ Hs'). reflexivity. }
  destruct (validateCircuitIntegrity_returns toUpperCase vs) as (integrity & Hi).
  unfold validation_pass, Store.validation_pass, Store.validateCircuitIntegrity.
  rewrite Hi, Hlen. cbn [bind].
  unfold validateCircuitIntegrity in Hi.
  destruct (Nat.eqb (List.length vs) 0) eqn:E.
  - apply Nat.eqb_eq in E. destruct vs; [|discriminate].
    injection Hi as <-. cbn [bind]. exists (Err EMPTY_CIRCUIT). simpl.
    rewrite app_nil_r. auto.
  - destruct (build_topology_sim h0 components vs Hs) as (th & h' & -> & Sim).
    destruct Sim as (-> & _ & Hc & Hcc & Hn). cbn [bind].
    rewrite (load_components_ext h0 components _ comps Hload). cbn [bind].
    rewrite (integrity_verdict_same _ _ toUpperCase comps vs th (build_topology vs)
               Hsame Hc Hcc Hn), Hi. cbn [bind].
    rewrite Hn.
    destruct integrity as [|e].
    + unfold Store.validateComponentParams.
      rewrite (load_components_ext h0 components _ comps Hload). cbn [bind].
      rewrite (validateComponentParams_same _ _ toUpperCase comps vs Hsame).
      eexists. split; reflexivity.
    + eexists. split; reflexivity.
Qed.

End StorePass.

(** ** C9: nothing of the input is written *)

(** C9. Take any store and any array of references that lead to
    components with two pins. One validation pass, integrity and then
    parameters, returns; every object that was in the store is the same
    object afterwards (the store has only grown, by the cluster objects of
    the pass), so every component still has the id, kind, label and
    parameter fields it had, and its pins the coordinates they had. *)
Theorem validation_leaves_components :
  forall (toUpperCase : jsstring -> jsstring) (h : Store.heap)
         (components : list Store.loc) (values : list ComponentInstance),
    Store.snapshot h components = Some values ->
    exists verdict nodes h',
      Store.validation_pass toUpperCase h components = Some (verdict, nodes, h')
      /\ (forall l, l < List.length h -> nth_error h' l = nth_error h l)
      /\ Store.load_components h' components = Store.load_components h components
      /\ Store.snapshot h' components = Some values.
Proof.
  intros up h components values Hs.
  destruct (store_pass_spec up h components values Hs) as (verdict & _ & Hp).
  eexists _, _, _. split; [exact Hp|].
  split; [intros l Hl; apply nth_error_app1, Hl|].
  split; [|apply snapshot_ext, Hs].
  destruct (snapshot_load h components values Hs) as (comps & Hload & _).
  rewrite Hload. apply load_components_ext, Hload.
Qed.

(** ** C10: the pass is a function of the values of the components *)

(** C10. The verdict of a pass (the error message with its names
    included) and the pair of node ids it gives each component depend on
    the values of the components alone: two passes over the same values
    agree on both, whatever the stores they run in; in particular a second
    pass over the store the first one left agrees with the first. *)
Theorem validation_is_deterministic :
  forall (toUpperCase : jsstring -> jsstring) (h : Store.heap)
         (components : list Store.loc) (values : list ComponentInstance),
    Store.snapshot h components = Some values ->
    exists verdict nodes h1 h2,
      Store.validation_pass toUpperCase h components = Some (verdict, nodes, h1)
      /\ Store.validation_pass toUpperCase h1 components = Some (verdict, nodes, h2)
      /\ validation_pass toUpperCase values = Some verdict
      /\ nodes = componentNodes (build_topology values)
      /\ (forall g components',
             Store.snapshot g components' = Some values ->
             exists g', Store.validation_pass toUpperCase g components'
                        = Some (verdict, nodes, g')).
Proof.
  intros up h components values Hs.
  destruct (store_pass_spec up h components values Hs) as (verdict & Hv & Hp).
  pose proof (snapshot_ext h components
                (List.map Store.cluster_obj (clusters (build_topology values)))
                values Hs) as Hs1.
  destruct (store_pass_spec up _ components values Hs1) as (verdict1 & Hv1 & Hp1).
  assert (verdict1 = verdict) by congruence. subst verdict1.
  eexists _, _, _, _. split; [exact Hp|]. split; [exact Hp1|].
  split; [exact Hv|]. split; [reflexivity|].
  intros g components' Hg.
  destruct (store_pass_spec up g components' values Hg) as (verdict2 & Hv2 & Hp2).
  assert (verdict2 = verdict) by congruence. subst verdict2.
  eexists. exact Hp2.
Qed.

(** ** The theorems at work on small circuits *)

(** The wire of [closed_pair]: its terminals join the clusters that the
    resistor created. *)
Lemma terminals_assigned_in_order_witness :
  tolerance2 = 64%float
  /\ (forall c x y,
         dist2 c x y
         = ((x - cx c) * (x - cx c) + (y - cy c) * (y - cy c))%float)
  /\ (forall c x y, within_tolerance c x y = negb (64 <? dist2 c x y)%float)
  /\ (forall c x y, is_nan (dist2 c x y) = false ->
                    within_tolerance c x y = (dist2 c x y <=? 64)%float)
  /\ (forall x y, within_tolerance (mkCluster x y 1) x y = true)
  /\ (forall c x y,
         absorb c x y
         = mkCluster ((cx c * count c + x) / (count c + 1))
                     ((cy c * count c + y) / (count c + 1))
                     (count c + 1))%float
  /\ List.length (componentNodes (build_topology closed_pair)) = 2
  /\ exists a b mid,
      nth_error (componentNodes (build_topology closed_pair)) 1 = Some (a, b)
      /\ assigned (clusters (build_topology (firstn 1 closed_pair))) origin a mid
      /\ assigned mid (mkPoint 30 4) b (clusters (build_topology (firstn 2 closed_pair)))
      /\ a < List.length (clusters (build_topology closed_pair))
      /\ b < List.length (clusters (build_topology closed_pair))
      /\ (forall a' mid', assigned (clusters (build_topology (firstn 1 closed_pair)))
                            origin a' mid' -> a' = a /\ mid' = mid)
      /\ (forall b' after', assigned mid (mkPoint 30 4) b' after' -> b' = b).
Proof.
  apply (terminals_assigned_in_order closed_pair 1 (bare "wire" origin (mkPoint 30 4))).
  reflexivity.
Defined.

(** C2, the claim as worded does not hold: a point that passes the test
    need not be within 8 of the centroid. The point (8, 2^-600) is
    farther than 8 from the origin, by a square that rounds to zero, and
    joins the cluster at the origin; so does a point whose coordinate is
    not a number. The point (3, 4) is within 8 of the origin and joins
    it as well. *)
Lemma assigned_point_beyond_tolerance :
  let c := mkCluster 0 0 1 in
  let p := mkPoint 8 0x1p-600 in
  let q := mkPoint nan 0 in
  assigned [c] p 0 [absorb c (px p) (py p)]
  /\ assignCluster [c] (px p) (py p) = (0, [absorb c (px p) (py p)])
  /\ dist2 c (px p) (py p) = 64%float
  /\ spec_within_T c p = false
  /\ assigned [c] q 0 [absorb c (px q) (py q)]
  /\ assignCluster [c] (px q) (py q) = (0, [absorb c (px q) (py q)])
  /\ spec_within_T c q = false
  /\ spec_within_T c (mkPoint 3 4) = true
  /\ assignCluster [c] 3 4 = (0, [absorb c 3 4])
  /\ ~ (forall point after,
          assigned [c] point 0 after -> spec_within_T c point = true).
Proof.
  intros c p q.
  assert (Hp : assignCluster [c] (px p) (py p) = (0, [absorb c (px p) (py p)]))
    by reflexivity.
  assert (Hq : assignCluster [c] (px q) (py q) = (0, [absorb c (px q) (py q)]))
    by reflexivity.
  pose proof (assignCluster_assigned [c] p) as Ap. rewrite Hp in Ap.
  pose proof (assignCluster_assigned [c] q) as Aq. rewrite Hq in Aq.
  split; [exact Ap|].
  split; [exact Hp|]. split; [reflexivity|]. split; [vm_compute; reflexivity|].
  split; [exact Aq|].
  split; [exact Hq|]. split; [vm_compute; reflexivity|].
  split; [vm_compute; reflexivity|]. split; [reflexivity|].
  intros H. specialize (H p _ Ap). vm_compute in H. discriminate H.
Qed.

(** Five dangling resistors: four are named and the rest is elided. *)
Lemma dangling_components_reported_witness :
  validateCircuitIntegrity ascii_upper five_apart
  = Some (Err (DANGLING_PREFIX
               ++ lit "RESISTOR_1, RESISTOR_2, RESISTOR_3, RESISTOR_4...).")).
Proof.
  destruct (dangling_components_reported ascii_upper five_apart)
    as (_ & _ & _ & _ & H & _); [discriminate|].
  apply H. discriminate.
Defined.

(** A resistor and a wire between the same two points are accepted; two
    such pairs far from each other are not dangling and not connected. *)
Lemma connected_iff_accepted_witness :
  validateCircuitIntegrity ascii_upper closed_pair = Some Ok
  /\ validateCircuitIntegrity ascii_upper two_islands = Some (Err DISCONNECTED).
Proof.
  split.
  - destruct (connected_iff_accepted ascii_upper closed_pair) as (H & _).
    + discriminate.
    + destruct H as (_ & H & _).
      * intros [|[|k]] Hk; [reflexivity | reflexivity | simpl in Hk; lia].
      * apply H. intros [|[|k]] Hk; [constructor | | simpl in Hk; lia].
        apply reach_step with 0; [constructor|].
        exists 0. split; exists 0, 1; split; auto.
  - destruct (connected_iff_accepted ascii_upper two_islands) as (_ & H).
    + discriminate.
    + apply (H closed_pair (skipn 2 two_islands)); try reflexivity.
      intros j k Hj Hk (n & (a & b & Ej & Hn) & (a' & b' & Ek & Hn')).
      destruct j as [|[|j]]; [| |simpl in Hj; lia];
        injection Ej as <- <-;
        (destruct k as [|[|[|[|k]]]]; [simpl in Hk; lia | simpl in Hk; lia | | |];
         [injection Ek as <- <-; lia | injection Ek as <- <-; lia |
          destruct k; discriminate Ek]).
Defined.

(** Sharing a node is not sharing coordinates: the second pair of
    [near_pairs] has no point in common with the first, and its terminals
    still join the clusters of the first, so the four components are one
    circuit. *)
Remark near_pairs_share_nodes :
  componentNodes (build_topology near_pairs) = [(0, 1); (0, 1); (0, 1); (0, 1)]
  /\ validateCircuitIntegrity ascii_upper near_pairs = Some Ok.
Proof. split; reflexivity. Qed.

(** C4, the claim as worded does not hold: two groups that share no
    coordinates, each accepted when validated alone, are accepted when
    combined if their points lie within the tolerance of each other,
    since they then share their nodes. *)
Lemma disjoint_coordinates_accepted :
  let first := closed_pair in
  let second := skipn 2 near_pairs in
  near_pairs = first ++ second
  /\ validateCircuitIntegrity ascii_upper first = Some Ok
  /\ validateCircuitIntegrity ascii_upper second = Some Ok
  /\ spec_no_shared_coordinates first second = true
  /\ validateCircuitIntegrity ascii_upper near_pairs = Some Ok
  /\ shares_node (componentNodes (build_topology near_pairs)) 0 2
  /\ ~ (spec_no_shared_coordinates first second = true ->
        validateCircuitIntegrity ascii_upper (first ++ second)
        = Some (Err DISCONNECTED)).
Proof.
  intros first second. repeat split; try reflexivity.
  - exists 0. split; exists 0, 1; split; auto.
  - intros H. specialize (H eq_refl). vm_compute in H. discriminate H.
Qed.

(** A pass over [shared_pins] leaves the four objects as they were. *)
Lemma validation_leaves_components_witness :
  exists verdict nodes h',
    Store.validation_pass ascii_upper shared_pins [2; 3] = Some (verdict, nodes, h')
    /\ (forall l, l < 4 -> nth_error h' l = nth_error shared_pins l)
    /\ Store.load_components h' [2; 3] = Store.load_components shared_pins [2; 3]
    /\ Store.snapshot h' [2; 3]
       = Some [with_value (bare "resistor" origin (mkPoint 30 4)) "100";
               bare "wire" origin (mkPoint 30 4)].
Proof.
  apply (validation_leaves_components ascii_upper shared_pins [2; 3]).
  reflexivity.
Defined.

(** Two passes in a row over [shared_pins]. *)
Lemma validation_is_deterministic_witness :
  exists verdict nodes h1 h2,
    Store.validation_pass ascii_upper shared_pins [2; 3] = Some (verdict, nodes, h1)
    /\ Store.validation_pass ascii_upper h1 [2; 3] = Some (verdict, nodes, h2)
    /\ verdict = Ok /\ nodes = [(0, 1); (0, 1)].
Proof.
  destruct (validation_is_deterministic ascii_upper shared_pins [2; 3] _ eq_refl)
    as (verdict & nodes & h1 & h2 & H1 & H2 & Hv & Hn & _).
  exists verdict, nodes, h1, h2. split; [exact H1|]. split; [exact H2|].
  split; [|exact Hn]. injection Hv as <-. reflexivity.
Defined.

(* ------------------------------------------------------------------ *)
(** * Further properties of the analysis controller *)

(** ** The report of missing parameters *)

Section ParamReport.

Variable Pin : Type.
Variable toUpperCase : jsstring -> jsstring.

Lemma missing_from_names (components : list (ComponentOf Pin)) :
  forall i,
    filter_truthy (mapi_from (missing_entry toUpperCase) i components)
    = flat_map
        (fun kc =>
           match getMissingParamReason (snd kc) with
           | Some reason =>
               [canonicalLabel toUpperCase (snd kc) (fst kc)
                ++ lit " (" ++ reason ++ lit ")"]
           | None => []
           end)
        (combine (seq i (List.length components)) components).
Proof.
  induction components as [|comp rest IH]; intros i; [reflexivity|].
  cbn [mapi_from List.length seq combine flat_map fst snd].
  destruct (getMissingParamReason comp) as [r|] eqn:E.
  - rewrite (missing_entry_some Pin toUpperCase comp i r E). cbn [filter_truthy].
    rewrite entry_nonempty, IH. reflexivity.
  - rewrite (proj2 (missing_entry_none Pin toUpperCase comp i) E). cbn [filter_truthy].
    rewrite IH. reflexivity.
Qed.

Lemma missing_names_spec (components : list (ComponentOf Pin)) :
  filter_truthy (mapi (missing_entry toUpperCase) components)
  = missing_names toUpperCase components.
Proof. apply missing_from_names. Qed.

Lemma params_verdict (components : list (ComponentOf Pin)) :
  validateComponentParams toUpperCase components
  = match missing_names toUpperCase components with
    | [] => Ok
    | _ :: _ =>
        Err (lit "Errore parametro mancante: "
             ++ capped_preview (missing_names toUpperCase components) ++ lit ".")
    end.
Proof.
  unfold validateComponentParams. rewrite missing_names_spec.
  destruct (missing_names toUpperCase components); reflexivity.
Qed.

End ParamReport.

(** X1. The parameter validator reports the components that miss a
    parameter, and only those: its verdict is ok when no component has a
    missing-parameter reason, and otherwise the error made of the prefix,
    the entries "name (reason)" of those components in the order of the
    list, the first four joined by ", " and followed by "..." when there
    are more, and a full stop. *)
Theorem params_report :
  forall (Pin : Type) (toUpperCase : jsstring -> jsstring)
         (components : list (ComponentOf Pin)),
    validateComponentParams toUpperCase components
    = match missing_names toUpperCase components with
      | [] => Ok
      | names =>
          Err (lit "Errore parametro mancante: "
               ++ join (lit ", ") (firstn 4 names)
               ++ (if Nat.ltb 4 (List.length names) then lit "..." else [])
               ++ lit ".")
      end
    /\ (missing_names toUpperCase components = []
        <-> Forall (fun comp => getMissingParamReason comp = None) components).
Proof.
  intros Pin up components. split.
  - rewrite params_verdict. unfold capped_preview.
    destruct (missing_names up components); [reflexivity|].
    rewrite <- app_assoc. reflexivity.
  - rewrite <- (missing_names_spec Pin up components). unfold mapi.
    apply missing_from_nil.
Qed.

(** ** Normalisation *)

Lemma normalizeComponent_type {Pin : Type} (comp : ComponentOf Pin) :
  type (normalizeComponent comp) = type comp.
Proof.
  unfold normalizeComponent.
  destruct (eqb (type comp) (lit "voltage_source")); [reflexivity|].
  destruct (eqb (type comp) (lit "current_source")); reflexivity.
Qed.

Lemma normalizeComponent_outline {Pin : Type} (comp : ComponentOf Pin) :
  pinA (normalizeComponent comp) = pinA comp
  /\ pinB (normalizeComponent comp) = pinB comp
  /\ label (normalizeComponent comp) = label comp
  /\ id (normalizeComponent comp) = id comp.
Proof.
  unfold normalizeComponent.
  destruct (eqb (type comp) (lit "voltage_source")); [repeat split|].
  destruct (eqb (type comp) (lit "current_source")); repeat split.
Qed.

Lemma normalizeComponent_idempotent {Pin : Type} (comp : ComponentOf Pin) :
  normalizeComponent (normalizeComponent comp) = normalizeComponent comp.
Proof.
  unfold normalizeComponent at 2 3.
  destruct (eqb (type comp) (lit "voltage_source")) eqn:Ev.
  - unfold normalizeComponent. cbn [type voltage]. rewrite Ev.
    cbn [id pinA pinB label current voltage sourceDirection sourcePolarity].
    reflexivity.
  - destruct (eqb (type comp) (lit "current_source")) eqn:Ec.
    + unfold normalizeComponent. cbn [type current]. rewrite Ev, Ec.
      cbn [id pinA pinB label current voltage sourceDirection sourcePolarity].
      reflexivity.
    + unfold normalizeComponent. rewrite Ev, Ec. reflexivity.
Qed.

(** X2. Normalising twice is normalising once. The analysis page
    normalises the draft again before it sends it: given the list the
    editor has normalised, what it sends is that list, and it sends
    nothing when the list is empty. *)
Theorem normalize_idempotent :
  forall (Pin : Type) (components : list (ComponentOf Pin)),
    normalizeComponentsForAnalysis (normalizeComponentsForAnalysis components)
    = normalizeComponentsForAnalysis components
    /\ AnalysisPage.draftPayload (normalizeComponentsForAnalysis components)
       = match components with
         | [] => None
         | _ :: _ => Some (normalizeComponentsForAnalysis components)
         end.
Proof.
  intros Pin components.
  assert (H : normalizeComponentsForAnalysis (normalizeComponentsForAnalysis components)
              = normalizeComponentsForAnalysis components).
  { unfold normalizeComponentsForAnalysis. rewrite map_map.
    apply map_ext. intros comp. apply normalizeComponent_idempotent. }
  split; [exact H|].
  unfold AnalysisPage.draftPayload. rewrite H.
  destruct components; reflexivity.
Qed.

(** ** The integrity verdict reads pins, types and labels only *)

Section Outline.

Variable toUpperCase : jsstring -> jsstring.

Lemma visit_from_outline (cs ds : list ComponentInstance) :
  Forall2 same_outline cs ds ->
  forall t i, visit_from t i cs = visit_from t i ds.
Proof.
  induction 1 as [|c d cs ds (Ha & Hb & _) _ IH]; intros t i; [reflexivity|].
  simpl. unfold visit_component. rewrite Ha, Hb. apply IH.
Qed.

Lemma canonicalLabel_outline (c d : ComponentInstance) (index : nat) :
  same_outline c d ->
  canonicalLabel toUpperCase c index = canonicalLabel toUpperCase d index.
Proof.
  intros (_ & _ & Ht & Hl). unfold canonicalLabel. rewrite Ht, Hl. reflexivity.
Qed.

Lemma Forall2_nth_error_rel {A B : Type} (R : A -> B -> Prop)
    (xs : list A) (ys : list B) :
  Forall2 R xs ys ->
  forall k, match nth_error xs k, nth_error ys k with
            | Some x, Some y => R x y
            | None, None => True
            | _, _ => False
            end.
Proof.
  induction 1 as [|x y xs ys Hxy _ IH]; intros [|k]; simpl; auto. apply IH.
Qed.

Lemma dangling_entry_outline (cs ds : list ComponentInstance)
    (counts : JsMap.t nat) (nodes : nat * nat) (index : nat) :
  Forall2 same_outline cs ds ->
  dangling_entry toUpperCase cs counts nodes index
  = dangling_entry toUpperCase ds counts nodes index.
Proof.
  intros H. unfold dangling_entry. destruct (is_dangling counts nodes); [|reflexivity].
  pose proof (Forall2_nth_error_rel _ cs ds H index) as Hk.
  unfold ComponentInstance in *.
  destruct (nth_error cs index) as [c|], (nth_error ds index) as [d|];
    try contradiction; [|reflexivity].
  cbn [bind]. rewrite (canonicalLabel_outline c d index Hk). reflexivity.
Qed.

Lemma integrity_outline (cs ds : list ComponentInstance) :
  Forall2 same_outline cs ds ->
  validateCircuitIntegrity toUpperCase cs = validateCircuitIntegrity toUpperCase ds.
Proof.
  intros H. unfold validateCircuitIntegrity, build_topology.
  pose proof (Forall2_length H) as Hl. unfold ComponentInstance in *.
  rewrite Hl, (visit_from_outline cs ds H).
  destruct (Nat.eqb (List.length ds) 0); [reflexivity|].
  unfold integrity_verdict, danglingComponents.
  rewrite Hl.
  set (counts := terminalCounts (visit_from (mkTopology [] [] [] []) 0 ds)).
  rewrite (mapi_opt_from_ext
             (dangling_entry toUpperCase cs counts)
             (dangling_entry toUpperCase ds counts)).
  - reflexivity.
  - intros nodes i. apply dangling_entry_outline, H.
Qed.

Lemma normalize_outline (components : list ComponentInstance) :
  Forall2 same_outline (normalizeComponentsForAnalysis components) components.
Proof.
  induction components as [|comp rest IH]; constructor; [|exact IH].
  destruct (normalizeComponent_outline comp) as (Ha & Hb & Hl & _).
  repeat split; try assumption. apply normalizeComponent_type.
Qed.

End Outline.

(** X3. Normalisation does not change the integrity verdict: the
    validator reads the pins, the type and the label of a component, none
    of which normalisation touches. *)
Theorem normalize_keeps_integrity :
  forall (toUpperCase : jsstring -> jsstring) (components : list ComponentInstance),
    validateCircuitIntegrity toUpperCase (normalizeComponentsForAnalysis components)
    = validateCircuitIntegrity toUpperCase components.
Proof.
  intros up components. apply integrity_outline, normalize_outline.
Qed.

(** ** The draft the click saves *)

Ltac lit_neq H := apply eqb_eq in H; vm_compute in H; discriminate H.

Lemma normalized_ready {Pin : Type} (comp : ComponentOf Pin) :
  getMissingParamReason (normalizeComponent comp) = None ->
  ready_for_analysis (normalizeComponent comp).
Proof.
  intros Hr.
  destruct (eqb (type comp) (lit "voltage_source")) eqn:Ev;
    [|destruct (eqb (type comp) (lit "current_source")) eqn:Ec].
  - apply eqb_eq in Ev.
    destruct (normalize_voltage_source Pin comp Ev) as (Ht & Hv & Hvu & Hcu).
    rewrite (reason_voltage_source Pin _ Ht), Hvu, Hv in Hr.
    destruct (has_text (voltage comp)) eqn:Hx; [|discriminate Hr].
    split; [|split].
    + rewrite Ht. intros H. vm_compute in H. discriminate H.
    + intros _. rewrite Hv, Hvu, Hcu. repeat split; try assumption.
      unfold normalizeComponent. rewrite Ev. reflexivity.
    + rewrite Ht. intros H. lit_neq H.
  - apply eqb_eq in Ec.
    destruct (normalize_current_source Pin comp Ec) as (Ht & Hc & Hcu & Hvu).
    rewrite (reason_current_source Pin _ Ht), Hcu, Hc in Hr.
    destruct (has_text (current comp)) eqn:Hx; [|discriminate Hr].
    split; [|split].
    + rewrite Ht. intros H. vm_compute in H. discriminate H.
    + rewrite Ht. intros H. lit_neq H.
    + intros _. rewrite Hc, Hvu, Hcu. repeat split; try assumption.
      unfold normalizeComponent. rewrite Ev, Ec. reflexivity.
  - assert (Hn : normalizeComponent comp = comp)
      by (unfold normalizeComponent; rewrite Ev, Ec; reflexivity).
    rewrite Hn in *. split; [|split].
    + intros Hp. rewrite (reason_passive Pin comp Hp) in Hr.
      destruct (has_text (value comp)); [reflexivity | discriminate Hr].
    + intros H. rewrite H in Ev. discriminate Ev.
    + intros H. rewrite H in Ec. discriminate Ec.
Qed.

(** X4. What a saved draft holds. When the click saves a draft, the draft
    is the normalised circuit; it is not empty; no component of it is
    dangling and every component is reachable from the first one through
    shared nodes; every passive component has a value that is not blank;
    and every source has the quantity it is named after, no value, and is
    marked with the other quantity as its only unknown. *)
Theorem saved_draft_is_complete :
  forall (toUpperCase : jsstring -> jsstring)
         (canvas draft : list ComponentInstance),
    analyzeClick toUpperCase canvas = Some (SaveDraft draft) ->
    draft = normalizeComponentsForAnalysis canvas
    /\ draft <> []
    /\ (forall k, k < List.length draft ->
                  dangling_at (build_topology draft) k = false
                  /\ reach (shares_node (componentNodes (build_topology draft))) 0 k)
    /\ Forall ready_for_analysis draft.
Proof.
  intros up canvas draft. unfold analyzeClick.
  remember (normalizeComponentsForAnalysis canvas) as cs eqn:Ecs.
  destruct (validateCircuitIntegrity up cs) as [[|e]|] eqn:Hi; cbn [bind];
    try discriminate.
  destruct (validateComponentParams up cs) eqn:Hp; [|discriminate].
  intros [= <-]. split; [reflexivity|].
  destruct (accepted_not_dangling up _ Hi) as (Hne & Hd).
  split; [exact Hne|]. split.
  - intros k Hk. split; [apply Hd, Hk|].
    destruct (connectivity_verdict up cs (build_topology cs) Hne
                (build_topology_inv cs) (build_topology_length cs) Hd)
      as (verdict & Hv & _ & Hok).
    unfold validateCircuitIntegrity in Hi.
    match type of Hi with
    | (if ?b then _ else _) = _ => destruct b; [discriminate Hi|]
    end.
    rewrite Hv in Hi. apply Hok; [congruence | exact Hk].
  - apply params_ok_iff in Hp. subst cs. unfold normalizeComponentsForAnalysis in *.
    rewrite Forall_map in *. revert Hp. apply Forall_impl.
    intros comp. apply normalized_ready.
Qed.

(** The witness: a resistor with a value and a wire between the same two
    points. *)
Lemma saved_draft_is_complete_witness :
  let canvas := [ with_value (bare "resistor" origin (mkPoint 30 4)) "100";
                  bare "wire" origin (mkPoint 30 4) ] in
  analyzeClick ascii_upper canvas = Some (SaveDraft canvas)
  /\ Forall ready_for_analysis canvas.
Proof.
  intros canvas.
  assert (H : analyzeClick ascii_upper canvas = Some (SaveDraft canvas))
    by (vm_compute; reflexivity).
  split; [exact H|].
  apply (saved_draft_is_complete ascii_upper canvas canvas H).
Defined.

(** ** The click always ends *)

Lemma integrity_verdict_kinds {Pin C : Type} (up : jsstring -> jsstring)
    (components : list (ComponentOf Pin)) (t : TopologyOf C) (e : jsstring) :
  integrity_verdict up components t = Some (Err e) -> known_message e.
Proof.
  unfold integrity_verdict.
  destruct (danglingComponents up components t) as [dangling|]; cbn [bind];
    [|discriminate].
  destruct (Nat.ltb 0 (List.length dangling)) eqn:Hl.
  - intros [= <-]. right; left. exists dangling. split; [|reflexivity].
    destruct dangling; [discriminate Hl | discriminate].
  - destruct (build_adjacency _ _) as [adjacency|]; cbn [bind]; [|discriminate].
    destruct (bfs _ _ _ _) as [visited|]; cbn [bind]; [|discriminate].
    destruct (negb _); [|discriminate].
    intros [= <-]. right; right; left. reflexivity.
Qed.

(** X5. The click always ends, with the pop-up or with the draft: the
    traversal of the integrity check stays within its bound and no array
    is read outside its range. The pop-up shows one of four kinds of
    message; an integrity error is shown before any missing parameter is
    looked for; the draft is saved exactly when both validators accept
    the normalised circuit. *)
Theorem analyzeClick_returns :
  forall (toUpperCase : jsstring -> jsstring) (canvas : list ComponentInstance),
    let components := normalizeComponentsForAnalysis canvas in
    exists outcome,
      analyzeClick toUpperCase canvas = Some outcome
      /\ match outcome with
         | ShowError e =>
             known_message e
             /\ (validateCircuitIntegrity toUpperCase components = Some (Err e)
                 \/ (validateCircuitIntegrity toUpperCase components = Some Ok
                     /\ validateComponentParams toUpperCase components = Err e))
         | SaveDraft draft =>
             draft = components
             /\ validateCircuitIntegrity toUpperCase components = Some Ok
             /\ validateComponentParams toUpperCase components = Ok
         end.
Proof.
  intros up canvas components.
  destruct (validateCircuitIntegrity_returns up components) as (verdict & Hi).
  unfold analyzeClick. fold components. rewrite Hi. cbn [bind].
  destruct verdict as [|e].
  - destruct (validateComponentParams up components) as [|e] eqn:Hp.
    + eexists; split; [reflexivity|]. cbn beta iota. auto.
    + eexists; split; [reflexivity|]. cbn beta iota. split; [|right; auto].
      rewrite params_verdict in Hp.
      destruct (missing_names up components) as [|n ns] eqn:Hm; [discriminate Hp|].
      injection Hp as <-. right; right; right.
      exists (n :: ns). split; [discriminate | reflexivity].
  - eexists; split; [reflexivity|]. cbn beta iota. split; [|left; reflexivity].
    unfold validateCircuitIntegrity in Hi.
    match type of Hi with
    | (if ?b then _ else _) = _ => destruct b
    end.
    + injection Hi as <-. left. reflexivity.
    + apply (integrity_verdict_kinds up _ _ _ Hi).
Qed.

(* ------------------------------------------------------------------ *)
(** * Further properties of the topology *)

Lemma list_sum_indicator (x m : nat) :
  forall a,
    list_sum (List.map (fun n => if Nat.eq_dec x n then 1 else 0) (seq a m))
    = if (Nat.leb a x && Nat.ltb x (a + m))%bool then 1 else 0.
Proof.
  unfold list_sum. induction m as [|m IH]; intros a; cbn [seq List.map fold_right].
  - destruct (Nat.leb_spec0 a x), (Nat.ltb_spec0 x (a + 0)); simpl; lia.
  - rewrite IH.
    destruct (Nat.eq_dec x a), (Nat.leb_spec0 (S a) x), (Nat.ltb_spec0 x (S a + m)),
      (Nat.leb_spec0 a x), (Nat.ltb_spec0 x (a + S m)); simpl; lia.
Qed.

Lemma list_sum_map_add {A : Type} (f g : A -> nat) (xs : list A) :
  list_sum (List.map (fun x => f x + g x) xs)
  = list_sum (List.map f xs) + list_sum (List.map g xs).
Proof. induction xs as [|x xs IH]; simpl; [reflexivity | rewrite IH; lia]. Qed.

(** Counting the occurrences of every number below [m] counts every
    element of a list of numbers below [m] once. *)
Lemma count_occ_total (l : list nat) (m : nat) :
  (forall x, In x l -> x < m) ->
  list_sum (List.map (count_occ Nat.eq_dec l) (seq 0 m)) = List.length l.
Proof.
  induction l as [|x l IH]; intros Hb.
  - simpl. induction (seq 0 m); simpl; auto.
  - rewrite (map_ext _ (fun n => (if Nat.eq_dec x n then 1 else 0)
                                  + count_occ Nat.eq_dec l n)).
    + rewrite list_sum_map_add, list_sum_indicator, IH.
      * replace (Nat.ltb x (0 + m)) with true
          by (symmetry; apply Nat.ltb_lt; apply Hb; left; reflexivity).
        reflexivity.
      * intros y Hy. apply Hb. right; exact Hy.
    + intros n. simpl. destruct (Nat.eq_dec x n); reflexivity.
Qed.

Lemma list_sum_at_least (f : nat -> nat) (c : nat) (xs : list nat) :
  (forall n, In n xs -> c <= f n) ->
  c * List.length xs <= list_sum (List.map f xs).
Proof.
  induction xs as [|x xs IH]; intros H; simpl; [lia|].
  assert (c <= f x) by (apply H; left; reflexivity).
  assert (c * List.length xs <= list_sum (List.map f xs))
    by (apply IH; intros n Hn; apply H; right; exact Hn).
  lia.
Qed.

Lemma node_ids_length (nodes : list (nat * nat)) :
  List.length (node_ids nodes) = 2 * List.length nodes.
Proof. induction nodes as [|ab nodes IH]; simpl; [reflexivity | rewrite IH; lia]. Qed.

Lemma touches_In (nodes : list (nat * nat)) (k n : nat) :
  touches nodes k n -> In n (node_ids nodes) /\ k < List.length nodes.
Proof.
  intros (a & b & Hk & Hn). split.
  - unfold node_ids. apply in_flat_map. exists (a, b). split.
    + apply nth_error_In with k. exact Hk.
    + simpl. destruct Hn as [-> | ->]; auto.
  - apply nth_error_Some. rewrite Hk. discriminate.
Qed.

Lemma count_of_node (components : list ComponentInstance) (n : nat) :
  let t := build_topology components in
  (n < List.length (clusters t) -> 1 <= count_of (terminalCounts t) n)
  /\ (List.length (clusters t) <= n -> count_of (terminalCounts t) n = 0).
Proof.
  intros t.
  pose proof (build_topology_inv components) as Inv.
  pose proof (build_topology_in_use components) as Use. fold t in Inv, Use.
  rewrite (ti_counts Inv). split.
  - intros Hn. destruct Use as [_ Hex]. destruct (Hex n Hn) as (k & Hk).
    apply touches_In in Hk. destruct Hk as [Hin _].
    apply (count_occ_In Nat.eq_dec) in Hin. lia.
  - intros Hn. apply count_occ_not_In. intros Hin.
    apply (node_ids_bound t Use) in Hin. lia.
Qed.

Lemma terminals_total_spec (components : list ComponentInstance) :
  let t := build_topology components in
  terminals_total (terminalCounts t) (List.length (clusters t))
  = 2 * List.length components.
Proof.
  intros t.
  pose proof (build_topology_inv components) as Inv.
  pose proof (build_topology_in_use components) as Use. fold t in Inv, Use.
  unfold terminals_total.
  rewrite (map_ext _ (count_occ Nat.eq_dec (node_ids (componentNodes t))))
    by (intros n; apply (ti_counts Inv)).
  rewrite count_occ_total by (apply node_ids_bound, Use).
  rewrite node_ids_length. unfold t. rewrite build_topology_length. reflexivity.
Qed.

(** X6. The node ids are the indices of the clusters, without gaps: both
    ids of every component are below the number of clusters, every cluster
    is the node of a terminal of some component, and there are at most
    two clusters per component. *)
Theorem node_ids_are_dense :
  forall components : list ComponentInstance,
    let t := build_topology components in
    List.length (componentNodes t) = List.length components
    /\ (forall k a b, nth_error (componentNodes t) k = Some (a, b) ->
                      a < List.length (clusters t) /\ b < List.length (clusters t))
    /\ (forall n, n < List.length (clusters t) ->
                  exists k, k < List.length components
                            /\ touches (componentNodes t) k n)
    /\ List.length (clusters t) <= 2 * List.length components.
Proof.
  intros components t.
  pose proof (build_topology_in_use components) as Use. fold t in Use.
  pose proof (build_topology_length components) as Hl. fold t in Hl.
  split; [exact Hl|]. split; [apply Use|]. split.
  - intros n Hn. destruct Use as [_ Hex]. destruct (Hex n Hn) as (k & Hk).
    exists k. split; [|exact Hk]. apply touches_In in Hk. lia.
  - rewrite <- (terminals_total_spec components). fold t. unfold terminals_total.
    pose proof (list_sum_at_least (count_of (terminalCounts t)) 1
                  (seq 0 (List.length (clusters t)))) as H.
    rewrite length_seq in H. rewrite Nat.mul_1_l in H. apply H.
    intros n Hn. apply in_seq in Hn. apply (count_of_node components n). unfold t in *. lia.
Qed.

(** X7. The terminal counts add up: every cluster counts at least one
    terminal, an id that is not a cluster counts none, and the counts of
    all clusters together are twice the number of components. *)
Theorem terminal_counts_total :
  forall components : list ComponentInstance,
    let t := build_topology components in
    terminals_total (terminalCounts t) (List.length (clusters t))
    = 2 * List.length components
    /\ (forall n, n < List.length (clusters t) -> 1 <= count_of (terminalCounts t) n)
    /\ (forall n, List.length (clusters t) <= n -> count_of (terminalCounts t) n = 0).
Proof.
  intros components t. split; [apply terminals_total_spec|].
  split; intros n; apply (count_of_node components n).
Qed.

(** X8. In a circuit the integrity check accepts, every node joins at
    least two terminals, and so there are at most as many nodes as
    components. *)
Theorem accepted_circuit_nodes :
  forall (toUpperCase : jsstring -> jsstring) (components : list ComponentInstance),
    validateCircuitIntegrity toUpperCase components = Some Ok ->
    let t := build_topology components in
    (forall n, n < List.length (clusters t) -> 2 <= count_of (terminalCounts t) n)
    /\ List.length (clusters t) <= List.length components.
Proof.
  intros up components Hok t.
  destruct (accepted_not_dangling up components Hok) as (_ & Hd).
  pose proof (build_topology_in_use components) as Use. fold t in Use, Hd.
  pose proof (build_topology_length components) as Hl. fold t in Hl.
  assert (H2 : forall n, n < List.length (clusters t) ->
                         2 <= count_of (terminalCounts t) n).
  { intros n Hn. destruct Use as [_ Hex]. destruct (Hex n Hn) as (k & Hk).
    pose proof (touches_In _ _ _ Hk) as [_ Hlt]. rewrite Hl in Hlt.
    specialize (Hd k Hlt). unfold dangling_at in Hd.
    destruct Hk as (a & b & Hk & Hab). rewrite Hk in Hd.
    unfold is_dangling in Hd. simpl in Hd. apply orb_false_iff in Hd.
    destruct Hd as [Ha Hb]. apply Nat.ltb_ge in Ha, Hb.
    destruct Hab as [<- | <-]; assumption. }
  split; [exact H2|].
  pose proof (terminals_total_spec components) as Ht. fold t in Ht.
  unfold terminals_total in Ht.
  pose proof (list_sum_at_least (count_of (terminalCounts t)) 2
                (seq 0 (List.length (clusters t)))) as H.
  rewrite length_seq in H.
  assert (2 * List.length (clusters t) <= 2 * List.length components); [|lia].
  rewrite <- Ht. apply H. intros n Hn. apply in_seq in Hn. apply H2. lia.
Qed.

(** The witness: a resistor and a wire between the same two points make
    two nodes of two terminals each. *)
Lemma accepted_circuit_nodes_witness :
  validateCircuitIntegrity ascii_upper closed_pair = Some Ok
  /\ List.length (clusters (build_topology closed_pair)) <= List.length closed_pair.
Proof.
  assert (H : validateCircuitIntegrity ascii_upper closed_pair = Some Ok)
    by (vm_compute; reflexivity).
  split; [exact H|].
  apply (accepted_circuit_nodes ascii_upper closed_pair H).
Defined.

(** ** Adding components *)

Lemma count_occ_app_le (l1 l2 : list nat) (n : nat) :
  count_occ Nat.eq_dec l1 n <= count_occ Nat.eq_dec (l1 ++ l2) n.
Proof. rewrite count_occ_app. lia. Qed.

(** X9. Components that come later in the list never change what was
    found for the earlier ones: the node ids of the earlier components
    stay as they are, no cluster disappears, no terminal count goes down,
    and a component that was not dangling is not dangling in the longer
    circuit either. *)
Theorem adding_components_keeps_nodes :
  forall components more : list ComponentInstance,
    let t := build_topology components in
    let t' := build_topology (components ++ more) in
    (exists tail, componentNodes t' = componentNodes t ++ tail
                  /\ List.length tail = List.length more)
    /\ List.length (clusters t) <= List.length (clusters t')
    /\ (forall n, count_of (terminalCounts t) n <= count_of (terminalCounts t') n)
    /\ (forall k, k < List.length components ->
                  dangling_at t k = false -> dangling_at t' k = false).
Proof.
  intros components more t t'.
  assert (Ht' : t' = visit_from t (List.length components) more).
  { unfold t', t, build_topology. rewrite visit_from_app. reflexivity. }
  destruct (visit_from_nodes more t (List.length components)) as (tail & Hn & Hl & Hc).
  rewrite <- Ht' in Hn, Hc.
  pose proof (build_topology_inv components) as Inv. fold t in Inv.
  pose proof (build_topology_inv (components ++ more)) as Inv'. fold t' in Inv'.
  assert (Hcount : forall n, count_of (terminalCounts t) n
                             <= count_of (terminalCounts t') n).
  { intros n. rewrite (ti_counts Inv), (ti_counts Inv'), Hn, node_ids_app.
    apply count_occ_app_le. }
  split; [exists tail; auto|]. split; [exact Hc|]. split; [exact Hcount|].
  intros k Hk. unfold dangling_at. rewrite Hn.
  rewrite nth_error_app1
    by (unfold t; rewrite build_topology_length; exact Hk).
  destruct (nth_error (componentNodes t) k) as [[a b]|]; [|reflexivity].
  unfold is_dangling. simpl. rewrite !orb_false_iff, !Nat.ltb_ge.
  pose proof (Hcount a). pose proof (Hcount b). lia.
Qed.

(** ** The order of the integrity errors *)

Lemma dangling_message_differs (names : jsstring) :
  DANGLING_PREFIX ++ names <> DISCONNECTED.
Proof.
  intros H. apply (f_equal (firstn 23)) in H. vm_compute in H. discriminate H.
Qed.

(** X10. A dangling component is reported before connectivity is looked
    at: the validator answers that the circuit is not completely
    interconnected only for a circuit that is not empty, in which no
    component is dangling and not every component can be reached from the
    first one through shared nodes. *)
Theorem disconnected_only_without_dangling :
  forall (toUpperCase : jsstring -> jsstring) (components : list ComponentInstance),
    validateCircuitIntegrity toUpperCase components = Some (Err DISCONNECTED) ->
    let t := build_topology components in
    components <> []
    /\ (forall k, k < List.length components -> dangling_at t k = false)
    /\ ~ (forall k, k < List.length components ->
                    reach (shares_node (componentNodes t)) 0 k).
Proof.
  intros up components H t.
  assert (Hne : components <> []).
  { intros ->. vm_compute in H. discriminate H. }
  split; [exact Hne|].
  unfold validateCircuitIntegrity in H.
  match type of H with
  | (if ?b then _ else _) = _ =>
      destruct b eqn:Eb;
      [apply Nat.eqb_eq, length_zero_iff_nil in Eb; contradiction|]
  end.
  fold t in H.
  assert (Hd : forall k, k < List.length components -> dangling_at t k = false).
  { apply (dangling_names_nil _ _ up). revert H. unfold integrity_verdict.
    rewrite (danglingComponents_names _ _ up components t
               (build_topology_length components)).
    cbn [bind].
    destruct (dangling_names up components t) as [|n ns]; [reflexivity|].
    change (Nat.ltb 0 (List.length (n :: ns))) with true. cbv iota.
    intros H. apply (f_equal error_of) in H. cbn [error_of] in H.
    exfalso. revert H. apply dangling_message_differs. }
  split; [exact Hd|]. intros Hr.
  destruct (connectivity_verdict up components t Hne (build_topology_inv components)
              (build_topology_length components) Hd) as (verdict & Hv & _ & Hok).
  rewrite Hv in H. injection H as ->. apply Hok in Hr. discriminate Hr.
Qed.

(** The witness: two pairs of a resistor and a wire, far from each other. *)
Lemma disconnected_only_without_dangling_witness :
  validateCircuitIntegrity ascii_upper two_islands = Some (Err DISCONNECTED)
  /\ (forall k, k < List.length two_islands ->
                dangling_at (build_topology two_islands) k = false).
Proof.
  assert (H : validateCircuitIntegrity ascii_upper two_islands = Some (Err DISCONNECTED))
    by (vm_compute; reflexivity).
  split; [exact H|].
  apply (disconnected_only_without_dangling ascii_upper two_islands H).
Defined.

(* ------------------------------------------------------------------ *)
(** * The component inspector *)

(** ** Sanitising a numeric input *)

Lemma sanitize_loop (s : jsstring) :
  forall out dotUsed,
    fst (fold_left Inspector.sanitize_step s (out, dotUsed)) = out ++ kept dotUsed s.
Proof.
  induction s as [|ch s IH]; intros out dotUsed; simpl.
  - rewrite app_nil_r. reflexivity.
  - destruct (is_digit ch); [rewrite IH, <- app_assoc; reflexivity|].
    destruct (N.eqb ch 46 && negb dotUsed)%bool;
      [rewrite IH, <- app_assoc; reflexivity | apply IH].
Qed.

Lemma sanitize_kept (raw : jsstring) :
  Inspector.sanitizeNumericInput raw = kept false (Inspector.replace_first 44 46 raw).
Proof. unfold Inspector.sanitizeNumericInput. apply sanitize_loop. Qed.

Lemma dot_not_digit : is_digit 46 = false.
Proof. reflexivity. Qed.

Lemma digit_not_dot (c : N) : is_digit c = true -> c <> 46%N.
Proof. intros H ->. discriminate H. Qed.

Lemma digit_not_comma (c : N) : is_digit c = true -> N.eqb c 44 = false.
Proof.
  intros H. apply N.eqb_neq. intros ->. discriminate H.
Qed.

Lemma kept_shape (s : jsstring) :
  forall dotUsed,
    Forall (fun c => is_digit c = true \/ c = 46%N) (kept dotUsed s)
    /\ count_occ N.eq_dec (kept dotUsed s) 46%N <= (if dotUsed then 0 else 1).
Proof.
  induction s as [|ch s IH]; intros dotUsed; simpl.
  - split; [constructor | destruct dotUsed; lia].
  - destruct (is_digit ch) eqn:Ed.
    + destruct (IH dotUsed) as [Hf Hc]. split; [constructor; auto|].
      simpl. destruct (N.eq_dec ch 46) as [->|_]; [discriminate Ed | exact Hc].
    + destruct (N.eqb ch 46) eqn:E46; simpl; [|apply IH].
      destruct dotUsed; simpl; [apply IH|].
      apply N.eqb_eq in E46. subst ch.
      destruct (IH true) as [Hf Hc]. split; [constructor; auto|].
      simpl. simpl in Hc. lia.
Qed.

Lemma kept_digits (s : jsstring) :
  forall dotUsed, List.filter is_digit (kept dotUsed s) = List.filter is_digit s.
Proof.
  induction s as [|ch s IH]; intros dotUsed; simpl; [reflexivity|].
  destruct (is_digit ch) eqn:Ed.
  - simpl. rewrite Ed, IH. reflexivity.
  - destruct (N.eqb ch 46 && negb dotUsed)%bool; [|apply IH].
    simpl. rewrite Ed. apply IH.
Qed.

Lemma replace_first_digits (s : jsstring) :
  List.filter is_digit (Inspector.replace_first 44 46 s) = List.filter is_digit s.
Proof.
  induction s as [|ch s IH]; simpl; [reflexivity|].
  destruct (N.eqb ch 44) eqn:E.
  - apply N.eqb_eq in E. subst ch. reflexivity.
  - simpl. rewrite IH. reflexivity.
Qed.

Lemma kept_fixed (s : jsstring) :
  forall dotUsed : bool,
    Forall (fun c => is_digit c = true \/ c = 46%N) s ->
    count_occ N.eq_dec s 46%N <= (if dotUsed then 0 else 1) ->
    kept dotUsed s = s.
Proof.
  induction s as [|ch s IH]; intros dotUsed Hf Hc; [reflexivity|].
  inversion Hf as [|? ? Hch Hs]; subst. simpl.
  destruct Hch as [Hd | ->].
  - rewrite Hd. f_equal. apply IH; [exact Hs|].
    simpl in Hc. destruct (N.eq_dec ch 46) as [->|_]; [discriminate Hd | exact Hc].
  - simpl in Hc. destruct dotUsed; [lia|]. simpl. f_equal.
    apply IH; [exact Hs | simpl; lia].
Qed.

Lemma replace_first_fixed (s : jsstring) :
  Forall (fun c => is_digit c = true \/ c = 46%N) s ->
  Inspector.replace_first 44 46 s = s.
Proof.
  induction 1 as [|ch s Hch _ IH]; simpl; [reflexivity|].
  replace (N.eqb ch 44) with false; [rewrite IH; reflexivity|].
  destruct Hch as [Hd | ->]; [symmetry; apply digit_not_comma, Hd | reflexivity].
Qed.

Lemma sanitize_shape (raw : jsstring) :
  numeric_shape (Inspector.sanitizeNumericInput raw).
Proof. rewrite sanitize_kept. apply (kept_shape _ false). Qed.

Lemma sanitize_fixed (s : jsstring) :
  numeric_shape s -> Inspector.sanitizeNumericInput s = s.
Proof.
  intros [Hf Hc]. rewrite sanitize_kept, (replace_first_fixed s Hf).
  apply kept_fixed; assumption.
Qed.

(** X11. A sanitised input is made of digits with at most one dot among
    them, and it holds the digits of the raw input, all of them and in
    their order. *)
Theorem sanitized_is_numeric :
  forall raw : jsstring,
    let out := Inspector.sanitizeNumericInput raw in
    Forall (fun c => is_digit c = true \/ c = 46%N) out
    /\ count_occ N.eq_dec out 46%N <= 1
    /\ List.filter is_digit out = List.filter is_digit raw.
Proof.
  intros raw out. destruct (sanitize_shape raw) as [Hf Hc].
  split; [exact Hf|]. split; [exact Hc|].
  unfold out. rewrite sanitize_kept, kept_digits. apply replace_first_digits.
Qed.

(** X12. Sanitising leaves a string as it is exactly when the string is
    made of digits with at most one dot; hence sanitising twice is
    sanitising once. *)
Theorem sanitize_fixed_points :
  forall s : jsstring,
    (Inspector.sanitizeNumericInput s = s <-> numeric_shape s)
    /\ Inspector.sanitizeNumericInput (Inspector.sanitizeNumericInput s)
       = Inspector.sanitizeNumericInput s.
Proof.
  intros s. split.
  - split; [intros <-; apply sanitize_shape | apply sanitize_fixed].
  - apply sanitize_fixed, sanitize_shape.
Qed.

(** ** A sanitised value and the parameter check *)

Lemma kept_empty (s : jsstring) :
  kept false s = [] <-> Forall (fun c => is_digit c = false /\ c <> 46%N) s.
Proof.
  induction s as [|ch s IH]; simpl.
  - split; [constructor | reflexivity].
  - destruct (is_digit ch) eqn:Ed.
    + split; [discriminate|]. intros H. inversion H as [|? ? [Hd _] _]. congruence.
    + destruct (N.eqb ch 46) eqn:E46; simpl.
      * split; [discriminate|]. intros H. inversion H as [|? ? [_ Hn] _].
        apply N.eqb_eq in E46. contradiction.
      * rewrite IH. apply N.eqb_neq in E46. split.
        -- intros H. constructor; auto.
        -- intros H. inversion H; assumption.
Qed.

Lemma sanitize_empty (raw : jsstring) :
  Inspector.sanitizeNumericInput raw = [] <-> existsb is_numeric_char raw = false.
Proof.
  rewrite sanitize_kept, kept_empty.
  induction raw as [|ch raw IH]; simpl.
  - split; [reflexivity | constructor].
  - unfold is_numeric_char at 1. destruct (N.eqb ch 44) eqn:E44.
    + rewrite orb_true_r. simpl. split; [|discriminate].
      intros H. inversion H as [|? ? [_ Hn] _]. contradiction Hn. reflexivity.
    + rewrite orb_false_r. split.
      * intros H. inversion H as [|? ? [Hd Hn] Hs]; subst.
        rewrite Hd. apply N.eqb_neq in Hn. rewrite Hn. simpl. apply IH, Hs.
      * intros H. apply orb_false_iff in H. destruct H as [H1 H2].
        apply orb_false_iff in H1. destruct H1 as [Hd Hn].
        constructor; [split; [exact Hd | apply N.eqb_neq, Hn] | apply IH, H2].
Qed.

Lemma numeric_not_white (c : N) :
  is_digit c = true \/ c = 46%N -> is_white_space c = false.
Proof.
  intros [H | ->]; [|reflexivity].
  unfold is_digit in H. apply andb_true_iff in H. destruct H as [H1 H2].
  apply N.leb_le in H1, H2. unfold is_white_space.
  repeat match goal with
         | |- context [N.eqb c ?k] =>
             replace (N.eqb c k) with false by (symmetry; apply N.eqb_neq; lia)
         end.
  replace (N.leb 8192 c) with false by (symmetry; apply N.leb_gt; lia).
  reflexivity.
Qed.

Lemma numeric_blank (s : jsstring) :
  Forall (fun c => is_digit c = true \/ c = 46%N) s ->
  blank s = is_empty s.
Proof.
  intros H. destruct H as [|c s Hc _]; [reflexivity|].
  simpl. rewrite (numeric_not_white c Hc). reflexivity.
Qed.

Lemma has_text_sanitized (raw : jsstring) :
  has_text (Some (Inspector.sanitizeNumericInput raw)) = existsb is_numeric_char raw.
Proof.
  simpl. rewrite trim_empty, (numeric_blank _ (proj1 (sanitize_shape raw))).
  destruct (existsb is_numeric_char raw) eqn:E.
  - destruct (Inspector.sanitizeNumericInput raw) eqn:Es; [|reflexivity].
    apply sanitize_empty in Es. congruence.
  - apply sanitize_empty in E. rewrite E. reflexivity.
Qed.

(** X13. Typing into the value input of a passive component stores the
    sanitised text as its value, and the component then passes the
    parameter check exactly when the text typed holds a digit, a dot or a
    comma; a dot alone is enough. *)
Theorem value_input_and_check :
  forall (Pin : Type) (comp : ComponentOf Pin) (f : Inspector.Form),
    is_passive (type comp) = true ->
    Inspector.currentComponentType f = Some (type comp) ->
    exists patch,
      snd (Inspector.onValueInput f) = Some patch
      /\ Inspector.valueInput (fst (Inspector.onValueInput f))
         = Inspector.sanitizeNumericInput (Inspector.valueInput f)
      /\ value (Inspector.apply_patch comp patch)
         = Some (Inspector.sanitizeNumericInput (Inspector.valueInput f))
      /\ type (Inspector.apply_patch comp patch) = type comp
      /\ (getMissingParamReason (Inspector.apply_patch comp patch) = None
          <-> existsb is_numeric_char (Inspector.valueInput f) = true).
Proof.
  intros Pin comp f Hp Ht.
  assert (Hs : Inspector.isSource f = false).
  { unfold Inspector.isSource. rewrite Ht. unfold is_passive in Hp.
    destruct (eqb (type comp) (lit "voltage_source")) eqn:E1;
      [apply eqb_eq in E1; rewrite E1 in Hp; discriminate Hp|].
    destruct (eqb (type comp) (lit "current_source")) eqn:E2;
      [apply eqb_eq in E2; rewrite E2 in Hp; discriminate Hp|].
    reflexivity. }
  unfold Inspector.onValueInput. rewrite Hs. cbn [fst snd].
  eexists. split; [reflexivity|]. cbn [Inspector.valueInput].
  split; [reflexivity|]. split; [reflexivity|]. split; [reflexivity|].
  rewrite reason_passive by exact Hp.
  cbn [value Inspector.apply_patch Inspector.p_value Inspector.patch_or].
  rewrite has_text_sanitized.
  destruct (existsb is_numeric_char (Inspector.valueInput f)); split;
    congruence.
Qed.

(** The witness: a dot typed as the value of a resistor. *)
Lemma value_input_and_check_witness :
  let comp := bare "resistor" origin (mkPoint 30 4) in
  let f := Inspector.renderComponent comp in
  let typed := Inspector.mkForm (Inspector.currentComponentId f)
                 (Inspector.currentComponentType f) (Inspector.labelInput f)
                 (lit "a.b") (Inspector.currentInput f) (Inspector.voltageInput f)
                 (Inspector.currentUnknownInput f) (Inspector.voltageUnknownInput f) in
  exists patch,
    snd (Inspector.onValueInput typed) = Some patch
    /\ value (Inspector.apply_patch comp patch) = Some (lit ".")
    /\ getMissingParamReason (Inspector.apply_patch comp patch) = None.
Proof.
  intros comp f typed.
  destruct (value_input_and_check Point comp typed eq_refl eq_refl)
    as (patch & Hp & _ & Hv & _ & Hr).
  exists patch. split; [exact Hp|]. split; [exact Hv|].
  apply Hr. reflexivity.
Defined.

(** ** The unknown check boxes of a source *)

(** What either check box listener leaves, for a source. *)
Lemma source_toggle (f : Inspector.Form) (box : Box) :
  Inspector.isSource f = true ->
  exists cu vu,
    cu = negb vu
    /\ match box with CurrentBox => cu | VoltageBox => vu end = checked box f
    /\ onChange box f
       = (Inspector.mkForm (Inspector.currentComponentId f)
            (Inspector.currentComponentType f) (Inspector.labelInput f)
            (Inspector.valueInput f)
            (if cu then [] else Inspector.currentInput f)
            (if vu then [] else Inspector.voltageInput f) cu vu,
          Some (Inspector.mkPatch None None
                  (Some (if cu then []
                         else Inspector.sanitizeNumericInput (Inspector.currentInput f)))
                  (Some (if vu then []
                         else Inspector.sanitizeNumericInput (Inspector.voltageInput f)))
                  (Some cu) (Some vu))).
Proof.
  intros Hs. destruct box; simpl.
  - unfold Inspector.onCurrentUnknownChange. rewrite Hs.
    destruct (Inspector.currentUnknownInput f) eqn:Ec.
    + exists true, false. repeat split.
    + destruct (Inspector.voltageUnknownInput f) eqn:Ev;
        exists false, true; repeat split.
  - unfold Inspector.onVoltageUnknownChange. rewrite Hs.
    destruct (Inspector.voltageUnknownInput f) eqn:Ev.
    + exists false, true. repeat split.
    + destruct (Inspector.currentUnknownInput f) eqn:Ec;
        exists true, false; repeat split.
Qed.

(** X14. For a source, each of the two check box listeners leaves exactly
    one box checked and passes both flags on: the box the user changed
    keeps the state the user gave it and the other box gets the opposite
    one. The input of the unknown quantity is emptied and stored as the
    empty string; the other quantity is stored sanitised. *)
Theorem source_toggle_one_unknown :
  forall (f : Inspector.Form) (box : Box),
    Inspector.isSource f = true ->
    let after := fst (onChange box f) in
    let cu := Inspector.currentUnknownInput after in
    let vu := Inspector.voltageUnknownInput after in
    exists patch,
      snd (onChange box f) = Some patch
      /\ cu = negb vu
      /\ checked box after = checked box f
      /\ Inspector.p_currentUnknown patch = Some cu
      /\ Inspector.p_voltageUnknown patch = Some vu
      /\ Inspector.currentInput after = (if cu then [] else Inspector.currentInput f)
      /\ Inspector.voltageInput after = (if vu then [] else Inspector.voltageInput f)
      /\ Inspector.p_current patch
         = Some (if cu then []
                 else Inspector.sanitizeNumericInput (Inspector.currentInput f))
      /\ Inspector.p_voltage patch
         = Some (if vu then []
                 else Inspector.sanitizeNumericInput (Inspector.voltageInput f))
      /\ Inspector.p_label patch = None /\ Inspector.p_value patch = None.
Proof.
  intros f box Hs.
  destruct (source_toggle f box Hs) as (cu & vu & Hx & Hb & ->).
  cbn [fst snd Inspector.currentUnknownInput Inspector.voltageUnknownInput
       Inspector.currentInput Inspector.voltageInput].
  eexists. split; [reflexivity|]. split; [exact Hx|]. split.
  - rewrite <- Hb. destruct box; reflexivity.
  - repeat split.
Qed.

(** The witness: "current unknown" is unchecked on a current source whose
    other box was unchecked too. *)
Lemma source_toggle_one_unknown_witness :
  let f := Inspector.mkForm (Some (lit "c")) (Some (lit "current_source"))
             [] [] (lit "2,5") (lit "1") false false in
  exists patch,
    snd (onChange CurrentBox f) = Some patch
    /\ Inspector.p_currentUnknown patch = Some false
    /\ Inspector.p_voltageUnknown patch = Some true
    /\ Inspector.p_current patch = Some (lit "2.5")
    /\ Inspector.p_voltage patch = Some [].
Proof.
  intros f.
  destruct (source_toggle_one_unknown f CurrentBox eq_refl)
    as (patch & Hp & _ & _ & Hcu & Hvu & _ & _ & Hc & Hv & _).
  exists patch. split; [exact Hp|]. repeat split; assumption.
Defined.

Lemma has_text_nil : has_text (Some []) = false.
Proof. reflexivity. Qed.

(** X15. After a check box listener has patched a source, the parameter
    check and the normalisation of the analysis agree with the boxes: a
    voltage source passes the check exactly when "voltage unknown" is
    unchecked and the voltage input holds a digit, a dot or a comma, a
    current source when the same holds of the current, and normalising
    the patched source does not change the outcome of the check. *)
Theorem toggled_source_and_check :
  forall (Pin : Type) (comp : ComponentOf Pin) (f : Inspector.Form) (box : Box),
    is_source (type comp) = true ->
    Inspector.currentComponentType f = Some (type comp) ->
    exists patch,
      snd (onChange box f) = Some patch
      /\ let patched := Inspector.apply_patch comp patch in
         let after := fst (onChange box f) in
         (type comp = lit "voltage_source" ->
            (getMissingParamReason patched = None
             <-> Inspector.voltageUnknownInput after = false
                 /\ existsb is_numeric_char (Inspector.voltageInput f) = true))
         /\ (type comp = lit "current_source" ->
            (getMissingParamReason patched = None
             <-> Inspector.currentUnknownInput after = false
                 /\ existsb is_numeric_char (Inspector.currentInput f) = true))
         /\ getMissingParamReason (normalizeComponent patched)
            = getMissingParamReason patched.
Proof.
  intros Pin comp f box Hsrc Ht.
  assert (Hs : Inspector.isSource f = true)
    by (unfold Inspector.isSource; rewrite Ht; exact Hsrc).
  destruct (source_toggle f box Hs) as (cu & vu & Hx & _ & ->).
  cbn [fst snd]. eexists. split; [reflexivity|].
  cbn [Inspector.currentUnknownInput Inspector.voltageUnknownInput].
  set (patched := Inspector.apply_patch comp _).
  assert (Hty : type patched = type comp) by reflexivity.
  assert (Hvu : voltageUnknown patched = Some vu) by reflexivity.
  assert (Hcu : currentUnknown patched = Some cu) by reflexivity.
  assert (Hv : voltage patched
               = Some (if vu then []
                       else Inspector.sanitizeNumericInput (Inspector.voltageInput f)))
    by reflexivity.
  assert (Hc : current patched
               = Some (if cu then []
                       else Inspector.sanitizeNumericInput (Inspector.currentInput f)))
    by reflexivity.
  clearbody patched.
  assert (Rv : type comp = lit "voltage_source" ->
               getMissingParamReason patched
               = if vu || negb (existsb is_numeric_char (Inspector.voltageInput f))
                 then Some (lit "tensione") else None).
  { intros E. rewrite reason_voltage_source by congruence. rewrite Hvu, Hv.
    destruct vu; [reflexivity|]. rewrite has_text_sanitized. reflexivity. }
  assert (Rc : type comp = lit "current_source" ->
               getMissingParamReason patched
               = if cu || negb (existsb is_numeric_char (Inspector.currentInput f))
                 then Some (lit "corrente") else None).
  { intros E. rewrite reason_current_source by congruence. rewrite Hcu, Hc.
    destruct cu; [reflexivity|]. rewrite has_text_sanitized. reflexivity. }
  split; [|split].
  - intros E. rewrite (Rv E).
    destruct vu, (existsb is_numeric_char (Inspector.voltageInput f)); simpl;
      split; try discriminate; try tauto; intros [? ?]; discriminate.
  - intros E. rewrite (Rc E).
    destruct cu, (existsb is_numeric_char (Inspector.currentInput f)); simpl;
      split; try discriminate; try tauto; intros [? ?]; discriminate.
  - unfold is_source in Hsrc. apply orb_true_iff in Hsrc.
    destruct Hsrc as [E | E]; apply eqb_eq in E.
    + assert (E' : type patched = lit "voltage_source") by congruence.
      destruct (normalize_voltage_source Pin patched E') as (Nt & Nv & Nvu & _).
      rewrite (reason_voltage_source Pin _ Nt), Nvu, Nv.
      rewrite (reason_voltage_source Pin _ E'), Hvu, Hv.
      destruct vu; [reflexivity|].
      match goal with
      | |- context [has_text ?x] => destruct (has_text x)
      end; reflexivity.
    + assert (E' : type patched = lit "current_source") by congruence.
      destruct (normalize_current_source Pin patched E') as (Nt & Nc & Ncu & _).
      rewrite (reason_current_source Pin _ Nt), Ncu, Nc.
      rewrite (reason_current_source Pin _ E'), Hcu, Hc.
      destruct cu; [reflexivity|].
      match goal with
      | |- context [has_text ?x] => destruct (has_text x)
      end; reflexivity.
Qed.

(** The witness: "voltage unknown" is unchecked on a voltage source whose
    voltage input holds a number. *)
Lemma toggled_source_and_check_witness :
  let comp := bare "voltage_source" origin (mkPoint 30 4) in
  let f := Inspector.mkForm (Some (lit "c")) (Some (lit "voltage_source"))
             [] [] [] (lit "12") true false in
  exists patch,
    snd (onChange VoltageBox f) = Some patch
    /\ getMissingParamReason (Inspector.apply_patch comp patch) = None.
Proof.
  intros comp f.
  destruct (toggled_source_and_check Point comp f VoltageBox eq_refl eq_refl)
    as (patch & Hp & Hv & _ & _).
  exists patch. split; [exact Hp|].
  apply (Hv eq_refl). split; reflexivity.
Defined.

(* ------------------------------------------------------------------ *)
(** * The canvas controller *)

(** ** Numerals *)

Lemma uint_of_digits_string (d : Decimal.uint) :
  uint_of_digits (lit (NilEmpty.string_of_uint d)) = d.
Proof. unfold lit. induction d; simpl; try rewrite IHd; reflexivity. Qed.

Lemma Number_of_N (n : N) : Number_of_digits (of_N n) = n.
Proof.
  unfold Number_of_digits, of_N. rewrite uint_of_digits_string.
  apply DecimalN.Unsigned.of_to.
Qed.

Lemma digits_of_uint (d : Decimal.uint) :
  forallb is_digit (lit (NilEmpty.string_of_uint d)) = true.
Proof. unfold lit. induction d; simpl; try rewrite IHd; reflexivity. Qed.

Lemma of_N_nonempty (n : N) : is_empty (of_N n) = false.
Proof.
  unfold of_N. destruct n as [|p]; [reflexivity|]. simpl.
  pose proof (DecimalPos.Unsigned.to_uint_nonnil p) as H.
  destruct (Pos.to_uint p); [contradiction H; reflexivity | reflexivity ..].
Qed.

Lemma of_N_digits (n : N) : forallb is_digit (of_N n) = true.
Proof. apply digits_of_uint. Qed.

(** ** Labels *)

Lemma prefix_cases (ty prefix : jsstring) :
  Canvas.getLabelPrefix ty = Some prefix ->
  exists c, prefix = [c] /\ is_upper c = true.
Proof.
  unfold Canvas.getLabelPrefix.
  repeat match goal with
         | |- context [if ?b then _ else _] => destruct b
         end; intros [= <-]; eexists; split; reflexivity.
Qed.

Lemma match_label_new (c : N) (n : N) :
  is_upper c = true ->
  Canvas.match_label ([c] ++ of_N n) = Some ([c], of_N n).
Proof.
  intros Hc. simpl. rewrite Hc, of_N_nonempty, of_N_digits. reflexivity.
Qed.

Lemma maxIndex_step_le (prefix : jsstring) (m : N) (comp : Canvas.Component) :
  (m <= Canvas.maxIndex_step prefix m comp)%N.
Proof.
  unfold Canvas.maxIndex_step.
  destruct (Canvas.truthy_label comp) as [l|]; [|lia].
  destruct (Canvas.match_label l) as [[letter digits]|]; [|lia].
  destruct (negb (eqb letter prefix)); lia.
Qed.

Lemma fold_maxIndex_le (prefix : jsstring) (existing : list Canvas.Component) :
  forall m, (m <= fold_left (Canvas.maxIndex_step prefix) existing m)%N.
Proof.
  induction existing as [|comp rest IH]; intros m; simpl; [lia|].
  pose proof (maxIndex_step_le prefix m comp). pose proof (IH (Canvas.maxIndex_step prefix m comp)).
  lia.
Qed.

(** The index found is at least the number of every label with the prefix. *)
Lemma maxIndex_bound (prefix : jsstring) (existing : list Canvas.Component)
    (comp : Canvas.Component) (l digits : jsstring) :
  In comp existing ->
  Canvas.truthy_label comp = Some l ->
  Canvas.match_label l = Some (prefix, digits) ->
  (Number_of_digits digits <= Canvas.maxIndex prefix existing)%N.
Proof.
  unfold Canvas.maxIndex. generalize 0%N.
  induction existing as [|c rest IH]; intros m Hin Hl Hm; [destruct Hin|].
  simpl. destruct Hin as [-> | Hin].
  - eapply N.le_trans; [|apply fold_maxIndex_le].
    unfold Canvas.maxIndex_step. rewrite Hl, Hm, eqb_refl. simpl. lia.
  - apply IH; assumption.
Qed.

Lemma has_label_In (used : list jsstring) (l : jsstring) :
  Canvas.has_label used l = true <-> In l used.
Proof.
  unfold Canvas.has_label. rewrite existsb_exists. split.
  - intros (x & Hx & He). apply eqb_eq in He. subst. exact Hx.
  - intros H. exists l. split; [exact H | apply eqb_refl].
Qed.

Lemma In_filter_truthy (xs : list (option jsstring)) (l : jsstring) :
  In l (filter_truthy xs) <-> In (Some l) xs /\ is_empty l = false.
Proof.
  induction xs as [|[s|] xs IH]; simpl.
  - tauto.
  - destruct (is_empty s) eqn:E; simpl; rewrite IH; split.
    + intros [H1 H2]. auto.
    + intros [[[= ->] | H1] H2]; [congruence | auto].
    + intros [-> | [H1 H2]]; auto.
    + intros [[[= ->] | H1] H2]; auto.
  - rewrite IH. split; [intros [H1 H2]; auto | intros [[H|H] H2]; [discriminate | auto]].
Qed.

Lemma usedLabels_In (existing : list Canvas.Component) (l : jsstring) :
  In l (Canvas.usedLabels existing)
  <-> exists comp, In comp existing /\ Canvas.truthy_label comp = Some l.
Proof.
  unfold Canvas.usedLabels. rewrite In_filter_truthy, in_map_iff. split.
  - intros ((comp & Hl & Hin) & He). exists comp. split; [exact Hin|].
    unfold Canvas.truthy_label. rewrite Hl, He. reflexivity.
  - intros (comp & Hin & Ht). unfold Canvas.truthy_label in Ht.
    destruct (label (Canvas.core comp)) as [l'|] eqn:El; [|discriminate Ht].
    destruct (is_empty l') eqn:Ee; [discriminate Ht|]. injection Ht as ->.
    split; [exists comp; auto | exact Ee].
Qed.

(** The label made of the prefix and the successor of the index found is
    the label of no component. *)
Lemma new_label_unused (ty prefix : jsstring) (existing : list Canvas.Component) :
  Canvas.getLabelPrefix ty = Some prefix ->
  Canvas.has_label (Canvas.usedLabels existing)
    (prefix ++ of_N (Canvas.maxIndex prefix existing + 1)) = false.
Proof.
  intros Hp. destruct (prefix_cases ty prefix Hp) as (c & -> & Hc).
  destruct (Canvas.has_label _ _) eqn:E; [|reflexivity]. exfalso.
  apply has_label_In, usedLabels_In in E. destruct E as (comp & Hin & Hl).
  pose proof (maxIndex_bound [c] existing comp _ _ Hin Hl (match_label_new c _ Hc)) as H.
  rewrite Number_of_N in H. lia.
Qed.

Lemma relabel_fields (c : Canvas.Component) (l : jsstring) :
  label (Canvas.core (Canvas.relabel c l)) = Some l
  /\ id (Canvas.core (Canvas.relabel c l)) = id (Canvas.core c)
  /\ type (Canvas.core (Canvas.relabel c l)) = type (Canvas.core c)
  /\ pinA (Canvas.core (Canvas.relabel c l)) = pinA (Canvas.core c)
  /\ pinB (Canvas.core (Canvas.relabel c l)) = pinB (Canvas.core c)
  /\ Canvas.rotation (Canvas.relabel c l) = Canvas.rotation c.
Proof. repeat split. Qed.

(** What [buildLabeledComponent] returns for a kind that gets a label. *)
Lemma built_label (c : Canvas.Component) (existing : list Canvas.Component)
    (prefix : jsstring) :
  Canvas.getLabelPrefix (type (Canvas.core c)) = Some prefix ->
  exists l digits,
    Canvas.truthy_label (Canvas.buildLabeledComponent c existing) = Some l
    /\ Canvas.match_label l = Some (prefix, digits)
    /\ Canvas.has_label (Canvas.usedLabels existing) l = false
    /\ (Canvas.buildLabeledComponent c existing = c
        \/ (l = prefix ++ of_N (Canvas.maxIndex prefix existing + 1)
            /\ Canvas.buildLabeledComponent c existing = Canvas.relabel c l)).
Proof.
  intros Hp. unfold Canvas.buildLabeledComponent. rewrite Hp.
  destruct (prefix_cases _ _ Hp) as (u & -> & Hu).
  assert (New : exists l digits,
             Canvas.truthy_label
               (Canvas.relabel c ([u] ++ of_N (Canvas.maxIndex [u] existing + 1)))
             = Some l
             /\ Canvas.match_label l = Some ([u], digits)
             /\ Canvas.has_label (Canvas.usedLabels existing) l = false
             /\ l = [u] ++ of_N (Canvas.maxIndex [u] existing + 1)).
  { eexists; eexists. split; [reflexivity|]. split; [apply match_label_new, Hu|].
    split; [apply (new_label_unused _ _ _ Hp) | reflexivity]. }
  destruct (Canvas.truthy_label c) as [l|] eqn:El.
  - destruct (Canvas.match_label l) as [[letter digits]|] eqn:Em.
    + destruct (eqb letter [u]) eqn:Ee; simpl.
      * destruct (Canvas.has_label (Canvas.usedLabels existing) l) eqn:Eh; simpl.
        -- destruct New as (l' & d' & H1 & H2 & H3 & H4).
           exists l', d'. repeat split; try assumption. right. subst l'. auto.
        -- apply eqb_eq in Ee. subst letter.
           exists l, digits. repeat split; try assumption. left; reflexivity.
      * destruct New as (l' & d' & H1 & H2 & H3 & H4).
        exists l', d'. repeat split; try assumption. right. subst l'. auto.
    + destruct New as (l' & d' & H1 & H2 & H3 & H4).
      exists l', d'. repeat split; try assumption. right. subst l'. auto.
  - destruct New as (l' & d' & H1 & H2 & H3 & H4).
    exists l', d'. repeat split; try assumption. right. subst l'. auto.
Qed.

(** X16. The label of a new component is fresh. For a component of one
    of the five kinds that get a label, and existing components whose
    label numbers are below 2^53, [buildLabeledComponent] returns a
    component whose label is the letter of the kind followed by digits and
    is the label of no existing component; the identifier, the type, the
    pins and the rotation are those given. In particular a clone, which
    comes with the label of its original, gets another label. *)
Theorem new_label_is_fresh :
  forall (c : Canvas.Component) (existing : list Canvas.Component) (prefix : jsstring),
    safe_labels existing ->
    Canvas.getLabelPrefix (type (Canvas.core c)) = Some prefix ->
    let built := Canvas.buildLabeledComponent c existing in
    exists l digits,
      label (Canvas.core built) = Some l
      /\ l = prefix ++ digits
      /\ digits <> [] /\ forallb is_digit digits = true
      /\ (forall comp, In comp existing -> label (Canvas.core comp) <> Some l)
      /\ id (Canvas.core built) = id (Canvas.core c)
      /\ type (Canvas.core built) = type (Canvas.core c)
      /\ pinA (Canvas.core built) = pinA (Canvas.core c)
      /\ pinB (Canvas.core built) = pinB (Canvas.core c)
      /\ Canvas.rotation built = Canvas.rotation c.
Proof.
  intros c existing prefix _ Hp built.
  destruct (built_label c existing prefix Hp) as (l & digits & Hl & Hm & Hu & Hb).
  fold built in Hl, Hb.
  assert (Hlab : label (Canvas.core built) = Some l /\ is_empty l = false).
  { unfold Canvas.truthy_label in Hl.
    destruct (label (Canvas.core built)) as [l'|]; [|discriminate Hl].
    destruct (is_empty l') eqn:E; [discriminate Hl|]. injection Hl as ->. auto. }
  destruct Hlab as [Hlab Hne].
  assert (Hshape : l = prefix ++ digits /\ digits <> []
                   /\ forallb is_digit digits = true).
  { unfold Canvas.match_label in Hm. destruct l as [|u ds]; [discriminate Hm|].
    destruct (is_upper u); [|discriminate Hm]. simpl in Hm.
    destruct (is_empty ds) eqn:E1; [discriminate Hm|]. simpl in Hm.
    destruct (forallb is_digit ds) eqn:E2; [|discriminate Hm].
    injection Hm as <- <-. split; [reflexivity|]. split; [|exact E2].
    intros ->. discriminate E1. }
  destruct Hshape as (Hs1 & Hs2 & Hs3).
  exists l, digits. split; [exact Hlab|]. split; [exact Hs1|].
  split; [exact Hs2|]. split; [exact Hs3|]. split.
  - intros comp Hin Hc.
    assert (In l (Canvas.usedLabels existing)).
    { apply usedLabels_In. exists comp. split; [exact Hin|].
      unfold Canvas.truthy_label. rewrite Hc, Hne. reflexivity. }
    apply has_label_In in H. congruence.
  - destruct Hb as [-> | [_ ->]]; [repeat split|].
    destruct (relabel_fields c l) as (_ & H1 & H2 & H3 & H4 & H5). auto.
Qed.

(** The witness: a clone of the resistor R1 is labelled R2. *)
Lemma new_label_is_fresh_witness :
  let r1 := Canvas.mkCanvasComponent
              (mkComponent (lit "a") (lit "resistor") origin (mkPoint 30 4)
                 (Some (lit "R1")) (Some (lit "100")) None None None None None None)
              None None in
  let clone := Canvas.mkCanvasComponent
                 (mkComponent (lit "b") (lit "resistor") (mkPoint 5 5) (mkPoint 35 9)
                    (Some (lit "R1")) (Some (lit "100")) None None None None None None)
                 None None in
  safe_labels [r1]
  /\ label (Canvas.core (Canvas.buildLabeledComponent clone [r1])) = Some (lit "R2")
  /\ exists l digits,
       label (Canvas.core (Canvas.buildLabeledComponent clone [r1])) = Some l
       /\ l = lit "R" ++ digits
       /\ (forall comp, In comp [r1] -> label (Canvas.core comp) <> Some l).
Proof.
  intros r1 clone.
  assert (Hs : safe_labels [r1]).
  { intros comp l letter digits [<- | []] Hl Hm.
    vm_compute in Hl. injection Hl as <-.
    vm_compute in Hm. injection Hm as <- <-. reflexivity. }
  split; [exact Hs|]. split; [reflexivity|].
  destruct (new_label_is_fresh clone [r1] (lit "R") Hs eq_refl)
    as (l & digits & H1 & H2 & _ & _ & H3 & _).
  exists l, digits. auto.
Defined.

Lemma trimStart_fixed (s : jsstring) :
  (forall c, In c s -> is_white_space c = false) -> trimStart s = s.
Proof.
  destruct s as [|c s]; [reflexivity|]. intros H. simpl.
  rewrite (H c) by (left; reflexivity). reflexivity.
Qed.

Lemma trim_fixed (s : jsstring) :
  (forall c, In c s -> is_white_space c = false) -> trim s = s.
Proof.
  intros H. unfold trim, trimEnd. rewrite (trimStart_fixed s H).
  rewrite trimStart_fixed; [apply rev_involutive|].
  intros c Hc. apply H, in_rev, Hc.
Qed.

Lemma upper_not_white (c : N) : is_upper c = true -> is_white_space c = false.
Proof.
  intros H. unfold is_upper in H. apply andb_true_iff in H. destruct H as [H1 H2].
  apply N.leb_le in H1, H2. unfold is_white_space.
  repeat match goal with
         | |- context [N.eqb c ?k] =>
             replace (N.eqb c k) with false by (symmetry; apply N.eqb_neq; lia)
         end.
  replace (N.leb 8192 c) with false by (symmetry; apply N.leb_gt; lia).
  reflexivity.
Qed.

Lemma label_trim (l letter digits : jsstring) :
  Canvas.match_label l = Some (letter, digits) -> trim l = l /\ is_empty l = false.
Proof.
  unfold Canvas.match_label. destruct l as [|u ds]; [discriminate|].
  destruct (is_upper u) eqn:Eu; [|discriminate]. simpl.
  destruct (is_empty ds); [discriminate|]. simpl.
  destruct (forallb is_digit ds) eqn:Ed; [|discriminate]. intros _.
  split; [|reflexivity]. apply trim_fixed. intros c [<- | Hc].
  - apply upper_not_white, Eu.
  - apply numeric_not_white. left.
    rewrite forallb_forall in Ed. apply Ed, Hc.
Qed.

(** X17. A component that [buildLabeledComponent] has labelled is named
    by its label in the reports of both validators, whatever its position
    in the list: the label has no white space around it and is not empty. *)
Theorem labelled_component_name :
  forall (toUpperCase : jsstring -> jsstring) (c : Canvas.Component)
         (existing : list Canvas.Component) (prefix : jsstring) (index : nat),
    safe_labels existing ->
    Canvas.getLabelPrefix (type (Canvas.core c)) = Some prefix ->
    let built := Canvas.core (Canvas.buildLabeledComponent c existing) in
    exists l,
      label built = Some l
      /\ canonicalLabel toUpperCase built index = l
      /\ (forall reason, getMissingParamReason built = Some reason ->
            missing_entry toUpperCase built index
            = Some (l ++ lit " (" ++ reason ++ lit ")")).
Proof.
  intros up c existing prefix index _ Hp built.
  destruct (built_label c existing prefix Hp) as (l & digits & Hl & Hm & _ & _).
  destruct (label_trim l prefix digits Hm) as [Ht He].
  assert (Hlab : label built = Some l).
  { unfold Canvas.truthy_label in Hl. fold built in Hl.
    destruct (label built) as [l'|]; [|discriminate Hl].
    destruct (is_empty l'); [discriminate Hl | exact Hl]. }
  assert (Hc : canonicalLabel up built index = l).
  { unfold canonicalLabel. rewrite Hlab. simpl. rewrite Ht, He. reflexivity. }
  exists l. split; [exact Hlab|]. split; [exact Hc|].
  intros reason Hr. rewrite (missing_entry_some Point up built index reason Hr), Hc.
  reflexivity.
Qed.

(** The witness: a resistor that comes without a label and without a
    value is reported as "R1 (valore)". *)
Lemma labelled_component_name_witness :
  let c := Canvas.mkCanvasComponent (bare "resistor" origin (mkPoint 30 4)) None None in
  let built := Canvas.core (Canvas.buildLabeledComponent c []) in
  safe_labels []
  /\ exists l,
       label built = Some l
       /\ canonicalLabel ascii_upper built 0 = l
       /\ l = lit "R1".
Proof.
  intros c built.
  assert (Hs : safe_labels []) by (intros comp l letter digits []).
  split; [exact Hs|].
  destruct (labelled_component_name ascii_upper c [] (lit "R") 0 Hs eq_refl)
    as (l & Hl & Hc & _).
  exists l. split; [exact Hl|]. split; [exact Hc|].
  vm_compute in Hl. injection Hl as <-. reflexivity.
Defined.

(** ** Undo and redo *)

Lemma last_snoc {A : Type} (xs : list A) (x : A) :
  nth_error (xs ++ [x]) (List.length (xs ++ [x]) - 1) = Some x
  /\ firstn (List.length (xs ++ [x]) - 1) (xs ++ [x]) = xs.
Proof.
  rewrite length_app. simpl.
  replace (List.length xs + 1 - 1) with (List.length xs) by lia. split.
  - rewrite nth_error_app2 by lia. rewrite Nat.sub_diag. reflexivity.
  - rewrite firstn_app, Nat.sub_diag, firstn_all. simpl. apply app_nil_r.
Qed.

Lemma undo_snoc (rendered s : Canvas.State) (us : list (list Canvas.Component))
    (snapshot : list Canvas.Component) :
  Canvas.undoStack rendered = us ++ [snapshot] ->
  Canvas.undo rendered s
  = Canvas.mkState snapshot
      (firstn (List.length (Canvas.undoStack s) - 1) (Canvas.undoStack s))
      (Canvas.components rendered :: Canvas.redoStack s)
      (Canvas.selectedIds s) (Canvas.wireMode s) (Canvas.cloneMode s)
      (Canvas.eraseMode s) (Canvas.draftWire s).
Proof.
  intros H. unfold Canvas.undo. rewrite H.
  destruct (last_snoc us snapshot) as [H1 _]. rewrite H1.
  rewrite length_app. simpl.
  replace (Nat.eqb (List.length us + 1) 0) with false
    by (symmetry; apply Nat.eqb_neq; lia).
  reflexivity.
Qed.

Lemma undo_latest_snoc (s : Canvas.State) (us : list (list Canvas.Component))
    (snapshot : list Canvas.Component) :
  Canvas.undoStack s = us ++ [snapshot] ->
  undo_latest s
  = Canvas.mkState snapshot us (Canvas.components s :: Canvas.redoStack s)
      (Canvas.selectedIds s) (Canvas.wireMode s) (Canvas.cloneMode s)
      (Canvas.eraseMode s) (Canvas.draftWire s).
Proof.
  intros H. unfold undo_latest. rewrite (undo_snoc s s us snapshot H).
  rewrite H. destruct (last_snoc us snapshot) as [_ H2]. rewrite H2. reflexivity.
Qed.

Lemma undo_nothing (rendered s : Canvas.State) :
  Canvas.undoStack rendered = [] -> Canvas.undo rendered s = s.
Proof. intros H. unfold Canvas.undo. rewrite H. reflexivity. Qed.

Lemma state_eta (s : Canvas.State) :
  Canvas.mkState (Canvas.components s) (Canvas.undoStack s) (Canvas.redoStack s)
    (Canvas.selectedIds s) (Canvas.wireMode s) (Canvas.cloneMode s)
    (Canvas.eraseMode s) (Canvas.draftWire s) = s.
Proof. destruct s; reflexivity. Qed.

Lemma redo_undo (s : Canvas.State) :
  Canvas.undoStack s <> [] -> Canvas.redo (undo_latest s) = s.
Proof.
  intros H. destruct (exists_last H) as (us & snapshot & E).
  rewrite (undo_latest_snoc s us snapshot E). unfold Canvas.redo. simpl.
  rewrite <- E. apply state_eta.
Qed.

Lemma undo_redo (s : Canvas.State) :
  Canvas.redoStack s <> [] -> undo_latest (Canvas.redo s) = s.
Proof.
  intros H. unfold Canvas.redo.
  destruct (Canvas.redoStack s) as [|head rest] eqn:E; [contradiction H; reflexivity|].
  erewrite undo_latest_snoc by reflexivity. simpl.
  rewrite <- E. apply state_eta.
Qed.

(** X18. Undo and redo are inverse to each other when [undo] is called on
    the controller object of the latest render: redoing what was just
    undone, and undoing what was just redone, gives back the whole state
    of the canvas, both stacks included, and redo with nothing to redo
    leaves the state as it is. Called on a controller object whose render
    had nothing to undo, [undo] does nothing, whatever has been done
    since: this is the object that the start-up code hands to the
    keyboard shortcuts, once. *)
Theorem undo_redo_round_trip :
  forall s rendered : Canvas.State,
    (Canvas.undoStack s <> [] -> Canvas.redo (Canvas.undo s s) = s)
    /\ (Canvas.redoStack s <> [] ->
        Canvas.undo (Canvas.redo s) (Canvas.redo s) = s)
    /\ (Canvas.redoStack s = [] -> Canvas.redo s = s)
    /\ (Canvas.undoStack rendered = [] -> Canvas.undo rendered s = s)
    /\ Canvas.undo Canvas.initial s = s.
Proof.
  intros s rendered. split; [apply redo_undo|]. split; [apply undo_redo|]. split.
  - intros H. unfold Canvas.redo. rewrite H. reflexivity.
  - split; [apply undo_nothing | apply undo_nothing; reflexivity].
Qed.

Lemma edit_snapshot (e : Edit) (s : Canvas.State) :
  takes_snapshot e s = true ->
  Canvas.undoStack (run_edit e s) = Canvas.undoStack s ++ [Canvas.components s]
  /\ Canvas.redoStack (run_edit e s) = Canvas.redoStack s.
Proof.
  destruct e as [c| |]; simpl.
  - intros _. split; reflexivity.
  - unfold Canvas.removeSelected. intros H. apply negb_true_iff in H. rewrite H.
    split; reflexivity.
  - unfold Canvas.clearCircuit. intros H. apply negb_true_iff in H. rewrite H.
    split; reflexivity.
Qed.

Lemma edit_nothing (e : Edit) (s : Canvas.State) :
  takes_snapshot e s = false -> run_edit e s = s.
Proof.
  destruct e as [c| |]; simpl.
  - discriminate.
  - unfold Canvas.removeSelected. intros H. apply negb_false_iff in H. rewrite H.
    reflexivity.
  - unfold Canvas.clearCircuit. intros H. apply negb_false_iff in H. rewrite H.
    reflexivity.
Qed.

Lemma iter_succ_r {A : Type} (f : A -> A) (n : nat) (x : A) :
  Nat.iter (S n) f x = Nat.iter n f (f x).
Proof. induction n as [|n IH]; [reflexivity|]. simpl in *. rewrite IH. reflexivity. Qed.

Lemma edits_undone (es : list Edit) :
  forall s,
    all_snapshots es s = true ->
    let after := run_edits es s in
    let undone := Nat.iter (List.length es) undo_latest after in
    Canvas.components undone = Canvas.components s
    /\ Canvas.undoStack undone = Canvas.undoStack s
    /\ Nat.iter (List.length es) Canvas.redo undone = after.
Proof.
  induction es as [|e es IH]; intros s H.
  - simpl. auto.
  - simpl in H. apply andb_true_iff in H. destruct H as [He Hes].
    destruct (IH (run_edit e s) Hes) as (Hc & Hu & Hr).
    destruct (edit_snapshot e s He) as [Hpush _].
    cbn zeta. cbn [run_edits List.length].
    set (u := Nat.iter (List.length es) undo_latest (run_edits es (run_edit e s))) in *.
    change (Nat.iter (S (List.length es)) undo_latest (run_edits es (run_edit e s)))
      with (undo_latest u).
    rewrite Hpush in Hu.
    rewrite iter_succ_r, redo_undo by (rewrite Hu; destruct (Canvas.undoStack s); discriminate).
    rewrite (undo_latest_snoc u _ _ Hu). simpl. auto.
Qed.

Lemma iter_nothing {A : Type} (f : A -> A) (n : nat) (x : A) :
  f x = x -> Nat.iter n f x = x.
Proof. intros H. induction n as [|n IH]; simpl; [reflexivity | rewrite IH; exact H]. Qed.

(** X19. Edits can be undone and redone through the controller object of
    the latest render. After any number of calls of [addComponent],
    [removeSelected] and [clearCircuit] that each had something to do, as
    many calls of [undo], each on the controller object built after the
    call before it, give back the components and the undo stack from
    before the edits, and as many calls of [redo] after that give back
    the state the edits had left. The same calls of [undo] on the
    controller object of the start-up, which is what the keyboard
    shortcuts call, undo nothing. An edit that has nothing to do (nothing
    selected, nothing to clear) leaves the state as it is and takes no
    snapshot. *)
Theorem edits_can_be_undone :
  forall (es : list Edit) (s : Canvas.State),
    all_snapshots es s = true ->
    let after := run_edits es s in
    let undone := Nat.iter (List.length es) (fun st => Canvas.undo st st) after in
    Canvas.components undone = Canvas.components s
    /\ Canvas.undoStack undone = Canvas.undoStack s
    /\ Nat.iter (List.length es) Canvas.redo undone = after
    /\ Nat.iter (List.length es) (Canvas.undo Canvas.initial) after = after
    /\ (forall e, takes_snapshot e s = false -> run_edit e s = s).
Proof.
  intros es s H after undone.
  destruct (edits_undone es s H) as (H1 & H2 & H3).
  split; [exact H1|]. split; [exact H2|]. split; [exact H3|]. split.
  - apply iter_nothing, undo_nothing. reflexivity.
  - intros e. apply edit_nothing.
Qed.

(** The witness: a resistor is added, everything is selected and removed,
    and both edits are undone. *)
Lemma edits_can_be_undone_witness :
  let c := Canvas.mkCanvasComponent (bare "resistor" origin (mkPoint 30 4)) None None in
  let s := Canvas.selectAll (Canvas.addComponent c Canvas.initial) in
  let es := [RemoveSelected; Add c] in
  let after := run_edits es s in
  all_snapshots es s = true
  /\ Canvas.components (undo_latest (undo_latest after)) = Canvas.components s
  /\ undo_startup (undo_startup after) = after
  /\ List.length (Canvas.components s) = 1
  /\ List.length (Canvas.components after) = 1.
Proof.
  intros c s es after.
  assert (H : all_snapshots es s = true) by reflexivity.
  split; [exact H|].
  destruct (edits_can_be_undone es s H) as (H1 & _ & _ & H4 & _).
  split; [exact H1|]. split; [exact H4|]. split; reflexivity.
Defined.

(** ** The tool modes *)

Lemma run_mode_one (c : ModeCall) (s : Canvas.State) :
  one_mode s -> one_mode (run_mode c s).
Proof.
  unfold one_mode. intros (H1 & H2 & H3).
  destruct c as [[|]|[|]|[|]]; simpl; repeat split; auto;
    try (rewrite andb_false_r; reflexivity).
Qed.

Lemma run_mode_circuit (c : ModeCall) (s : Canvas.State) :
  Canvas.components (run_mode c s) = Canvas.components s
  /\ Canvas.undoStack (run_mode c s) = Canvas.undoStack s
  /\ Canvas.redoStack (run_mode c s) = Canvas.redoStack s.
Proof. destruct c as [[|]|[|]|[|]]; repeat split. Qed.

(** X20. At most one of the wire, clone and erase modes is on: every call
    of a mode setter keeps it so, whatever its argument, and the initial
    state has no mode on. A click on a toggle button of the toolbar leaves
    the mode of that tool on and no other, whatever the modes were, and
    none for the pointer. The mode setters never change the circuit or
    the undo and redo stacks. *)
Theorem one_tool_mode :
  forall (calls : list ModeCall) (s : Canvas.State) (toolType : jsstring),
    one_mode Canvas.initial
    /\ (one_mode s -> one_mode (fold_left (fun st c => run_mode c st) calls s))
    /\ Canvas.components (fold_left (fun st c => run_mode c st) calls s)
       = Canvas.components s
    /\ (let clicked := Toolbar.toggleClick toolType s in
        Canvas.wireMode clicked = eqb toolType (lit "wire")
        /\ Canvas.cloneMode clicked = eqb toolType (lit "clone")
        /\ Canvas.eraseMode clicked = eqb toolType (lit "erase")
        /\ one_mode clicked
        /\ Canvas.components clicked = Canvas.components s
        /\ Canvas.undoStack clicked = Canvas.undoStack s).
Proof.
  intros calls s toolType. split; [repeat split|]. split; [|split].
  - revert s. induction calls as [|c calls IH]; intros s H; simpl; [exact H|].
    apply IH, run_mode_one, H.
  - revert s. induction calls as [|c calls IH]; intros s; simpl; [reflexivity|].
    rewrite IH. apply run_mode_circuit.
  - unfold Toolbar.toggleClick, one_mode.
    destruct (eqb toolType (lit "wire")) eqn:Ew.
    + apply eqb_eq in Ew. subst toolType. simpl. repeat split.
    + destruct (eqb toolType (lit "clone")) eqn:Ec.
      * apply eqb_eq in Ec. subst toolType. simpl. repeat split.
      * destruct (eqb toolType (lit "erase")) eqn:Ee; simpl; repeat split.
Qed.

(** ** Labels stay distinct *)

Lemma fresh_nil : fresh_labels [].
Proof. intros [|b before] c after H; discriminate H. Qed.

Lemma fresh_snoc (cs : list Canvas.Component) (x : Canvas.Component) :
  fresh_labels cs ->
  (Canvas.getLabelPrefix (type (Canvas.core x)) <> None ->
   exists l, Canvas.truthy_label x = Some l
             /\ Canvas.has_label (Canvas.usedLabels cs) l = false) ->
  fresh_labels (cs ++ [x]).
Proof.
  intros Hcs Hx before c after E Hp.
  destruct after as [|a after'] using rev_ind.
  - apply app_inj_tail in E. destruct E as [<- <-]. apply Hx, Hp.
  - clear IHafter'. rewrite app_comm_cons, app_assoc in E.
    apply app_inj_tail in E. destruct E as [E _].
    apply (Hcs before c after' E Hp).
Qed.

Lemma filter_split {A : Type} (p : A -> bool) (xs : list A) :
  forall before c after,
    List.filter p xs = before ++ c :: after ->
    exists b a, xs = b ++ c :: a /\ List.filter p b = before.
Proof.
  induction xs as [|x xs IH]; intros before c after E; simpl in E.
  - destruct before; discriminate E.
  - destruct (p x) eqn:Ep.
    + destruct before as [|b0 before'].
      * injection E as -> E. exists [], xs. split; reflexivity.
      * injection E as -> E. destruct (IH _ _ _ E) as (b & a & -> & Hb).
        exists (b0 :: b), a. split; [reflexivity|]. simpl. rewrite Ep, Hb. reflexivity.
    + destruct (IH _ _ _ E) as (b & a & -> & Hb).
      exists (x :: b), a. split; [reflexivity|]. simpl. rewrite Ep. exact Hb.
Qed.

Lemma has_label_filter (p : Canvas.Component -> bool) (cs : list Canvas.Component)
    (l : jsstring) :
  Canvas.has_label (Canvas.usedLabels cs) l = false ->
  Canvas.has_label (Canvas.usedLabels (List.filter p cs)) l = false.
Proof.
  intros H. destruct (Canvas.has_label (Canvas.usedLabels (List.filter p cs)) l) eqn:E;
    [|reflexivity].
  apply has_label_In, usedLabels_In in E. destruct E as (comp & Hin & Hl).
  apply filter_In in Hin. destruct Hin as [Hin _].
  assert (In l (Canvas.usedLabels cs)) by (apply usedLabels_In; eauto).
  apply has_label_In in H0. congruence.
Qed.

Lemma fresh_filter (p : Canvas.Component -> bool) (cs : list Canvas.Component) :
  fresh_labels cs -> fresh_labels (List.filter p cs).
Proof.
  intros Hcs before c after E Hp.
  destruct (filter_split p cs before c after E) as (b & a & Hx & <-).
  destruct (Hcs b c a Hx Hp) as (l & Hl & Hu).
  exists l. split; [exact Hl | apply has_label_filter, Hu].
Qed.

Lemma fresh_add (c : Canvas.Component) (cs : list Canvas.Component) :
  fresh_labels cs -> fresh_labels (cs ++ [Canvas.buildLabeledComponent c cs]).
Proof.
  intros H. apply fresh_snoc; [exact H|]. intros Hp.
  destruct (Canvas.getLabelPrefix (type (Canvas.core c))) as [prefix|] eqn:E.
  - destruct (built_label c cs prefix E) as (l & digits & Hl & _ & Hu & _). eauto.
  - contradiction Hp. unfold Canvas.buildLabeledComponent. rewrite E. exact E.
Qed.

Lemma fresh_distinct (cs : list Canvas.Component) :
  fresh_labels cs ->
  forall i j ci cj,
    i < j -> nth_error cs i = Some ci -> nth_error cs j = Some cj ->
    Canvas.getLabelPrefix (type (Canvas.core cj)) <> None ->
    label (Canvas.core ci) <> label (Canvas.core cj).
Proof.
  intros H i j ci cj Hij Hi Hj Hp Heq.
  destruct (nth_error_split cs j Hj) as (before & after & E & Hlen).
  destruct (H before cj after E Hp) as (l & Hl & Hu).
  assert (Hin : In ci before).
  { rewrite E in Hi. rewrite nth_error_app1 in Hi by lia.
    apply nth_error_In in Hi. exact Hi. }
  assert (In l (Canvas.usedLabels before)).
  { apply usedLabels_In. exists ci. split; [exact Hin|].
    unfold Canvas.truthy_label in *. rewrite Heq. exact Hl. }
  apply has_label_In in H0. congruence.
Qed.

Lemma kept_fresh_call (call : Call) (s : Canvas.State) :
  labels_kept_fresh s ->
  (forall rendered, call = CallUndo rendered -> labels_kept_fresh rendered) ->
  labels_kept_fresh (run_call call s).
Proof.
  intros (Hc & Hu & Hr) Hrendered. destruct call as [[c| |]|rendered| | |m]; simpl.
  - split; [apply fresh_add, Hc|]. split; [|exact Hr].
    apply Forall_app. split; [exact Hu | constructor; [exact Hc | constructor]].
  - unfold Canvas.removeSelected.
    destruct (Nat.eqb (List.length (Canvas.selectedIds s)) 0); [split; auto|].
    simpl. split; [apply fresh_filter, Hc|]. split; [|exact Hr].
    apply Forall_app. split; [exact Hu | constructor; [exact Hc | constructor]].
  - unfold Canvas.clearCircuit.
    destruct (Nat.eqb (List.length (Canvas.components s)) 0); [split; auto|].
    simpl. split; [apply fresh_nil|]. split; [|exact Hr].
    apply Forall_app. split; [exact Hu | constructor; [exact Hc | constructor]].
  - destruct (Hrendered rendered eq_refl) as (Rc & Ru & _).
    destruct (Canvas.undoStack rendered) as [|u0 us0] eqn:E.
    + rewrite (undo_nothing rendered s E). split; auto.
    + assert (Hne : Canvas.undoStack rendered <> []) by (rewrite E; discriminate).
      destruct (exists_last Hne) as (us & snapshot & E').
      rewrite (undo_snoc rendered s us snapshot E'). rewrite <- E, E' in Ru.
      apply Forall_app in Ru. destruct Ru as [_ Hsn]. inversion Hsn; subst.
      split; [assumption|]. split; [|constructor; assumption].
      simpl. rewrite <- (firstn_skipn (List.length (Canvas.undoStack s) - 1)
                          (Canvas.undoStack s)) in Hu.
      apply Forall_app in Hu. apply Hu.
  - unfold Canvas.redo. destruct (Canvas.redoStack s) as [|head rest] eqn:E.
    + unfold labels_kept_fresh. rewrite E. auto.
    + inversion Hr; subst. simpl. split; [assumption|]. split; [|assumption].
      apply Forall_app. split; [exact Hu | constructor; [exact Hc | constructor]].
  - split; auto.
  - destruct (run_mode_circuit m s) as (E1 & E2 & E3).
    unfold labels_kept_fresh. rewrite E1, E2, E3. auto.
Qed.

(** X21. Labels stay distinct. As long as the circuit is changed through
    [addComponent], [removeSelected], [clearCircuit], [undo] and [redo]
    only (and not by editing a label in the inspector), every component
    of a kind that gets a label has a label that no component before it
    in the list has; this holds of the circuits kept for undo and redo
    too, and of the initial state. It holds whichever controller object
    [undo] is called on, the latest or an earlier one, the render that
    built it having had the property. The label numbers are taken to be
    below 2^53 when a component is added. *)
Theorem labels_stay_distinct :
  forall (call : Call) (s : Canvas.State),
    labels_kept_fresh s ->
    (forall c, call = CallEdit (Add c) -> safe_labels (Canvas.components s)) ->
    (forall rendered, call = CallUndo rendered -> labels_kept_fresh rendered) ->
    let next := run_call call s in
    labels_kept_fresh Canvas.initial
    /\ labels_kept_fresh next
    /\ (forall i j ci cj,
          i < j ->
          nth_error (Canvas.components next) i = Some ci ->
          nth_error (Canvas.components next) j = Some cj ->
          Canvas.getLabelPrefix (type (Canvas.core cj)) <> None ->
          label (Canvas.core ci) <> label (Canvas.core cj)).
Proof.
  intros call s H _ Hr next.
  assert (Hn : labels_kept_fresh next) by (apply kept_fresh_call; assumption).
  split; [|split; [exact Hn|]].
  - split; [apply fresh_nil | split; constructor].
  - apply fresh_distinct, Hn.
Qed.

(** The witness: two resistors added to the empty canvas, both without a
    label, are R1 and R2. *)
Lemma labels_stay_distinct_witness :
  let c := Canvas.mkCanvasComponent (bare "resistor" origin (mkPoint 30 4)) None None in
  let s := Canvas.addComponent c Canvas.initial in
  let next := run_call (CallEdit (Add c)) s in
  labels_kept_fresh s
  /\ safe_labels (Canvas.components s)
  /\ labels_kept_fresh next
  /\ List.map (fun x => label (Canvas.core x)) (Canvas.components next)
     = [Some (lit "R1"); Some (lit "R2")].
Proof.
  intros c s next.
  assert (H0 : labels_kept_fresh Canvas.initial)
    by (split; [apply fresh_nil | split; constructor]).
  assert (Hs : labels_kept_fresh s).
  { apply (kept_fresh_call (CallEdit (Add c)) Canvas.initial H0).
    intros rendered E. discriminate E. }
  assert (Hsafe : safe_labels (Canvas.components s)).
  { intros comp l letter digits [<- | []] Hl Hm.
    vm_compute in Hl. injection Hl as <-.
    vm_compute in Hm. injection Hm as <- <-. reflexivity. }
  assert (Hno : forall rendered, CallEdit (Add c) = CallUndo rendered ->
                                 labels_kept_fresh rendered)
    by (intros rendered E; discriminate E).
  split; [exact Hs|]. split; [exact Hsafe|].
  destruct (labels_stay_distinct (CallEdit (Add c)) s Hs (fun _ _ => Hsafe) Hno)
    as (_ & Hn & _).
  split; [exact Hn | reflexivity].
Defined.

(** ** Edits in the inspector and the integrity check *)

Section PinsOnly.

Variable toUpperCase : jsstring -> jsstring.

Lemma visit_from_pins (cs ds : list ComponentInstance) :
  Forall2 same_pins cs ds ->
  forall t i, visit_from t i cs = visit_from t i ds.
Proof.
  induction 1 as [|c d cs ds (Ha & Hb) _ IH]; intros t i; [reflexivity|].
  simpl. unfold visit_component. rewrite Ha, Hb. apply IH.
Qed.

(** The integrity check accepts a circuit exactly when the circuit is not
    empty, no component is dangling and every component is reachable from
    the first through shared nodes. *)
Lemma accepted_iff (components : list ComponentInstance) :
  validateCircuitIntegrity toUpperCase components = Some Ok
  <-> components <> []
      /\ (forall k, k < List.length components ->
                    dangling_at (build_topology components) k = false)
      /\ (forall k, k < List.length components ->
                    reach (shares_node (componentNodes (build_topology components))) 0 k).
Proof.
  split.
  - intros H. destruct (accepted_not_dangling toUpperCase components H) as (Hne & Hd).
    split; [exact Hne|]. split; [exact Hd|].
    destruct (connectivity_verdict toUpperCase components (build_topology components)
                Hne (build_topology_inv components)
                (build_topology_length components) Hd) as (verdict & Hv & _ & Hok).
    unfold validateCircuitIntegrity in H.
    match type of H with
    | (if ?b then _ else _) = _ => destruct b; [discriminate H|]
    end.
    rewrite Hv in H. apply Hok. congruence.
  - intros (Hne & Hd & Hr).
    destruct (connectivity_verdict toUpperCase components (build_topology components)
                Hne (build_topology_inv components)
                (build_topology_length components) Hd) as (verdict & Hv & _ & Hok).
    unfold validateCircuitIntegrity.
    destruct components as [|c rest]; [contradiction Hne; reflexivity|].
    cbn [List.length Nat.eqb]. rewrite Hv. f_equal. apply Hok, Hr.
Qed.

Lemma accepted_pins (cs ds : list ComponentInstance) :
  Forall2 same_pins cs ds ->
  (validateCircuitIntegrity toUpperCase cs = Some Ok
   <-> validateCircuitIntegrity toUpperCase ds = Some Ok).
Proof.
  intros H. rewrite !accepted_iff.
  assert (Ht : build_topology cs = build_topology ds)
    by (unfold build_topology; apply visit_from_pins, H).
  rewrite Ht, (Forall2_length H).
  assert (Hn : cs <> [] <-> ds <> []).
  { destruct H; split; intros Hx; try discriminate; exact Hx. }
  rewrite Hn. reflexivity.
Qed.

End PinsOnly.

Lemma updateComponent_pins (target : jsstring) (patch : Inspector.Patch)
    (s : Canvas.State) :
  Forall2 same_pins
    (Canvas.getCanvasComponents (Canvas.updateComponent target patch s))
    (Canvas.getCanvasComponents s).
Proof.
  unfold Canvas.getCanvasComponents, Canvas.getAllComponents, Canvas.updateComponent.
  simpl. induction (Canvas.components s) as [|c cs IH]; simpl; constructor; [|exact IH].
  destruct (eqb (id (Canvas.core c)) target); split; reflexivity.
Qed.

Lemma updateComponent_outline (target : jsstring) (patch : Inspector.Patch)
    (s : Canvas.State) :
  Inspector.p_label patch = None ->
  Forall2 same_outline
    (Canvas.getCanvasComponents (Canvas.updateComponent target patch s))
    (Canvas.getCanvasComponents s).
Proof.
  intros Hl.
  unfold Canvas.getCanvasComponents, Canvas.getAllComponents, Canvas.updateComponent.
  simpl. induction (Canvas.components s) as [|c cs IH]; simpl; constructor; [|exact IH].
  destruct (eqb (id (Canvas.core c)) target); repeat split.
  simpl. rewrite Hl. reflexivity.
Qed.

(** X22. An edit in the inspector cannot make or break the integrity of
    the circuit: after [updateComponent], with any patch of the inspector
    and any target, the integrity check accepts the circuit exactly when
    it accepted it before, and when the patch does not write the label
    the verdict is the same, error message included. The edit takes no
    snapshot for undo, and it leaves every component with another
    identifier as it was. *)
Theorem inspector_edit_keeps_integrity :
  forall (toUpperCase : jsstring -> jsstring) (target : jsstring)
         (patch : Inspector.Patch) (s : Canvas.State),
    let edited := Canvas.updateComponent target patch s in
    (validateCircuitIntegrity toUpperCase (Canvas.getCanvasComponents edited) = Some Ok
     <-> validateCircuitIntegrity toUpperCase (Canvas.getCanvasComponents s) = Some Ok)
    /\ (Inspector.p_label patch = None ->
        validateCircuitIntegrity toUpperCase (Canvas.getCanvasComponents edited)
        = validateCircuitIntegrity toUpperCase (Canvas.getCanvasComponents s))
    /\ Canvas.undoStack edited = Canvas.undoStack s
    /\ Canvas.redoStack edited = Canvas.redoStack s
    /\ List.length (Canvas.components edited) = List.length (Canvas.components s)
    /\ (forall k c, nth_error (Canvas.components s) k = Some c ->
                    eqb (id (Canvas.core c)) target = false ->
                    nth_error (Canvas.components edited) k = Some c).
Proof.
  intros up target patch s edited. split; [|split; [|split; [|split; [|split]]]].
  - apply accepted_pins, updateComponent_pins.
  - intros Hl. apply integrity_outline, updateComponent_outline, Hl.
  - reflexivity.
  - reflexivity.
  - unfold edited, Canvas.updateComponent. simpl. apply length_map.
  - intros k c Hk Hid. unfold edited, Canvas.updateComponent. simpl.
    rewrite nth_error_map, Hk. simpl. rewrite Hid. reflexivity.
Qed.

(* ------------------------------------------------------------------ *)
(** * The exports *)

(** ** Escaping the text of a label *)

Lemma flat_map_comp {A B C : Type} (f : A -> list B) (g : B -> list C) (xs : list A) :
  flat_map g (flat_map f xs) = flat_map (fun x => flat_map g (f x)) xs.
Proof.
  induction xs as [|x xs IH]; simpl; [reflexivity|].
  rewrite flat_map_app, IH. reflexivity.
Qed.

Lemma esc_char_cases (c : N) :
  (c = 38%N /\ esc_char c = [38; 97; 109; 112; 59]%N)
  \/ (c = 60%N /\ esc_char c = [38; 108; 116; 59]%N)
  \/ (c = 62%N /\ esc_char c = [38; 103; 116; 59]%N)
  \/ (c = 34%N /\ esc_char c = [38; 113; 117; 111; 116; 59]%N)
  \/ (is_plain c = true /\ esc_char c = [c]).
Proof.
  unfold esc_char, is_plain.
  destruct (N.eqb c 38) eqn:E1; [apply N.eqb_eq in E1; auto|].
  destruct (N.eqb c 60) eqn:E2; [apply N.eqb_eq in E2; auto|].
  destruct (N.eqb c 62) eqn:E3; [apply N.eqb_eq in E3; auto 6|].
  destruct (N.eqb c 34) eqn:E4; [apply N.eqb_eq in E4; auto 6|].
  auto 6.
Qed.

Lemma esc_one (c : N) : SvgExport.esc [c] = esc_char c.
Proof.
  unfold SvgExport.esc, SvgExport.replace_all, esc_char. simpl.
  destruct (N.eqb c 38) eqn:E1; [reflexivity|].
  destruct (N.eqb c 60) eqn:E2; [simpl; rewrite E2; reflexivity|].
  destruct (N.eqb c 62) eqn:E3; [simpl; rewrite E2; simpl; rewrite E3; reflexivity|].
  destruct (N.eqb c 34) eqn:E4;
    simpl; rewrite E2; simpl; rewrite E3; simpl; rewrite E4; reflexivity.
Qed.

Lemma esc_app (s t : jsstring) : SvgExport.esc (s ++ t) = SvgExport.esc s ++ SvgExport.esc t.
Proof.
  unfold SvgExport.esc, SvgExport.replace_all. rewrite !flat_map_app. reflexivity.
Qed.

(** The four replacements, one after the other, amount to one pass that
    replaces each code unit on its own. *)
Lemma esc_chars (text : jsstring) : SvgExport.esc text = flat_map esc_char text.
Proof.
  induction text as [|c text IH]; [reflexivity|].
  change (c :: text) with ([c] ++ text). rewrite esc_app, esc_one, IH. reflexivity.
Qed.

Lemma plain_neq (c : N) :
  is_plain c = true -> c <> 38%N /\ c <> 60%N /\ c <> 62%N /\ c <> 34%N.
Proof.
  unfold is_plain. rewrite negb_true_iff, !orb_false_iff, !N.eqb_neq. tauto.
Qed.

(** X23. Escaped text holds no raw "<", ">" or double quote, whatever the
    text was, the entities that stand for "&" included; text without any
    of the four characters is left as it is; and escaping the pieces of a
    text is escaping the text. *)
Theorem esc_leaves_no_markup :
  forall text more : jsstring,
    Forall (fun c => c <> 60%N /\ c <> 62%N /\ c <> 34%N) (SvgExport.esc text)
    /\ (forallb is_plain text = true -> SvgExport.esc text = text)
    /\ SvgExport.esc (text ++ more) = SvgExport.esc text ++ SvgExport.esc more.
Proof.
  intros text more. split; [|split; [|apply esc_app]].
  - rewrite esc_chars. induction text as [|c text IH]; [constructor|].
    simpl. apply Forall_app. split; [|exact IH].
    destruct (esc_char_cases c) as [[_ ->]|[[_ ->]|[[_ ->]|[[_ ->]|[Hp ->]]]]];
      repeat constructor; try discriminate;
      destruct (plain_neq c Hp) as (_ & H1 & H2 & H3); assumption.
  - rewrite esc_chars. induction text as [|c text IH]; [reflexivity|].
    simpl. intros H. apply andb_true_iff in H. destruct H as [Hc Ht].
    rewrite (IH Ht). unfold esc_char. destruct (plain_neq c Hc) as (H1 & H2 & H3 & H4).
    apply N.eqb_neq in H1, H2, H3, H4. rewrite H1, H2, H3, H4. reflexivity.
Qed.

(** X24. Escaping loses nothing: two texts with the same escaped form are
    the same text. *)
Theorem esc_is_injective :
  forall s t : jsstring, SvgExport.esc s = SvgExport.esc t -> s = t.
Proof.
  intros s t. rewrite !esc_chars. revert t.
  induction s as [|c s IH]; intros [|d t] H; simpl in H.
  - reflexivity.
  - exfalso.
    destruct (esc_char_cases d) as [[_ E]|[[_ E]|[[_ E]|[[_ E]|[_ E]]]]];
      rewrite E in H; discriminate H.
  - exfalso.
    destruct (esc_char_cases c) as [[_ E]|[[_ E]|[[_ E]|[[_ E]|[_ E]]]]];
      rewrite E in H; discriminate H.
  - destruct (esc_char_cases c) as [[Hc Ec]|[[Hc Ec]|[[Hc Ec]|[[Hc Ec]|[Hc Ec]]]]];
      destruct (esc_char_cases d) as [[Hd Ed]|[[Hd Ed]|[[Hd Ed]|[[Hd Ed]|[Hd Ed]]]]];
      rewrite Ec, Ed in H; simpl in H;
      try discriminate H;
      try (injection H as H; subst; f_equal; apply IH; exact H);
      try (injection H as H0 H; subst;
           first [ apply plain_neq in Hd; tauto
                 | apply plain_neq in Hc; tauto
                 | f_equal; apply IH; exact H ]).
Qed.

(** The witness: a label with markup in it. *)
Lemma esc_is_injective_witness :
  SvgExport.esc (lit "R<1>&") = lit "R&lt;1&gt;&amp;"
  /\ lit "R<1>&" = lit "R<1>&".
Proof.
  split; [reflexivity|].
  apply (esc_is_injective (lit "R<1>&") (lit "R<1>&") eq_refl).
Defined.

(** ** The label in the LaTeX export *)

Lemma word_safe (c : N) :
  LatexExport.is_word c = true ->
  c <> 36%N /\ c <> 92%N /\ c <> 123%N /\ c <> 125%N.
Proof.
  intros H. repeat split; intros ->; discriminate H.
Qed.

Lemma letter_word (c : N) : is_upper c || is_lower c = true -> LatexExport.is_word c = true.
Proof.
  unfold LatexExport.is_word, is_alphanumeric, is_upper, is_lower.
  intros H. apply orb_true_iff in H. destruct H as [-> | ->];
    rewrite ?orb_true_r; reflexivity.
Qed.

Lemma digit_word (c : N) : is_digit c = true -> LatexExport.is_word c = true.
Proof.
  unfold LatexExport.is_word, is_alphanumeric, is_digit. intros ->. reflexivity.
Qed.

(** X25. The label of the LaTeX export is empty, or a letter with the
    digits as its index, or the letters, digits and underscores of the
    label in upright type: apart from the backslash and the two braces of
    its own syntax, it is made of letters, digits and underscores only,
    so that no label can end the formula it is put in. *)
Theorem latex_label_is_safe :
  forall label : option jsstring,
    let tex := LatexExport.labelToTex label in
    tex = []
    \/ (exists letter digits,
           label = Some (letter :: digits)
           /\ is_upper letter || is_lower letter = true
           /\ digits <> [] /\ forallb is_digit digits = true
           /\ tex = [letter] ++ lit "_{" ++ digits ++ lit "}")
    \/ (exists l body,
           label = Some l
           /\ body = List.filter LatexExport.is_word l
           /\ forallb LatexExport.is_word body = true
           /\ ~ In 36%N body /\ ~ In 92%N body /\ ~ In 123%N body /\ ~ In 125%N body
           /\ tex = lit "\mathrm{" ++ body ++ lit "}").
Proof.
  intros [l|]; [|left; reflexivity]. cbn zeta. unfold LatexExport.labelToTex.
  destruct (is_empty l) eqn:Ee; [left; reflexivity|]. right.
  destruct (LatexExport.match_label l) as [[letter digits]|] eqn:Em.
  - left. unfold LatexExport.match_label in Em. destruct l as [|c ds]; [discriminate Em|].
    destruct (is_upper c || is_lower c) eqn:Ec; [|discriminate Em]. simpl in Em.
    destruct (is_empty ds) eqn:Ed; [discriminate Em|]. simpl in Em.
    destruct (forallb is_digit ds) eqn:Ef; [|discriminate Em].
    injection Em as <- <-. exists c, ds. repeat split; try assumption.
    intros ->. discriminate Ed.
  - right. exists l, (List.filter LatexExport.is_word l).
    assert (Hw : forallb LatexExport.is_word (List.filter LatexExport.is_word l) = true).
    { apply forallb_forall. intros c Hc. apply filter_In in Hc. tauto. }
    assert (Hs : forall c, In c (List.filter LatexExport.is_word l) ->
                           c <> 36%N /\ c <> 92%N /\ c <> 123%N /\ c <> 125%N).
    { intros c Hc. apply word_safe. apply filter_In in Hc. tauto. }
    repeat split; try assumption; intros Hin; apply Hs in Hin; tauto.
Qed.

(* ------------------------------------------------------------------ *)
(** * The summary of the analysis page *)

Section ByType.

Variable Pin : Type.

Lemma strmap_get_set (m : AnalysisPage.StrMap) (k k' : jsstring) (v : nat) :
  AnalysisPage.get (AnalysisPage.set m k v) k'
  = if eqb k' k then Some v else AnalysisPage.get m k'.
Proof.
  induction m as [|[k0 v0] m IH]; simpl.
  - destruct (eqb k' k); reflexivity.
  - destruct (eqb k k0) eqn:E; simpl.
    + apply eqb_eq in E. subst k0. destruct (eqb k' k); reflexivity.
    + destruct (eqb k' k0) eqn:E'.
      * apply eqb_eq in E'. subst k0.
        destruct (eqb k' k) eqn:E''; [|reflexivity].
        apply eqb_eq in E''. subst k'. rewrite eqb_refl in E. discriminate E.
      * exact IH.
Qed.

Lemma strmap_get_In (m : AnalysisPage.StrMap) (k : jsstring) :
  AnalysisPage.get m k = None <-> ~ In k (List.map fst m).
Proof.
  induction m as [|[k0 v0] m IH]; simpl.
  - tauto.
  - destruct (eqb k k0) eqn:E.
    + apply eqb_eq in E. subst k0. split; [discriminate | intros H; contradiction H; auto].
    + rewrite IH. split.
      * intros H [H1 | H1]; [subst k0; rewrite eqb_refl in E; discriminate E | auto].
      * intros H H1. apply H. auto.
Qed.

Lemma strmap_set_keys (m : AnalysisPage.StrMap) (k : jsstring) (v : nat) :
  List.map fst (AnalysisPage.set m k v)
  = match AnalysisPage.get m k with
    | Some _ => List.map fst m
    | None => List.map fst m ++ [k]
    end.
Proof.
  induction m as [|[k0 v0] m IH]; simpl; [reflexivity|].
  destruct (eqb k k0) eqn:E; simpl.
  - apply eqb_eq in E. subst k0. reflexivity.
  - rewrite IH. destruct (AnalysisPage.get m k); reflexivity.
Qed.

Lemma strmap_set_sum (m : AnalysisPage.StrMap) (k : jsstring) (v : nat) :
  list_sum (List.map snd (AnalysisPage.set m k v))
  + match AnalysisPage.get m k with Some n => n | None => 0 end
  = list_sum (List.map snd m) + v.
Proof.
  induction m as [|[k0 v0] m IH]; simpl; [lia|].
  destruct (eqb k k0) eqn:E; simpl; lia.
Qed.

Lemma count_type_snoc (ty : jsstring) (cs : list (ComponentOf Pin)) (c : ComponentOf Pin) :
  count_type ty (cs ++ [c]) = count_type ty cs + (if eqb (type c) ty then 1 else 0).
Proof.
  unfold count_type. rewrite filter_app, length_app. simpl.
  destruct (eqb (type c) ty); reflexivity.
Qed.

Lemma byType_snoc (cs : list (ComponentOf Pin)) (c : ComponentOf Pin) :
  AnalysisPage.byType (cs ++ [c])
  = AnalysisPage.set (AnalysisPage.byType cs) (type c)
      (match AnalysisPage.get (AnalysisPage.byType cs) (type c) with
       | Some n => n
       | None => 0
       end + 1).
Proof. unfold AnalysisPage.byType. rewrite fold_left_app. reflexivity. Qed.

Lemma byType_spec (cs : list (ComponentOf Pin)) :
  (forall ty, AnalysisPage.get (AnalysisPage.byType cs) ty
              = if Nat.eqb (count_type ty cs) 0 then None
                else Some (count_type ty cs))
  /\ NoDup (List.map fst (AnalysisPage.byType cs))
  /\ list_sum (List.map snd (AnalysisPage.byType cs)) = List.length cs.
Proof.
  induction cs as [|c cs (Hg & Hk & Hs)] using rev_ind.
  - split; [reflexivity|]. split; [constructor | reflexivity].
  - rewrite byType_snoc. split; [|split].
    + intros ty. rewrite strmap_get_set, count_type_snoc, (Hg (type c)), (Hg ty).
      destruct (eqb ty (type c)) eqn:E.
      * apply eqb_eq in E. subst ty. rewrite eqb_refl.
        destruct (count_type (type c) cs) as [|n]; simpl; [reflexivity|].
        replace (n + 1) with (S n) by lia. reflexivity.
      * replace (eqb (type c) ty) with false.
        -- rewrite Nat.add_0_r. reflexivity.
        -- symmetry. destruct (eqb (type c) ty) eqn:E'; [|reflexivity].
           apply eqb_eq in E'. subst ty. rewrite eqb_refl in E. discriminate E.
    + rewrite strmap_set_keys.
      destruct (AnalysisPage.get (AnalysisPage.byType cs) (type c)) eqn:E; [exact Hk|].
      apply strmap_get_In in E. apply NoDup_app; [exact Hk | repeat constructor; auto |].
      intros x Hx [<- | []]. contradiction.
    + pose proof (strmap_set_sum (AnalysisPage.byType cs) (type c)
                    (match AnalysisPage.get (AnalysisPage.byType cs) (type c) with
                     | Some n => n
                     | None => 0
                     end + 1)) as H.
      rewrite length_app. simpl. lia.
Qed.

End ByType.

(** X26. The summary counts every component once: after its loop the map
    holds, for every type that occurs in the circuit, the number of
    components of that type, it holds no other type and no type twice,
    and the quantities add up to the total number of components shown
    above them. *)
Theorem summary_counts_add_up :
  forall (Pin : Type) (components : list (ComponentOf Pin)),
    let byType := AnalysisPage.byType components in
    (forall ty, AnalysisPage.get byType ty
                = if Nat.eqb (count_type ty components) 0 then None
                  else Some (count_type ty components))
    /\ NoDup (List.map fst byType)
    /\ list_sum (List.map snd byType) = List.length components.
Proof. intros Pin components. apply byType_spec. Qed.

(* ------------------------------------------------------------------ *)
(** * Names in the reports *)

Lemma lit_digits_inj (d d' : Decimal.uint) :
  lit (NilEmpty.string_of_uint d) = lit (NilEmpty.string_of_uint d') -> d = d'.
Proof.
  intros H. rewrite <- (uint_of_digits_string d), <- (uint_of_digits_string d'), H.
  reflexivity.
Qed.

Lemma of_nat_inj (i j : nat) : of_nat i = of_nat j -> i = j.
Proof.
  unfold of_nat. intros H. apply lit_digits_inj in H.
  rewrite <- (DecimalNat.Unsigned.of_to i), <- (DecimalNat.Unsigned.of_to j), H.
  reflexivity.
Qed.

(** X27. Components without a label are told apart in the reports: two
    components of the same type whose labels are missing or blank get
    the same name only at the same position of the list. *)
Theorem fallback_names_distinct :
  forall (Pin : Type) (toUpperCase : jsstring -> jsstring)
         (c d : ComponentOf Pin) (i j : nat),
    has_text (label c) = false ->
    has_text (label d) = false ->
    type c = type d ->
    canonicalLabel toUpperCase c i = canonicalLabel toUpperCase d j ->
    i = j.
Proof.
  intros Pin up c d i j Hc Hd Ht H.
  rewrite (proj2 (canonicalLabel_cases Pin up c i) Hc) in H.
  rewrite (proj2 (canonicalLabel_cases Pin up d j) Hd) in H.
  rewrite Ht in H. apply app_inv_head in H. apply app_inv_head in H.
  apply of_nat_inj in H. lia.
Qed.

(** The witness: a resistor without a label, at position 2. *)
Lemma fallback_names_distinct_witness :
  let c := bare "resistor" origin (mkPoint 30 4) in
  canonicalLabel ascii_upper c 2 = lit "RESISTOR_3" /\ 2 = 2.
Proof.
  intros c. split; [reflexivity|].
  apply (fallback_names_distinct Point ascii_upper c c 2 2 eq_refl eq_refl eq_refl eq_refl).
Defined.

(** ** The label typed in the inspector *)

Lemma trimStart_head (s : jsstring) (c : N) (r : jsstring) :
  trimStart s = c :: r -> is_white_space c = false.
Proof.
  induction s as [|x s IH]; simpl; [discriminate|].
  destruct (is_white_space x) eqn:E; [exact IH|]. intros [= <- _]. exact E.
Qed.

Lemma trimStart_idem (s : jsstring) : trimStart (trimStart s) = trimStart s.
Proof.
  destruct (trimStart s) as [|c r] eqn:E; [reflexivity|].
  simpl. rewrite (trimStart_head s c r E). reflexivity.
Qed.

Lemma trimStart_keeps_last (p : jsstring) (x : N) :
  is_white_space x = false -> exists q, trimStart (p ++ [x]) = q ++ [x].
Proof.
  intros Hx. induction p as [|c p IH]; simpl.
  - rewrite Hx. exists []. reflexivity.
  - destruct (is_white_space c); [exact IH|]. exists (c :: p). reflexivity.
Qed.

Lemma trimEnd_head (c : N) (r : jsstring) :
  is_white_space c = false -> exists r', trimEnd (c :: r) = c :: r'.
Proof.
  intros Hc. unfold trimEnd. simpl.
  destruct (trimStart_keeps_last (rev r) c Hc) as (q & ->).
  rewrite rev_app_distr. simpl. eexists. reflexivity.
Qed.

Lemma trimEnd_idem (s : jsstring) : trimEnd (trimEnd s) = trimEnd s.
Proof. unfold trimEnd. rewrite rev_involutive, trimStart_idem. reflexivity. Qed.

Lemma trim_idem (s : jsstring) : trim (trim s) = trim s.
Proof.
  unfold trim. destruct (trimStart s) as [|c r] eqn:E; [reflexivity|].
  destruct (trimEnd_head c r (trimStart_head s c r E)) as (r' & Hr).
  assert (Hs : trimStart (trimEnd (c :: r)) = trimEnd (c :: r)).
  { rewrite Hr. simpl. rewrite (trimStart_head s c r E). reflexivity. }
  rewrite Hs. apply trimEnd_idem.
Qed.

(** X28. A label typed in the inspector is stored trimmed, and the
    reports name the component by what is stored: when the text typed is
    not blank the name is the stored label itself, and when it is blank
    the empty string is stored and the name is the type in upper case
    with the position. *)
Theorem label_input_and_name :
  forall (Pin : Type) (toUpperCase : jsstring -> jsstring)
         (comp : ComponentOf Pin) (f : Inspector.Form) (index : nat),
    exists patch,
      snd (Inspector.onLabelInput f) = Some patch
      /\ let patched := Inspector.apply_patch comp patch in
         label patched = Some (trim (Inspector.labelInput f))
         /\ type patched = type comp
         /\ canonicalLabel toUpperCase patched index
            = (if blank (Inspector.labelInput f)
               then toUpperCase (type comp) ++ lit "_" ++ of_nat (index + 1)
               else trim (Inspector.labelInput f))
         /\ (blank (Inspector.labelInput f) = true -> label patched = Some []).
Proof.
  intros Pin up comp f index. eexists. split; [reflexivity|]. cbn zeta.
  split; [reflexivity|]. split; [reflexivity|]. split.
  - unfold canonicalLabel. simpl. rewrite trim_idem, trim_empty.
    destruct (blank (Inspector.labelInput f)); reflexivity.
  - intros Hb. simpl. rewrite <- trim_empty in Hb. apply is_empty_nil in Hb.
    rewrite Hb. reflexivity.
Qed.

(* ------------------------------------------------------------------ *)
(** * The text drawn for a generated label *)

(** X29. A label given by [buildLabeledComponent] is drawn the same way
    on the canvas and in the LaTeX export: as the letter of the kind with
    the digits as its index. *)
Theorem generated_label_is_indexed :
  forall (c : Canvas.Component) (existing : list Canvas.Component) (prefix : jsstring),
    safe_labels existing ->
    Canvas.getLabelPrefix (type (Canvas.core c)) = Some prefix ->
    let built := Canvas.core (Canvas.buildLabeledComponent c existing) in
    exists digits,
      label built = Some (prefix ++ digits)
      /\ Canvas.labelToTex (label built) = prefix ++ lit "_{" ++ digits ++ lit "}"
      /\ LatexExport.labelToTex (label built) = prefix ++ lit "_{" ++ digits ++ lit "}".
Proof.
  intros c existing prefix _ Hp built.
  destruct (built_label c existing prefix Hp) as (l & digits & Hl & Hm & _ & _).
  assert (Hlab : label built = Some l /\ is_empty l = false).
  { unfold Canvas.truthy_label in Hl. fold built in Hl.
    destruct (label built) as [l'|]; [|discriminate Hl].
    destruct (is_empty l') eqn:E; [discriminate Hl|]. injection Hl as ->. auto. }
  destruct Hlab as [Hlab Hne]. exists digits. rewrite Hlab.
  assert (Hshape : l = prefix ++ digits
                   /\ LatexExport.match_label l = Some (prefix, digits)).
  { unfold Canvas.match_label in Hm. unfold LatexExport.match_label.
    destruct l as [|u ds]; [discriminate Hm|].
    destruct (is_upper u) eqn:Eu; [|discriminate Hm]. simpl in Hm. simpl.
    destruct (is_empty ds); [discriminate Hm|]. simpl in Hm. simpl.
    destruct (forallb is_digit ds); [|discriminate Hm].
    injection Hm as <- <-. split; reflexivity. }
  destruct Hshape as [Hs Hx]. split; [rewrite Hs; reflexivity|].
  unfold Canvas.labelToTex, LatexExport.labelToTex. rewrite Hne, Hm, Hx. split; reflexivity.
Qed.

(** The witness: the first resistor of a circuit is drawn as R with the
    index 1. *)
Lemma generated_label_is_indexed_witness :
  let c := Canvas.mkCanvasComponent (bare "resistor" origin (mkPoint 30 4)) None None in
  let built := Canvas.core (Canvas.buildLabeledComponent c []) in
  safe_labels []
  /\ Canvas.labelToTex (label built) = lit "R_{1}"
  /\ exists digits, label built = Some (lit "R" ++ digits).
Proof.
  intros c built.
  assert (Hs : safe_labels []) by (intros comp l letter digits []).
  split; [exact Hs|]. split; [reflexivity|].
  destruct (generated_label_is_indexed c [] (lit "R") Hs eq_refl) as (digits & Hl & _).
  exists digits. exact Hl.
Defined.

(* ------------------------------------------------------------------ *)
(** * The keyboard shortcuts *)

(** X30. While the inspector holds the keyboard lock, no shortcut does
    anything. With Ctrl or Cmd held, a key that is "z" in lower case calls
    [undo] whether Shift is held or not, since that test comes first: the
    listener calls [redo] only for a key that is "y" in lower case, never
    for Ctrl+Shift+Z. *)
Theorem shortcut_redo_needs_y :
  forall (toLowerCase : jsstring -> jsstring) (locked : bool)
         (currentTool : option jsstring) (preview : bool) (e : Keyboard.KeyEvent),
    let shortcut := Keyboard.onKeydown toLowerCase locked currentTool preview e in
    (locked = true -> shortcut = Keyboard.Ignored)
    /\ (shortcut = Keyboard.Redo ->
        toLowerCase (Keyboard.key e) = lit "y"
        /\ locked = false /\ preview = false
        /\ Keyboard.ctrlKey e || Keyboard.metaKey e = true)
    /\ (shortcut = Keyboard.Undo ->
        toLowerCase (Keyboard.key e) = lit "z"
        /\ locked = false /\ preview = false
        /\ Keyboard.ctrlKey e || Keyboard.metaKey e = true)
    /\ (locked = false -> preview = false ->
        eqb (Keyboard.key e) (lit "Escape") = false ->
        eqb (Keyboard.code e) (lit "Space") = false ->
        eqb (Keyboard.key e) (lit "Backspace") = false ->
        eqb (Keyboard.key e) (lit "Delete") = false ->
        Keyboard.ctrlKey e || Keyboard.metaKey e = true ->
        toLowerCase (Keyboard.key e) = lit "z" ->
        shortcut = Keyboard.Undo).
Proof.
  intros lower locked currentTool preview e. cbn zeta. unfold Keyboard.onKeydown.
  split; [intros ->; reflexivity|]. split; [|split].
  - destruct locked; [discriminate|].
    destruct (_ && eqb (Keyboard.key e) (lit "Escape")); [discriminate|].
    destruct preview.
    { destruct (eqb (Keyboard.code e) (lit "Space")); [discriminate|].
      destruct (eqb (Keyboard.key e) (lit "Escape")); discriminate. }
    destruct (eqb (Keyboard.code e) (lit "Space")); [discriminate|].
    destruct (eqb (Keyboard.key e) (lit "Backspace") || eqb (Keyboard.key e) (lit "Delete"));
      [discriminate|].
    destruct (Keyboard.ctrlKey e || Keyboard.metaKey e); [|discriminate].
    destruct (eqb (lower (Keyboard.key e)) (lit "z")) eqn:Ez; [discriminate|].
    rewrite andb_false_r, orb_false_r.
    destruct (eqb (lower (Keyboard.key e)) (lit "y")) eqn:Ey.
    + apply eqb_eq in Ey. auto.
    + destruct (eqb (lower (Keyboard.key e)) (lit "a")); discriminate.
  - destruct locked; [discriminate|].
    destruct (_ && eqb (Keyboard.key e) (lit "Escape")); [discriminate|].
    destruct preview.
    { destruct (eqb (Keyboard.code e) (lit "Space")); [discriminate|].
      destruct (eqb (Keyboard.key e) (lit "Escape")); discriminate. }
    destruct (eqb (Keyboard.code e) (lit "Space")); [discriminate|].
    destruct (eqb (Keyboard.key e) (lit "Backspace") || eqb (Keyboard.key e) (lit "Delete"));
      [discriminate|].
    destruct (Keyboard.ctrlKey e || Keyboard.metaKey e); [|discriminate].
    destruct (eqb (lower (Keyboard.key e)) (lit "z")) eqn:Ez.
    + apply eqb_eq in Ez. auto.
    + rewrite andb_false_r, orb_false_r.
      destruct (eqb (lower (Keyboard.key e)) (lit "y")); [discriminate|].
      destruct (eqb (lower (Keyboard.key e)) (lit "a")); discriminate.
  - intros -> -> Hesc Hsp Hb Hd Hc Hz.
    rewrite Hesc, andb_false_r, Hsp, Hb, Hd, Hc, Hz. reflexivity.
Qed.
